(** * Conditional inference trees and forests

    A shallow embedding of [citrees/citrees.py]: the [Node] / [CITreeBase] /
    [CITreeClassifier] classes, the bootstrap index samplers, the two joblib
    helpers and the [CIForestBase] / [CIForestClassifier] classes.

    Conventions of the embedding.
    - Python floats are idealised as exact rationals ([Q]); [np.inf] is a
      separate constructor where the code uses it.  Rounding is therefore out
      of the model and "within tolerance" statements are proved as exact
      equalities of rationals ([==]).
    - Python integers are [Z]; sizes, depths and column indices are [nat].
    - A raised exception is a value of [exn]; a method that may raise returns
      a [Result].
    - Every use of numpy's process-wide random generator ([np.random.seed],
      [np.random.choice], [np.random.randint], and [utils.bayes_boot_probs],
      which draws from it) is an event of a [Task]; tasks are run against a
      [Generator], one after the other or interleaved by a schedule, the way
      the threading backend of joblib runs them.
    - Functions imported from the sibling modules [permutation], [scorers] and
      from scikit-learn are fields of the class [Collaborators]. *)

From Stdlib Require Import String.
From Stdlib Require Import ZArith QArith Qabs Qround List Bool Lia Lqa.
From Stdlib Require Import PeanoNat Permutation Sorted.
Import ListNotations.

Set Implicit Arguments.

(* ================================================================= *)
(** ** Exceptions and results *)

Inductive exn : Type :=
| ValueError        (* bad argument value *)
| IndexError        (* index out of range, mask of the wrong length *)
| TypeError         (* operation on a value of the wrong Python type *)
| AttributeError    (* attribute of [None] *)
| AxisError         (* numpy: axis out of bounds for the array *)
| FuelExhausted.    (* the recursion bound of the model was reached *)

Inductive Result (A : Type) : Type :=
| Ok (a : A)
| Err (e : exn).
Arguments Err {A} e.

Definition rbind {A B} (r : Result A) (f : A -> Result B) : Result B :=
  match r with
  | Ok a => f a
  | Err e => Err e
  end.

Definition is_ok {A} (r : Result A) : bool :=
  match r with Ok _ => true | Err _ => false end.

Declare Scope result_scope.
Delimit Scope result_scope with result.
Notation "x <-- c1 ;; c2" := (rbind c1 (fun x => c2))
  (at level 61, c1 at next level, right associativity) : result_scope.
Notation "' pat <-- c1 ;; c2" := (rbind c1 (fun x => match x with pat => c2 end))
  (at level 61, pat pattern, c1 at next level, right associativity) : result_scope.

(* ================================================================= *)
(** ** Numbers *)

Definition Qlt_bool (a b : Q) : bool := negb (Qle_bool b a).

(** [np.sum] of a one-dimensional array. *)
Definition Qsum (l : list Q) : Q := fold_right Qplus 0 l.

(** A float that may be [np.inf]: the running best p-value of a selector. *)
Inductive pvalue : Type :=
| finite (q : Q)
| np_inf.

(** [a < b] for a finite [a]. *)
Definition pvalue_gt (b : pvalue) (a : Q) : bool :=
  match b with
  | finite q => Qlt_bool a q
  | np_inf => true
  end.

(** [a < alpha] for a possibly infinite [a]. *)
Definition pvalue_lt (a : pvalue) (alpha : Q) : bool :=
  match a with
  | finite q => Qlt_bool q alpha
  | np_inf => false
  end.

(* ================================================================= *)
(** ** numpy arrays *)

(** A two-dimensional float array; the shape is part of the value, so that an
    array with no rows still has a number of columns. *)
Record matrix : Type := Matrix { rows : list (list Q); ncols : nat }.

Definition nrows (X : matrix) : nat := length (rows X).

(** [X.shape] *)
Definition shape (X : matrix) : nat * nat := (nrows X, ncols X).

(** [X[:, col]] *)
Definition column (X : matrix) (col : nat) : Result (list Q) :=
  if col <? ncols X then Ok (map (fun r => nth col r 0) (rows X))
  else Err IndexError.

(** [a[mask]] for a boolean mask: the mask must be as long as [a]. *)
Fixpoint mask_select {A} (mask : list bool) (a : list A) : Result (list A) :=
  match mask, a with
  | [], [] => Ok []
  | b :: mask', x :: a' =>
      match mask_select mask' a' with
      | Ok l => Ok (if b then x :: l else l)
      | Err e => Err e
      end
  | _, _ => Err IndexError
  end.

(** [a[idx]] for an integer index array. *)
Fixpoint take_idx {A} (idx : list nat) (a : list A) : Result (list A) :=
  match idx with
  | [] => Ok []
  | i :: idx' =>
      match nth_error a i, take_idx idx' a with
      | Some x, Ok l => Ok (x :: l)
      | None, _ => Err IndexError
      | _, Err e => Err e
      end
  end.

(** Insertion into a strictly increasing list. *)
Fixpoint insert_unique (z : Z) (l : list Z) : list Z :=
  match l with
  | [] => [z]
  | x :: l' =>
      if (z <? x)%Z then z :: l
      else if (z =? x)%Z then l
      else x :: insert_unique z l'
  end.

(** [np.unique(y)]: the sorted distinct labels. *)
Definition np_unique (y : list Z) : list Z := fold_right insert_unique [] y.

(** [y == label], as a mask. *)
Definition eq_mask (y : list Z) (label : Z) : list bool :=
  map (fun v => (v =? label)%Z) y.

(** [np.where(y == label)[0]] *)
Fixpoint where_eq (y : list Z) (label : Z) (i : nat) : list nat :=
  match y with
  | [] => []
  | v :: y' =>
      if (v =? label)%Z then i :: where_eq y' label (S i)
      else where_eq y' label (S i)
  end.

(** How often [label] occurs in [y]. *)
Definition count_eq (y : list Z) (label : Z) : nat :=
  length (filter (fun v => (v =? label)%Z) y).

Definition Qnat (n : nat) : Q := inject_Z (Z.of_nat n).

(** [np.mean(y == label)]; numpy gives [nan] on an empty [y], the model gives
    [0 / 0 = 0]. *)
Definition mean_eq (y : list Z) (label : Z) : Q :=
  Qnat (count_eq y label) / Qnat (length y).

(** [np.argmax] of a one-dimensional array: the first position of the
    maximum; an empty array is a [ValueError]. *)
Fixpoint argmax_from (best : Q) (best_i : nat) (i : nat) (l : list Q) : nat :=
  match l with
  | [] => best_i
  | x :: l' =>
      if Qlt_bool best x then argmax_from x i (S i) l'
      else argmax_from best best_i (S i) l'
  end.

Definition argmax (l : list Q) : Result nat :=
  match l with
  | [] => Err ValueError
  | x :: l' => Ok (argmax_from x 0%nat 1%nat l')
  end.

Fixpoint rmap {A B} (f : A -> Result B) (l : list A) : Result (list B) :=
  match l with
  | [] => Ok []
  | x :: l' =>
      match f x, rmap f l' with
      | Ok b, Ok bs => Ok (b :: bs)
      | Err e, _ => Err e
      | _, Err e => Err e
      end
  end.

(* ================================================================= *)
(** ** The shared random generator and tasks *)

(** The calls that read or write numpy's global generator. *)
Inductive np_event : Type :=
| ev_seed (s : Z)
    (* np.random.seed(s) *)
| ev_choice (a : list nat) (size : nat) (replace : bool) (p : option (list Q))
    (* np.random.choice(a, size=size, replace=replace, p=p) *)
| ev_bayes_boot_probs (n : nat)
    (* utils.bayes_boot_probs(n=n) *)
| ev_randint (lo hi : Z).
    (* np.random.randint(lo, hi) *)

Definition reply (ev : np_event) : Type :=
  match ev with
  | ev_seed _ => unit
  | ev_choice _ _ _ _ => list nat
  | ev_bayes_boot_probs _ => list Q
  | ev_randint _ _ => Z
  end.

(** What numpy promises about a reply: a sample has the requested size and
    is made of items of [a], distinct ones when [a] has no repetition and the
    sample is drawn without replacement (the model only emits the event when
    such a sample exists); the Bayesian bootstrap weights are [n]; the random
    integer is in range. *)
Definition reply_ok (ev : np_event) : reply ev -> Prop :=
  match ev with
  | ev_seed _ => fun _ => True
  | ev_choice a size replace _ =>
      fun r =>
        (size = 0%nat \/ a <> []) ->
        (replace = false -> (size <= length a)%nat) ->
        length r = size /\ Forall (fun i => In i a) r
        /\ (replace = false -> NoDup a -> NoDup r)
  | ev_bayes_boot_probs n => fun r => length r = n
  | ev_randint lo hi => fun z => (lo < hi)%Z -> (lo <= z < hi)%Z
  end.

(** A computation that talks to the generator. *)
Inductive Task (A : Type) : Type :=
| Return (a : A)
| Raise (e : exn)
| Call (ev : np_event) (k : reply ev -> Task A).
Arguments Raise {A} e.

Fixpoint bind {A B} (t : Task A) (f : A -> Task B) : Task B :=
  match t with
  | Return a => f a
  | Raise e => Raise e
  | Call ev k => Call ev (fun r => bind (k r) f)
  end.

Definition lift {A} (r : Result A) : Task A :=
  match r with
  | Ok a => Return a
  | Err e => Raise e
  end.

Declare Scope task_scope.
Delimit Scope task_scope with task.
Notation "x <- c1 ;; c2" := (bind c1 (fun x => c2))
  (at level 61, c1 at next level, right associativity) : task_scope.
Notation "' pat <- c1 ;; c2" := (bind c1 (fun x => match x with pat => c2 end))
  (at level 61, pat pattern, c1 at next level, right associativity) : task_scope.

(** A generator: a state and its answer to every event. *)
Record Generator : Type := {
  gen_state : Type;
  gen_step : forall ev : np_event, gen_state -> reply ev * gen_state
}.

(** The generator keeps numpy's promises. *)
Definition sound (G : Generator) : Prop :=
  forall ev g, reply_ok ev (fst (gen_step G ev g)).

(** Seeding forgets the past: the state after [np.random.seed(s)] depends on
    [s] only. *)
Definition seed_resets (G : Generator) : Prop :=
  forall s g1 g2,
    snd (gen_step G (ev_seed s) g1) = snd (gen_step G (ev_seed s) g2).

(** One task, run to its end. *)
Fixpoint run (G : Generator) {A} (t : Task A) (g : gen_state G)
  : Result A * gen_state G :=
  match t with
  | Return a => (Ok a, g)
  | Raise e => (Err e, g)
  | Call ev k => let (r, g') := gen_step G ev g in run G (k r) g'
  end.

(** [np.random.seed(s)]: the seed must fit 32 bits. *)
Definition np_random_seed (s : Z) : Task unit :=
  if ((0 <=? s) && (s <? 2 ^ 32))%Z then Call (ev_seed s) (fun u => Return u)
  else Raise ValueError.

(** [np.random.choice(a, size, replace, p)]: a negative size, a sample
    without replacement larger than [a], a sample from an empty [a], and
    weights that are not as many as [a] has items are refused. *)
Definition np_random_choice (a : list nat) (size : Z) (replace : bool)
           (p : option (list Q)) : Task (list nat) :=
  if (size <? 0)%Z then Raise ValueError
  else
    let size := Z.to_nat size in
    if (negb replace && (length a <? size))%nat
       || (replace && (length a =? 0)%nat && (0 <? size)%nat)
    then Raise ValueError
    else
      match p with
      | Some w =>
          if (length w =? length a)%nat
          then Call (ev_choice a size replace p) (fun r => Return r)
          else Raise ValueError
      | None => Call (ev_choice a size replace p) (fun r => Return r)
      end.

(** ** Tasks on a thread pool

    [Parallel(n_jobs, backend='threading')(tasks)]: the threads share the
    generator.  A schedule names, step by step, the thread that performs its
    next generator call; what a thread computes between two calls is local to
    it.  When the schedule is used up the tasks still running are completed
    in list order, so the empty schedule is the one-worker run. *)

Fixpoint set_nth {A} (i : nat) (x : A) (l : list A) : list A :=
  match l, i with
  | [], _ => []
  | _ :: l', O => x :: l'
  | y :: l', S i' => y :: set_nth i' x l'
  end.

Definition step_thread (G : Generator) {A} (i : nat) (ts : list (Task A))
           (g : gen_state G) : list (Task A) * gen_state G :=
  match nth_error ts i with
  | Some (Call ev k) =>
      let (r, g') := gen_step G ev g in (set_nth i (k r) ts, g')
  | _ => (ts, g)
  end.

Fixpoint interleave (G : Generator) {A} (sched : list nat)
         (ts : list (Task A)) (g : gen_state G)
  : list (Task A) * gen_state G :=
  match sched with
  | [] => (ts, g)
  | i :: sched' =>
      let (ts', g') := step_thread G i ts g in interleave G sched' ts' g'
  end.

Fixpoint run_all (G : Generator) {A} (ts : list (Task A)) (g : gen_state G)
  : list (Result A) * gen_state G :=
  match ts with
  | [] => ([], g)
  | t :: ts' =>
      let (r, g') := run G t g in
      let (rs, g'') := run_all G ts' g' in
      (r :: rs, g'')
  end.

(** The first failure is the failure of the whole call. *)
Fixpoint collect {A} (rs : list (Result A)) : Result (list A) :=
  match rs with
  | [] => Ok []
  | Ok a :: rs' =>
      match collect rs' with
      | Ok l => Ok (a :: l)
      | Err e => Err e
      end
  | Err e :: _ => Err e
  end.

Definition Parallel (G : Generator) {A} (sched : list nat)
           (ts : list (Task A)) (g : gen_state G)
  : Result (list A) * gen_state G :=
  let (ts', g') := interleave G sched ts g in
  let (rs, g'') := run_all G ts' g' in
  (collect rs, g'').

(* ================================================================= *)
(** ** Collaborators *)

(** The functions [citrees.py] imports and does not define.  Labels are
    integers; a permutation test receives the column, the labels, their
    concatenation, and the keyword arguments in the order of the call. *)
Class Collaborators : Type := {
  (* permutation_test_pcor(x, y, agg, B, random_state) *)
  permutation_test_pcor : list Q -> list Z -> list Q -> Z -> Z -> Q;
  (* permutation_test_dcor(x, y, agg, n, B, random_state) *)
  permutation_test_dcor : list Q -> list Z -> list Q -> nat -> Z -> Z -> Q;
  (* permutation_test_dcor_parallel(x, y, agg, n, n_jobs, B, random_state) *)
  permutation_test_dcor_parallel :
    list Q -> list Z -> list Q -> nat -> Z -> Z -> Z -> Q;
  (* pcor(x, y), py_dcor(x, y, n), c_dcor(x, y, n) *)
  pcor : list Q -> list Z -> Q;
  py_dcor : list Q -> list Z -> nat -> Q;
  c_dcor : list Q -> list Z -> nat -> Q;
  (* DecisionTreeClassifier(max_depth=1, min_samples_split=m)
       .fit(x.reshape(-1, 1), y).tree_.threshold[0] *)
  stump_threshold : list Q -> list Z -> Z -> Q;
  (* int(np.log(k)) *)
  int_log : nat -> Z
}.

(** Modelled from the spec: [scorers.gini_index] is not part of the sources;
    the spec names it "the weighted Gini impurity function" with interface
    [gini(y, classes)].  It is taken to be the Gini impurity of the label
    vector over the given classes, one minus the sum of the squared class
    frequencies. *)
Definition gini_index (y : list Z) (labels : list Z) : Q :=
  1 - Qsum (map (fun label => mean_eq y label * mean_eq y label) labels).

(* ================================================================= *)
(** ** Single models *)

(** class Node: a decision node carries [col], [col_pval], [threshold],
    [impurity] and the two children, and its [value] is [None]; a terminal
    node carries only [value]. *)
Inductive Node : Type :=
| Internal (col : nat) (col_pval : Q) (threshold : Q) (impurity : Q)
           (left_child right_child : Node)
| Terminal (value : list Q).

(** A Python value that is a string or an integer ([max_feats]). *)
Inductive str_or_int : Type :=
| Str (s : string)
| Int (z : Z).

Definition str_or_int_eqb (a b : str_or_int) : bool :=
  match a, b with
  | Str s, Str s' => String.eqb s s'
  | Int z, Int z' => (z =? z')%Z
  | _, _ => false
  end.

(** [x in l] *)
Definition py_in {A} (eqb : A -> A -> bool) (x : A) (l : list A) : bool :=
  existsb (eqb x) l.

(** [self.max_depth]: [np.inf] or an integer. *)
Inductive depth_limit : Type :=
| unbounded
| at_most (d : nat).

(** [depth < self.max_depth] *)
Definition depth_below (depth : nat) (m : depth_limit) : bool :=
  match m with
  | unbounded => true
  | at_most d => (depth <? d)%nat
  end.

(** The attributes of a CITreeClassifier instance.  [labels_], [n_classes_]
    and [feature_importances_] do not exist before the first [fit]; they are
    empty here until then. *)
Record CITree : Type := {
  alpha : Q;
  min_samples_split : Z;
  n_permutations : Z;
  selector : string;
  max_feats : str_or_int;
  early_stopping : bool;
  verbose : Z;
  n_jobs : Z;
  root : option Node;
  splitter_counter_ : Z;
  max_depth : depth_limit;
  random_state : Z;
  labels_ : list Z;
  n_classes_ : nat;
  feature_importances_ : list Q
}.

(** The keyword arguments of [CITreeClassifier.__init__]. *)
Record TreeArgs : Type := {
  arg_min_samples_split : Z;
  arg_alpha : Q;
  arg_max_depth : Z;
  arg_max_feats : str_or_int;
  arg_n_permutations : Z;
  arg_selector : string;
  arg_early_stopping : bool;
  arg_verbose : Z;
  arg_n_jobs : Z;
  arg_random_state : option Z
}.

(** The defaults of [CITreeClassifier.__init__]. *)
Definition default_tree_args : TreeArgs := {|
  arg_min_samples_split := 2;
  arg_alpha := 5 # 100;
  arg_max_depth := -1;
  arg_max_feats := Int (-1);
  arg_n_permutations := 100;
  arg_selector := "pearson";
  arg_early_stopping := false;
  arg_verbose := 0;
  arg_n_jobs := -1;
  arg_random_state := None
|}.

Definition valid_selectors : list string := ["distance"; "pearson"; "hybrid"]%string.

Definition valid_max_feats : list str_or_int :=
  [Str "sqrt"; Str "log"; Str "all"; Int (-1)].

(** CITreeBase.__init__ (CITreeClassifier.__init__ passes its arguments on
    unchanged). *)
Definition CITreeClassifier_init (a : TreeArgs) : Task CITree :=
  if Qle_bool (arg_alpha a) 0 || Qlt_bool 1 (arg_alpha a)
  then Raise ValueError
  else if (arg_n_permutations a <? 0)%Z
  then Raise ValueError
  else if negb (py_in String.eqb (arg_selector a) valid_selectors)
  then Raise ValueError
  else if negb (py_in str_or_int_eqb (arg_max_feats a) valid_max_feats)
  then Raise ValueError
  else
    (rs <- match arg_random_state a with
           | None => Call (ev_randint 1 9999) (fun z => Return z)
           | Some s => Return s
           end ;;
     Return {|
       alpha := arg_alpha a;
       min_samples_split := Z.max 1 (arg_min_samples_split a);
       n_permutations := arg_n_permutations a;
       selector := arg_selector a;
       max_feats := arg_max_feats a;
       early_stopping := arg_early_stopping a;
       verbose := arg_verbose a;
       n_jobs := arg_n_jobs a;
       root := None;
       splitter_counter_ := 0;
       max_depth := if (arg_max_depth a =? -1)%Z then unbounded
                    else at_most (Z.to_nat (Z.max 1 (arg_max_depth a)));
       random_state := rs;
       labels_ := [];
       n_classes_ := 0;
       feature_importances_ := []
     |})%task.

Definition set_splitter_counter_ (self : CITree) (c : Z) : CITree := {|
  alpha := alpha self; min_samples_split := min_samples_split self;
  n_permutations := n_permutations self; selector := selector self;
  max_feats := max_feats self; early_stopping := early_stopping self;
  verbose := verbose self; n_jobs := n_jobs self; root := root self;
  splitter_counter_ := c;
  max_depth := max_depth self; random_state := random_state self;
  labels_ := labels_ self; n_classes_ := n_classes_ self;
  feature_importances_ := feature_importances_ self |}.

Definition set_feature_importances_ (self : CITree) (fi : list Q) : CITree := {|
  alpha := alpha self; min_samples_split := min_samples_split self;
  n_permutations := n_permutations self; selector := selector self;
  max_feats := max_feats self; early_stopping := early_stopping self;
  verbose := verbose self; n_jobs := n_jobs self; root := root self;
  splitter_counter_ := splitter_counter_ self;
  max_depth := max_depth self; random_state := random_state self;
  labels_ := labels_ self; n_classes_ := n_classes_ self;
  feature_importances_ := fi |}.

Definition set_max_feats (self : CITree) (m : str_or_int) : CITree := {|
  alpha := alpha self; min_samples_split := min_samples_split self;
  n_permutations := n_permutations self; selector := selector self;
  max_feats := m; early_stopping := early_stopping self;
  verbose := verbose self; n_jobs := n_jobs self; root := root self;
  splitter_counter_ := splitter_counter_ self;
  max_depth := max_depth self; random_state := random_state self;
  labels_ := labels_ self; n_classes_ := n_classes_ self;
  feature_importances_ := feature_importances_ self |}.

Definition set_root (self : CITree) (r : option Node) : CITree := {|
  alpha := alpha self; min_samples_split := min_samples_split self;
  n_permutations := n_permutations self; selector := selector self;
  max_feats := max_feats self; early_stopping := early_stopping self;
  verbose := verbose self; n_jobs := n_jobs self; root := r;
  splitter_counter_ := splitter_counter_ self;
  max_depth := max_depth self; random_state := random_state self;
  labels_ := labels_ self; n_classes_ := n_classes_ self;
  feature_importances_ := feature_importances_ self |}.

Definition set_labels_ (self : CITree) (l : list Z) : CITree := {|
  alpha := alpha self; min_samples_split := min_samples_split self;
  n_permutations := n_permutations self; selector := selector self;
  max_feats := max_feats self; early_stopping := early_stopping self;
  verbose := verbose self; n_jobs := n_jobs self; root := root self;
  splitter_counter_ := splitter_counter_ self;
  max_depth := max_depth self; random_state := random_state self;
  labels_ := l; n_classes_ := length l;
  feature_importances_ := feature_importances_ self |}.

Section SingleModels.
Context {collab : Collaborators}.

Open Scope result_scope.

(** The loop the three selectors share: [test] is the permutation test made
    for a column; the running minimum is replaced on a strictly smaller
    p-value, and with early stopping the first one below [alpha] ends the
    search. *)
Fixpoint selector_loop (self : CITree) (X : matrix) (test : list Q -> Q)
         (col_idx : list nat) (best_col : option nat) (best_pval : pvalue)
  : Result (option nat * pvalue) :=
  match col_idx with
  | [] => Ok (best_col, best_pval)
  | col :: rest =>
      x <-- column X col ;;
      let pval := test x in
      if pvalue_gt best_pval pval then
        if early_stopping self && Qlt_bool pval (alpha self)
        then Ok (Some col, finite pval)
        else selector_loop self X test rest (Some col) (finite pval)
      else selector_loop self X test rest best_col best_pval
  end.

(** [np.concatenate([X[:, col], y])] *)
Definition agg (x : list Q) (y : list Z) : list Q := x ++ map inject_Z y.

(** CITreeBase._selector_pcor *)
Definition _selector_pcor (self : CITree) (X : matrix) (y : list Z)
           (col_idx : list nat) : Result (option nat * pvalue) :=
  selector_loop self X
    (fun x => permutation_test_pcor x y (agg x y)
                (n_permutations self) (random_state self))
    col_idx None np_inf.

(** CITreeBase._selector_dcor *)
Definition _selector_dcor (self : CITree) (X : matrix) (y : list Z) (n : nat)
           (col_idx : list nat) : Result (option nat * pvalue) :=
  if (n <? 500)%nat then
    selector_loop self X
      (fun x => permutation_test_dcor x y (agg x y) n
                  (n_permutations self) (random_state self))
      col_idx None np_inf
  else
    selector_loop self X
      (fun x => permutation_test_dcor_parallel x y (agg x y) n (n_jobs self)
                  (n_permutations self) (random_state self))
      col_idx None np_inf.

(** CITreeBase._selector_cor_hybrid *)
Definition _selector_cor_hybrid (self : CITree) (X : matrix) (y : list Z)
           (n : nat) (col_idx : list nat) : Result (option nat * pvalue) :=
  selector_loop self X
    (fun x =>
       let pearson := Qabs (pcor x y) in
       let distance := if (n <? 500)%nat then py_dcor x y n else c_dcor x y n in
       if Qle_bool distance pearson then
         permutation_test_pcor x y (agg x y)
           (n_permutations self) (random_state self)
       else if (n <? 500)%nat then
         permutation_test_dcor x y (agg x y) n
           (n_permutations self) (random_state self)
       else
         permutation_test_dcor_parallel x y (agg x y) n (n_jobs self)
           (n_permutations self) (random_state self))
    col_idx None np_inf.

(** CITreeBase._selector *)
Definition _selector (self : CITree) (X : matrix) (y : list Z) (n : nat)
           (col_idx : list nat) : Result (option nat * pvalue) :=
  if String.eqb (selector self) "pearson" then _selector_pcor self X y col_idx
  else if String.eqb (selector self) "distance"
       then _selector_dcor self X y n col_idx
       else _selector_cor_hybrid self X y n col_idx.

(** [a[i] += d] *)
Fixpoint iadd_at (i : nat) (d : Q) (a : list Q) : Result (list Q) :=
  match a, i with
  | [], _ => Err IndexError
  | x :: a', O => Ok ((x + d) :: a')
  | x :: a', S i' =>
      match iadd_at i' d a' with
      | Ok l => Ok (x :: l)
      | Err e => Err e
      end
  end.

(** The outcome of a split: impurity decrease, threshold, left and right
    data. *)
Record Split : Type := {
  split_impurity : Q;
  split_threshold : Q;
  split_left : matrix * list Z;
  split_right : matrix * list Z
}.

(** [np.where(X[:, col] <= threshold, 1, 0) == 1] *)
Definition left_mask (x : list Q) (threshold : Q) : list bool :=
  map (fun v => Qle_bool v threshold) x.

(** CITreeClassifier._splitter; the tree comes back with its updated
    [feature_importances_]. *)
Definition _splitter (self : CITree) (X : matrix) (y : list Z) (n : nat)
           (col : nat) : Result (CITree * Split) :=
  x <-- column X col ;;
  let threshold := stump_threshold x y (min_samples_split self) in
  let idx := left_mask x threshold in
  X_left <-- mask_select idx (rows X) ;;
  y_left <-- mask_select idx y ;;
  X_right <-- mask_select (map negb idx) (rows X) ;;
  y_right <-- mask_select (map negb idx) y ;;
  let n_left := length y_left in
  let n_right := length y_right in
  let node_impurity := gini_index y (labels_ self) in
  let left_impurity :=
    gini_index y_left (labels_ self) * (Qnat n_left / Qnat n) in
  let right_impurity :=
    gini_index y_right (labels_ self) * (Qnat n_right / Qnat n) in
  let impurity := node_impurity - (left_impurity + right_impurity) in
  fi <-- iadd_at col impurity (feature_importances_ self) ;;
  Ok (set_feature_importances_ self fi,
      {| split_impurity := impurity;
         split_threshold := threshold;
         split_left := (Matrix X_left (ncols X), y_left);
         split_right := (Matrix X_right (ncols X), y_right) |}).

(** CITreeClassifier._estimate_proba *)
Definition _estimate_proba (self : CITree) (y : list Z) : list Q :=
  map (fun label => mean_eq y label) (labels_ self).

(** [np.random.choice(np.arange(p), size=self.max_feats, replace=False)] *)
Definition draw_columns (self : CITree) (p : nat) : Task (list nat) :=
  match max_feats self with
  | Int size => np_random_choice (seq 0 p) size false None
  | Str _ => Raise TypeError
  end.

Open Scope task_scope.

(** CITreeBase._build_tree.  The tree object is threaded through the
    recursion because [splitter_counter_] and [feature_importances_] are
    updated in place.  [fuel] bounds the depth of the recursion. *)
Fixpoint _build_tree (fuel : nat) (self : CITree) (X : matrix) (y : list Z)
         (depth : nat) : Task (CITree * Node) :=
  match fuel with
  | O => Raise FuelExhausted
  | S fuel' =>
      let '(n, p) := shape X in
      let terminal (self : CITree) :=
        Return (self, Terminal (_estimate_proba self y)) in
      if (min_samples_split self <? Z.of_nat n)%Z
         && depth_below depth (max_depth self)
      then
        let self := set_splitter_counter_ self (splitter_counter_ self + 1) in
        _ <- np_random_seed (random_state self * splitter_counter_ self) ;;
        col_idx <- draw_columns self p ;;
        '(col, col_pval) <- lift (_selector self X y n col_idx) ;;
        match col_pval with
        | finite pv =>
            if Qlt_bool pv (alpha self) then
              match col with
              | Some col =>
                  '(self, s) <- lift (_splitter self X y n col) ;;
                  if (0 <? nrows (fst (split_left s)))%nat
                     && (0 <? nrows (fst (split_right s)))%nat
                  then
                    '(self, left_child) <-
                      _build_tree fuel' self (fst (split_left s))
                                  (snd (split_left s)) (S depth) ;;
                    '(self, right_child) <-
                      _build_tree fuel' self (fst (split_right s))
                                  (snd (split_right s)) (S depth) ;;
                    Return (self,
                            Internal col pv (split_threshold s)
                                     (split_impurity s)
                                     left_child right_child)
                  else terminal self
              | None => Raise TypeError
              end
            else terminal self
        | np_inf => terminal self
        end
      else terminal self
  end.

(** [int(np.sqrt(p))] *)
Definition int_sqrt (p : nat) : Z := Z.sqrt (Z.of_nat p).

(** The resolution of [max_feats] at the start of [fit]. *)
Definition resolve_max_feats (m : str_or_int) (p : nat) : Result Z :=
  (if str_or_int_eqb m (Str "sqrt") then Ok (int_sqrt p)
   else if str_or_int_eqb m (Str "log") then Ok (int_log (p + 1))
   else if py_in str_or_int_eqb m [Str "all"; Int (-1)] then Ok (Z.of_nat p)
   else match m with
        | Int z => Ok z
        | Str _ => Err ValueError   (* int() of a non-numeric string *)
        end)%result.

(** CITreeBase.fit.  The recursion is given one more unit of fuel than the
    data has rows. *)
Definition CITreeBase_fit (self : CITree) (X : matrix) (y : list Z)
  : Task CITree :=
  let p := ncols X in
  m <- lift (resolve_max_feats (max_feats self) p) ;;
  let self := set_max_feats self (Int m) in
  let self := set_feature_importances_ self (repeat 0 p) in
  '(self, node) <- _build_tree (S (nrows X)) self X y 0 ;;
  let self := set_root self (Some node) in
  let sum_fi := Qsum (feature_importances_ self) in
  Return (if Qlt_bool 0 sum_fi
          then set_feature_importances_ self
                 (map (fun v => v / sum_fi) (feature_importances_ self))
          else self).

(** CITreeClassifier.fit *)
Definition CITreeClassifier_fit (self : CITree) (X : matrix) (y : list Z)
           (labels : option (list Z)) : Task CITree :=
  let self := set_labels_ self
                (match labels with Some l => l | None => np_unique y end) in
  CITreeBase_fit self X y.

Close Scope task_scope.

(** CITreeBase.predict_label, from a given node on. *)
Fixpoint predict_label_from (tree : Node) (X : list Q) : Result (list Q) :=
  match tree with
  | Terminal value => Ok value
  | Internal col _ threshold _ left_child right_child =>
      match nth_error X col with
      | Some feature_value =>
          if Qle_bool feature_value threshold
          then predict_label_from left_child X
          else predict_label_from right_child X
      | None => Err IndexError
      end
  end.

(** CITreeBase.predict_label with [tree=None]. *)
Definition predict_label (self : CITree) (X : list Q) : Result (list Q) :=
  match root self with
  | Some tree => predict_label_from tree X
  | None => Err AttributeError
  end.

(** CITreeClassifier.predict_proba *)
Definition CITreeClassifier_predict_proba (self : CITree) (X : matrix)
  : Result (list (list Q)) :=
  rmap (predict_label self) (rows X).

(** [np.argmax(y_proba, axis=1)] for the array made from a list of rows: with
    no rows the array is one-dimensional and has no axis 1. *)
Definition argmax_axis1 (y_proba : list (list Q)) : Result (list nat) :=
  match y_proba with
  | [] => Err AxisError
  | _ => rmap argmax y_proba
  end.

(** CITreeClassifier.predict *)
Definition CITreeClassifier_predict (self : CITree) (X : matrix)
  : Result (list nat) :=
  y_proba <-- CITreeClassifier_predict_proba self X ;;
  argmax_axis1 y_proba.

End SingleModels.

(* ================================================================= *)
(** ** Ensemble models: bootstrap index samplers *)

Open Scope task_scope.

(** [bayes_boot_probs(n=n) if bayes else None] *)
Definition boot_probs (bayes : bool) (n : nat) : Task (option (list Q)) :=
  if bayes then Call (ev_bayes_boot_probs n) (fun w => Return (Some w))
  else Return None.

(** The loop of [stratify_sampled_idx] over [np.unique(y)]. *)
Fixpoint stratify_loop (y : list Z) (bayes : bool) (labels : list Z)
  : Task (list (list nat)) :=
  match labels with
  | [] => Return []
  | label :: rest =>
      let tmp := where_eq y label 0 in
      p <- boot_probs bayes (length tmp) ;;
      drawn <- np_random_choice tmp (Z.of_nat (length tmp)) true p ;;
      idx <- stratify_loop y bayes rest ;;
      Return (drawn :: idx)
  end.

(** stratify_sampled_idx *)
Definition stratify_sampled_idx (random_state : Z) (y : list Z) (bayes : bool)
  : Task (list (list nat)) :=
  _ <- np_random_seed random_state ;;
  stratify_loop y bayes (np_unique y).

(** The loop of [balanced_sampled_idx]. *)
Fixpoint balanced_loop (y : list Z) (bayes : bool) (n : Z) (labels : list Z)
  : Task (list (list nat)) :=
  match labels with
  | [] => Return []
  | label :: rest =>
      let tmp := where_eq y label 0 in
      p <- boot_probs bayes (length tmp) ;;
      drawn <- np_random_choice tmp n true p ;;
      idx <- balanced_loop y bayes n rest ;;
      Return (drawn :: idx)
  end.

(** balanced_sampled_idx, with [n = int(np.floor(min_class_p*len(y)))]. *)
Definition balanced_sampled_idx (random_state : Z) (y : list Z) (bayes : bool)
           (min_class_p : Q) : Task (list (list nat)) :=
  _ <- np_random_seed random_state ;;
  let n := Qfloor (min_class_p * Qnat (length y)) in
  balanced_loop y bayes n (np_unique y).

(** normal_sampled_idx *)
Definition normal_sampled_idx (random_state : Z) (n : nat) (bayes : bool)
  : Task (list nat) :=
  _ <- np_random_seed random_state ;;
  p <- boot_probs bayes n ;;
  np_random_choice (seq 0 n) (Z.of_nat n) true p.

(** Insertion into a strictly increasing list of indices. *)
Fixpoint insert_index (i : nat) (l : list nat) : list nat :=
  match l with
  | [] => [i]
  | x :: l' =>
      if (i <? x)%nat then i :: l
      else if (i =? x)%nat then l
      else x :: insert_index i l'
  end.

(** [np.unique(a)] for an index array. *)
Definition np_unique_idx (a : list nat) : list nat :=
  fold_right insert_index [] a.

(** [np.setdiff1d(ar1, ar2)]: the sorted distinct values of [ar1] that are
    not in [ar2]. *)
Definition np_setdiff1d (ar1 ar2 : list nat) : list nat :=
  filter (fun i => negb (existsb (Nat.eqb i) ar2)) (np_unique_idx ar1).

(** [np.bincount(x, minlength=minlength)]: how often each index occurs, for
    the indices below [max(minlength, max(x) + 1)]. *)
Definition np_bincount (x : list nat) (minlength : nat) : list nat :=
  let size := match x with
              | [] => minlength
              | _ => Nat.max minlength (S (list_max x))
              end in
  map (fun i => count_occ Nat.eq_dec x i) (seq 0 size).

(** The loop of [stratify_unsampled_idx] and [balanced_unsampled_idx] over
    [enumerate(np.unique(y))], from position [i] on. *)
Fixpoint unsampled_loop (y : list Z) (sampled : list (list nat)) (i : nat)
         (labels : list Z) : Result (list (list nat)) :=
  match labels with
  | [] => Ok []
  | label :: rest =>
      match nth_error sampled i with
      | None => Err IndexError
      | Some s =>
          match unsampled_loop y sampled (S i) rest with
          | Ok idx => Ok (np_setdiff1d (where_eq y label 0) s :: idx)
          | Err e => Err e
          end
      end
  end.

(** stratify_unsampled_idx *)
Definition stratify_unsampled_idx (random_state : Z) (y : list Z)
           (bayes : bool) : Task (list (list nat)) :=
  _ <- np_random_seed random_state ;;
  sampled <- stratify_sampled_idx random_state y bayes ;;
  lift (unsampled_loop y sampled 0 (np_unique y)).

(** balanced_unsampled_idx *)
Definition balanced_unsampled_idx (random_state : Z) (y : list Z)
           (bayes : bool) (min_class_p : Q) : Task (list (list nat)) :=
  _ <- np_random_seed random_state ;;
  sampled <- balanced_sampled_idx random_state y bayes min_class_p ;;
  lift (unsampled_loop y sampled 0 (np_unique y)).

(** normal_unsampled_idx: [np.arange(n)[counts == 0]] is a selection by a
    boolean mask, which must be as long as [np.arange(n)]. *)
Definition normal_unsampled_idx (random_state : Z) (n : nat) (bayes : bool)
  : Task (list nat) :=
  sampled <- normal_sampled_idx random_state n bayes ;;
  let counts := np_bincount sampled n in
  lift (mask_select (map (fun c => (c =? 0)%nat) counts) (seq 0 n)).

(** What [_parallel_fit_classifier] holds in [idx]: the list of per-class
    arrays of the stratified and balanced samplers, or the single array of
    the plain one. *)
Inductive sampled : Type :=
| per_class (l : list (list nat))
| one_array (a : list nat).

(** [np.concatenate(idx)].  Given one one-dimensional array, numpy iterates
    over its zero-dimensional items and refuses to concatenate them; given an
    empty list there is nothing to concatenate. *)
Definition np_concatenate (idx : sampled) : Result (list nat) :=
  match idx with
  | per_class [] => Err ValueError
  | per_class l => Ok (concat l)
  | one_array _ => Err ValueError
  end.

Section EnsembleModels.
Context {collab : Collaborators}.

(** _parallel_fit_classifier: the fitted tree is the result (Python fits
    the tree object in place). *)
Definition _parallel_fit_classifier (tree : CITree) (X : matrix) (y : list Z)
           (n : nat) (tree_idx : nat) (n_estimators : nat)
           (bootstrap bayes : bool) (verbose : Z) (random_state : Z)
           (class_weight : option string) (min_dist_p : Q) : Task CITree :=
  if bootstrap then
    let random_state := (random_state * (Z.of_nat tree_idx + 1))%Z in
    idx <- match class_weight with
           | Some "balanced"%string =>
               l <- balanced_sampled_idx random_state y bayes min_dist_p ;;
               Return (per_class l)
           | Some "stratify"%string =>
               l <- stratify_sampled_idx random_state y bayes ;;
               Return (per_class l)
           | _ =>
               a <- normal_sampled_idx random_state n bayes ;;
               Return (one_array a)
           end ;;
    idx <- lift (np_concatenate idx) ;;
    X_idx <- lift (take_idx idx (rows X)) ;;
    y_idx <- lift (take_idx idx y) ;;
    CITreeClassifier_fit tree (Matrix X_idx (ncols X)) y_idx
                         (Some (np_unique y))
  else CITreeClassifier_fit tree X y None.

Close Scope task_scope.
Open Scope result_scope.

(** A float array of one or of two dimensions. *)
Inductive ndarray : Type :=
| array1 (v : list Q)
| array2 (m : list (list Q)).

(** Elementwise sum of two rows of equal length. *)
Fixpoint add_rows (a b : list Q) : list Q :=
  match a, b with
  | x :: a', y :: b' => (x + y) :: add_rows a' b'
  | _, _ => []
  end.

(** [row += operand] for a one-dimensional [row].  The result of the
    addition must have the shape of [row]: an operand of the same length is
    added elementwise, a one-element operand is added to every entry, and a
    two-dimensional operand, whose sum with [row] is two-dimensional, is a
    [ValueError]. *)
Definition iadd_row (row : list Q) (operand : ndarray) : Result (list Q) :=
  match operand with
  | array1 v =>
      if (length v =? length row)%nat then Ok (add_rows row v)
      else match v with
           | [c] => Ok (map (fun x => x + c) row)
           | _ => Err ValueError
           end
  | array2 _ => Err ValueError
  end.

(** The loop [for i in range(len(out)): out[i] += prediction[i]], from row
    [i] on. *)
Fixpoint accumulate_rows (out : list (list Q)) (prediction : list (list Q))
         (i : nat) : Result (list (list Q)) :=
  match out with
  | [] => Ok []
  | row :: out' =>
      match nth_error prediction i with
      | None => Err IndexError
      | Some p =>
          row' <-- iadd_row row (array1 p) ;;
          rest <-- accumulate_rows out' prediction (S i) ;;
          Ok (row' :: rest)
      end
  end.

(** _accumulate_prediction, with the prediction method already applied to
    [X]; the updated [out] is the result. *)
Definition _accumulate_prediction (prediction : Result (list (list Q)))
           (out : list (list Q)) : Result (list (list Q)) :=
  prediction <-- prediction ;;
  match out with
  | [row] =>
      row' <-- iadd_row row (array2 prediction) ;;
      Ok [row']
  | _ => accumulate_rows out prediction 0
  end.

(** The entries of [self.params]; there is no other key. *)
Record Params : Type := {
  param_alpha : Q;
  param_min_samples_split : Z;
  param_n_permutations : Z;
  param_selector : string;
  param_max_feats : str_or_int;
  param_early_stopping : bool;
  param_verbose : Z;
  param_n_jobs : Z;
  param_random_state : option Z
}.

(** The keyword arguments of the call [self.Tree] makes with [self.params]
    unpacked: an argument that is no key of [params] keeps the default of
    the constructor. *)
Definition kwargs (params : Params) : TreeArgs := {|
  arg_min_samples_split := param_min_samples_split params;
  arg_alpha := param_alpha params;
  arg_max_depth := arg_max_depth default_tree_args;
  arg_max_feats := param_max_feats params;
  arg_n_permutations := param_n_permutations params;
  arg_selector := param_selector params;
  arg_early_stopping := param_early_stopping params;
  arg_verbose := param_verbose params;
  arg_n_jobs := param_n_jobs params;
  arg_random_state := param_random_state params
|}.

(** The attributes of a CIForestClassifier instance; [max_depth] is [-1] or
    the clamped integer, as the constructor stores it. *)
Record CIForest : Type := {
  forest_alpha : Q;
  forest_min_samples_split : Z;
  forest_n_permutations : Z;
  forest_max_depth : Z;
  forest_n_estimators : Z;
  forest_selector : string;
  forest_max_feats : str_or_int;
  forest_bootstrap : bool;
  forest_early_stopping : bool;
  forest_n_jobs : Z;
  forest_verbose : Z;
  forest_class_weight : option string;
  forest_bayes : bool;
  forest_random_state : Z;
  forest_params : Params;
  estimators_ : list CITree;
  class_dist_p : list Q;
  forest_labels_ : list Z;
  forest_n_classes_ : nat;
  forest_feature_importances_ : list Q
}.

(** The keyword arguments of [CIForestClassifier.__init__]. *)
Record ForestArgs : Type := {
  farg_min_samples_split : Z;
  farg_alpha : Q;
  farg_max_depth : Z;
  farg_n_estimators : Z;
  farg_max_feats : str_or_int;
  farg_n_permutations : Z;
  farg_selector : string;
  farg_early_stopping : bool;
  farg_verbose : Z;
  farg_bootstrap : bool;
  farg_bayes : bool;
  farg_class_weight : option string;
  farg_n_jobs : Z;
  farg_random_state : option Z
}.

(** The defaults of [CIForestClassifier.__init__]. *)
Definition default_forest_args : ForestArgs := {|
  farg_min_samples_split := 2;
  farg_alpha := 5 # 100;
  farg_max_depth := -1;
  farg_n_estimators := 100;
  farg_max_feats := Str "sqrt";
  farg_n_permutations := 200;
  farg_selector := "pearson";
  farg_early_stopping := false;
  farg_verbose := 0;
  farg_bootstrap := true;
  farg_bayes := true;
  farg_class_weight := Some "balanced"%string;
  farg_n_jobs := -1;
  farg_random_state := None
|}.

Definition option_string_eqb (a b : option string) : bool :=
  match a, b with
  | None, None => true
  | Some s, Some s' => String.eqb s s'
  | _, _ => false
  end.

Definition valid_class_weights : list (option string) :=
  [None; Some "balanced"%string; Some "stratify"%string].

(** CIForestBase.__init__ (CIForestClassifier.__init__ passes its arguments
    on unchanged). *)
Definition CIForestClassifier_init (a : ForestArgs) : Task CIForest :=
  if Qle_bool (farg_alpha a) 0 || Qlt_bool 1 (farg_alpha a)
  then Raise ValueError
  else if (farg_n_permutations a <? 0)%Z
  then Raise ValueError
  else if negb (py_in String.eqb (farg_selector a) valid_selectors)
  then Raise ValueError
  else if negb (py_in str_or_int_eqb (farg_max_feats a) valid_max_feats)
  then Raise ValueError
  else if (farg_n_estimators a <? 0)%Z
  then Raise ValueError
  else if negb (py_in option_string_eqb (farg_class_weight a)
                      valid_class_weights)
  then Raise ValueError
  else
    (rs <- match farg_random_state a with
           | None => Call (ev_randint 1 9999) (fun z => Return z)
           | Some s => Return s
           end ;;
     Return {|
       forest_alpha := farg_alpha a;
       forest_min_samples_split := Z.max 1 (farg_min_samples_split a);
       forest_n_permutations := farg_n_permutations a;
       forest_max_depth := if (farg_max_depth a =? -1)%Z then farg_max_depth a
                           else Z.max 1 (farg_max_depth a);
       forest_n_estimators := Z.max 1 (farg_n_estimators a);
       forest_selector := farg_selector a;
       forest_max_feats := farg_max_feats a;
       forest_bootstrap := farg_bootstrap a;
       forest_early_stopping := farg_early_stopping a;
       forest_n_jobs := farg_n_jobs a;
       forest_verbose := farg_verbose a;
       forest_class_weight := farg_class_weight a;
       forest_bayes := farg_bayes a;
       forest_random_state := rs;
       forest_params := {|
         param_alpha := farg_alpha a;
         param_min_samples_split := Z.max 1 (farg_min_samples_split a);
         param_n_permutations := farg_n_permutations a;
         param_selector := farg_selector a;
         param_max_feats := farg_max_feats a;
         param_early_stopping := farg_early_stopping a;
         param_verbose := 0;
         param_n_jobs := 1;
         param_random_state := None
       |};
       estimators_ := [];
       class_dist_p := [];
       forest_labels_ := [];
       forest_n_classes_ := 0;
       forest_feature_importances_ := []
     |})%task.

(** [params['random_state'] = seed] *)
Definition set_param_random_state (params : Params) (seed : Z) : Params := {|
  param_alpha := param_alpha params;
  param_min_samples_split := param_min_samples_split params;
  param_n_permutations := param_n_permutations params;
  param_selector := param_selector params;
  param_max_feats := param_max_feats params;
  param_early_stopping := param_early_stopping params;
  param_verbose := param_verbose params;
  param_n_jobs := param_n_jobs params;
  param_random_state := Some seed
|}.

(** The loop of [CIForestBase.fit] that instantiates the base tree models:
    [count] more trees, the next one of index [i]. *)
Fixpoint instantiate (params : Params) (random_state : Z) (i count : nat)
  : Task (Params * list CITree) :=
  match count with
  | O => Return (params, [])
  | S count' =>
      (let params :=
         set_param_random_state params (random_state * (Z.of_nat i + 1)) in
       tree <- CITreeClassifier_init (kwargs params) ;;
       '(params', trees) <- instantiate params random_state (S i) count' ;;
       Return (params', tree :: trees))%task
  end.

(** [np.min] of a one-dimensional array. *)
Definition np_min (l : list Q) : Result Q :=
  match l with
  | [] => Err ValueError
  | x :: l' =>
      Ok (fold_left (fun m v => if Qlt_bool v m then v else m) l' x)
  end.

(** [np.sum(arrays, axis=0)] for arrays of length [p]. *)
Definition sum_axis0 (p : nat) (arrays : list (list Q)) : list Q :=
  fold_right add_rows (repeat 0 p) arrays.

(** The tasks [CIForestBase.fit] hands to the thread pool, one for each
    estimator from index [i] on. *)
Fixpoint fit_tasks (self : CIForest) (X : matrix) (y : list Z) (min_p : Q)
         (i : nat) (trees : list CITree) : list (Task CITree) :=
  match trees with
  | [] => []
  | tree :: trees' =>
      _parallel_fit_classifier tree X y (nrows X) i
        (Z.to_nat (forest_n_estimators self))
        (forest_bootstrap self) (forest_bayes self) (forest_verbose self)
        (forest_random_state self) (forest_class_weight self) min_p
      :: fit_tasks self X y min_p (S i) trees'
  end.

(** The forest after the trees were instantiated and the class distribution
    was computed. *)
Definition with_estimators (self : CIForest) (params : Params)
           (trees : list CITree) (labels : list Z) (dist : list Q)
           (fi : list Q) : CIForest := {|
  forest_alpha := forest_alpha self;
  forest_min_samples_split := forest_min_samples_split self;
  forest_n_permutations := forest_n_permutations self;
  forest_max_depth := forest_max_depth self;
  forest_n_estimators := forest_n_estimators self;
  forest_selector := forest_selector self;
  forest_max_feats := forest_max_feats self;
  forest_bootstrap := forest_bootstrap self;
  forest_early_stopping := forest_early_stopping self;
  forest_n_jobs := forest_n_jobs self;
  forest_verbose := forest_verbose self;
  forest_class_weight := forest_class_weight self;
  forest_bayes := forest_bayes self;
  forest_random_state := forest_random_state self;
  forest_params := params;
  estimators_ := trees;
  class_dist_p := dist;
  forest_labels_ := labels;
  forest_n_classes_ := length labels;
  forest_feature_importances_ := fi
|}.

(** CIForestClassifier.fit followed by CIForestBase.fit, on a generator [G]
    in state [g]; [sched] is the schedule of the thread pool that fits the
    trees. *)
Definition CIForestClassifier_fit (G : Generator) (sched : list nat)
           (self : CIForest) (X : matrix) (y : list Z) (g : gen_state G)
  : Result CIForest * gen_state G :=
  let labels := np_unique y in
  match run G (instantiate (forest_params self) (forest_random_state self)
                 0 (Z.to_nat (forest_n_estimators self))) g with
  | (Err e, g1) => (Err e, g1)
  | (Ok (params, trees), g1) =>
      let dist := map (fun label => mean_eq y label) (np_unique y) in
      match np_min dist with
      | Err e => (Err e, g1)
      | Ok min_p =>
          match Parallel G sched (fit_tasks self X y min_p 0 trees) g1 with
          | (Err e, g2) => (Err e, g2)
          | (Ok fitted, g2) =>
              let fi := sum_axis0 (ncols X)
                          (map feature_importances_ fitted) in
              let sum_fi := Qsum fi in
              let fi := if Qlt_bool 0 sum_fi
                        then map (fun v => v / sum_fi) fi else fi in
              (Ok (with_estimators self params fitted labels dist fi), g2)
          end
      end
  end.

(** The parallel prediction of [CIForestClassifier.predict_proba]: every
    estimator adds its prediction to [all_proba]; the lock makes the
    additions happen one after the other. *)
Fixpoint accumulate_all (estimators : list CITree) (X : matrix)
         (all_proba : list (list Q)) : Result (list (list Q)) :=
  match estimators with
  | [] => Ok all_proba
  | e :: rest =>
      out <-- _accumulate_prediction (CITreeClassifier_predict_proba e X)
                                     all_proba ;;
      accumulate_all rest X out
  end.

(** CIForestClassifier.predict_proba *)
Definition CIForestClassifier_predict_proba (self : CIForest) (X : matrix)
  : Result ndarray :=
  let all_proba := repeat (repeat 0 (forest_n_classes_ self)) (nrows X) in
  all_proba <-- accumulate_all (estimators_ self) X all_proba ;;
  let all_proba :=
    map (fun proba => map (fun v => v / Qnat (length (estimators_ self)))
                          proba) all_proba in
  match all_proba with
  | [proba] => Ok (array1 proba)
  | _ => Ok (array2 all_proba)
  end.



Close Scope result_scope.

End EnsembleModels.

(* ================================================================= *)
(** ** A test double

    A small deterministic generator and simple collaborators, used to run
    the model on concrete data. *)

Module Double.

(** The state is the current seed; a draw advances it by one. *)
Definition rotate (k : nat) (a : list nat) : list nat :=
  skipn (k mod length a) a ++ firstn (k mod length a) a.

Definition draw (g : Z) (a : list nat) (size : nat) (replace : bool)
  : list nat :=
  if replace then
    map (fun j => nth ((Z.to_nat g + j) mod length a) a 0%nat) (seq 0 size)
  else firstn size (rotate (Z.to_nat g) a).

Definition step (ev : np_event) (g : Z) : reply ev * Z :=
  match ev with
  | ev_seed s => (tt, s)
  | ev_choice a size replace _ => (draw g a size replace, (g + 1)%Z)
  | ev_bayes_boot_probs n => (repeat (1 / Qnat n) n, g)
  | ev_randint lo _ => (lo, g)
  end.

Definition generator : Generator := {| gen_state := Z; gen_step := step |}.

(** [min(x)], [max(x)] and their midpoint, standing for the threshold of the
    depth-one tree. *)
Definition Qmin_list (x : list Q) : Q :=
  match x with
  | [] => 0
  | v :: x' => fold_left (fun m w => if Qlt_bool w m then w else m) x' v
  end.

Definition Qmax_list (x : list Q) : Q :=
  match x with
  | [] => 0
  | v :: x' => fold_left (fun m w => if Qlt_bool m w then w else m) x' v
  end.

Definition midpoint (x : list Q) : Q := Qred ((Qmin_list x + Qmax_list x) / 2).

(** Every permutation test reports the p-value [1/100] for a column that is
    not constant and [1] for a constant one. *)
Definition pval (x : list Q) : Q :=
  if Qlt_bool (Qmin_list x) (Qmax_list x) then 1 # 100 else 1.

#[global] Instance collaborators : Collaborators := {|
  permutation_test_pcor := fun x _ _ _ _ => pval x;
  permutation_test_dcor := fun x _ _ _ _ _ => pval x;
  permutation_test_dcor_parallel := fun x _ _ _ _ _ _ => pval x;
  pcor := fun _ _ => 0;
  py_dcor := fun _ _ _ => 0;
  c_dcor := fun _ _ _ => 0;
  stump_threshold := fun x _ _ => midpoint x;
  int_log := fun k => Z.log2 (Z.of_nat k)
|}.

Definition X4 : matrix := Matrix [[1]; [2]; [3]; [4]] 1.
Definition y4 : list Z := [0; 0; 1; 1]%Z.

(** [CITreeClassifier(min_samples_split=1, max_feats='all', random_state=1)] *)
Definition tree_args : TreeArgs := {|
  arg_min_samples_split := 1;
  arg_alpha := 5 # 100;
  arg_max_depth := -1;
  arg_max_feats := Str "all";
  arg_n_permutations := 100;
  arg_selector := "pearson";
  arg_early_stopping := false;
  arg_verbose := 0;
  arg_n_jobs := -1;
  arg_random_state := Some 1%Z
|}.

Definition tree : CITree := {|
  alpha := 5 # 100;
  min_samples_split := 1;
  n_permutations := 100;
  selector := "pearson";
  max_feats := Str "all";
  early_stopping := false;
  verbose := 0;
  n_jobs := -1;
  root := None;
  splitter_counter_ := 0;
  max_depth := unbounded;
  random_state := 1;
  labels_ := [];
  n_classes_ := 0;
  feature_importances_ := []
|}.

(** The tree object after [tree.fit(X4, y4)], from [default] when it
    fails. *)
Definition fit_result (self : CITree) (X : matrix) (y : list Z)
           (labels : option (list Z)) (g : Z) (default : CITree) : CITree :=
  match fst (run generator (CITreeClassifier_fit self X y labels) g) with
  | Ok t => t
  | Err _ => default
  end.

Definition fitted : CITree :=
  Eval vm_compute in fit_result tree X4 y4 None 0%Z tree.

(** The same constructor call with an explicit integer for [max_feats]. *)
Definition tree_args_int : TreeArgs := {|
  arg_min_samples_split := 1;
  arg_alpha := 5 # 100;
  arg_max_depth := -1;
  arg_max_feats := Int 3;
  arg_n_permutations := 100;
  arg_selector := "pearson";
  arg_early_stopping := false;
  arg_verbose := 0;
  arg_n_jobs := -1;
  arg_random_state := Some 1%Z
|}.

(** Two columns, and a tree that draws one of them at each split:
    [CITreeClassifier(max_feats='sqrt', random_state=1)]. *)
Definition X42 : matrix := Matrix [[1; 4]; [2; 3]; [3; 2]; [4; 1]] 2.


(** Two samples of the classes 5 and 7. *)
Definition X2 : matrix := Matrix [[0]; [1]] 1.
Definition y57 : list Z := [5; 7]%Z.

(** [CIForestClassifier(min_samples_split=1, max_depth=1, n_estimators=n,
    max_feats='all', bootstrap=False, random_state=1)] *)
Definition forest_args (n : Z) : ForestArgs := {|
  farg_min_samples_split := 1;
  farg_alpha := 5 # 100;
  farg_max_depth := 1;
  farg_n_estimators := n;
  farg_max_feats := Str "all";
  farg_n_permutations := 200;
  farg_selector := "pearson";
  farg_early_stopping := false;
  farg_verbose := 0;
  farg_bootstrap := false;
  farg_bayes := true;
  farg_class_weight := Some "balanced"%string;
  farg_n_jobs := -1;
  farg_random_state := Some 1%Z
|}.


Definition tree_all : CITree := {|
  alpha := 5 # 100;
  min_samples_split := 2;
  n_permutations := 100;
  selector := "pearson";
  max_feats := Str "all";
  early_stopping := false;
  verbose := 0;
  n_jobs := -1;
  root := None;
  splitter_counter_ := 0;
  max_depth := unbounded;
  random_state := 1;
  labels_ := [];
  n_classes_ := 0;
  feature_importances_ := []
|}.

(** [CIForestClassifier(n_estimators=2, max_feats='sqrt', bootstrap=False,
    random_state=2)]: the trees are seeded with 2 and 4. *)
Definition forest_args_sqrt : ForestArgs := {|
  farg_min_samples_split := 2;
  farg_alpha := 5 # 100;
  farg_max_depth := -1;
  farg_n_estimators := 2;
  farg_max_feats := Str "sqrt";
  farg_n_permutations := 200;
  farg_selector := "pearson";
  farg_early_stopping := false;
  farg_verbose := 0;
  farg_bootstrap := false;
  farg_bayes := true;
  farg_class_weight := Some "balanced"%string;
  farg_n_jobs := -1;
  farg_random_state := Some 2%Z
|}.

(** Two test samples. *)
Definition X_test : matrix := Matrix [[1; 1]; [4; 4]] 2.

(** A second generator: a sample with replacement takes every other item,
    so some items are left out. *)
Definition draw_stride (g : Z) (a : list nat) (size : nat) (replace : bool)
  : list nat :=
  if replace then
    map (fun j => nth ((Z.to_nat g + 2 * j) mod length a) a 0%nat)
        (seq 0 size)
  else firstn size (Double.rotate (Z.to_nat g) a).

Definition step_stride (ev : np_event) (g : Z) : reply ev * Z :=
  match ev with
  | ev_seed s => (tt, s)
  | ev_choice a size replace _ => (draw_stride g a size replace, (g + 1)%Z)
  | ev_bayes_boot_probs n => (repeat (1 / Qnat n) n, g)
  | ev_randint lo _ => (lo, g)
  end.

Definition stride : Generator := {| gen_state := Z; gen_step := step_stride |}.

(** A constant column beside an informative one, and a tree with early
    stopping. *)
Definition X_const : matrix := Matrix [[1; 4]; [1; 3]; [1; 2]; [1; 1]] 2.

Definition tree_early : CITree := {|
  alpha := 5 # 100;
  min_samples_split := 2;
  n_permutations := 100;
  selector := "pearson";
  max_feats := Str "all";
  early_stopping := true;
  verbose := 0;
  n_jobs := -1;
  root := None;
  splitter_counter_ := 0;
  max_depth := unbounded;
  random_state := 1;
  labels_ := [];
  n_classes_ := 0;
  feature_importances_ := []
|}.

(** A tree as [fit] leaves it before the recursion on [(X4, y4)]. *)
Definition tree_ready : CITree := {|
  alpha := 5 # 100;
  min_samples_split := 1;
  n_permutations := 100;
  selector := "pearson";
  max_feats := Int 1;
  early_stopping := false;
  verbose := 0;
  n_jobs := -1;
  root := None;
  splitter_counter_ := 0;
  max_depth := unbounded;
  random_state := 1;
  labels_ := [0; 1]%Z;
  n_classes_ := 2;
  feature_importances_ := [0]
|}.

(** [CIForestClassifier(n_estimators=2, class_weight=None, random_state=1)]:
    the plain bootstrap. *)
Definition forest_args_plain : ForestArgs := {|
  farg_min_samples_split := 2;
  farg_alpha := 5 # 100;
  farg_max_depth := -1;
  farg_n_estimators := 2;
  farg_max_feats := Str "sqrt";
  farg_n_permutations := 200;
  farg_selector := "pearson";
  farg_early_stopping := false;
  farg_verbose := 0;
  farg_bootstrap := true;
  farg_bayes := true;
  farg_class_weight := None;
  farg_n_jobs := -1;
  farg_random_state := Some 1%Z
|}.

(** [CITreeClassifier(random_state=-1)] *)
Definition tree_args_negative_seed : TreeArgs := {|
  arg_min_samples_split := 2;
  arg_alpha := 5 # 100;
  arg_max_depth := -1;
  arg_max_feats := Int (-1);
  arg_n_permutations := 100;
  arg_selector := "pearson";
  arg_early_stopping := false;
  arg_verbose := 0;
  arg_n_jobs := -1;
  arg_random_state := Some (-1)%Z
|}.

End Double.

(* ================================================================= *)
(** ** Specifications *)

(** [ensures V P t]: whatever the generator answers, within what [V] allows,
    the outcome of [t] satisfies [P]. *)
Fixpoint ensures {A} (V : forall ev, reply ev -> Prop)
         (P : Result A -> Prop) (t : Task A) : Prop :=
  match t with
  | Return a => P (Ok a)
  | Raise e => P (Err e)
  | Call ev k => forall r, V ev r -> ensures V P (k r)
  end.

(** No assumption on the replies. *)
Definition any_reply : forall ev, reply ev -> Prop := fun _ _ => True.

Section TreeSpecifications.
Context {collab : Collaborators}.

(** [builds self X y depth self' node]: a call of [_build_tree] on the
    tree object [self] with data [(X, y)] at [depth] can return [node] and
    leave the object as [self'], for some answers of the generator. *)
Inductive builds : CITree -> matrix -> list Z -> nat -> CITree -> Node -> Prop :=
| builds_stop self X y depth :
    (min_samples_split self <? Z.of_nat (nrows X))%Z
      && depth_below depth (max_depth self) = false ->
    builds self X y depth self (Terminal (_estimate_proba self y))
| builds_not_significant self X y depth col_idx col col_pval :
    (min_samples_split self <? Z.of_nat (nrows X))%Z
      && depth_below depth (max_depth self) = true ->
    let self1 := set_splitter_counter_ self (splitter_counter_ self + 1) in
    _selector self1 X y (nrows X) col_idx = Ok (col, col_pval) ->
    pvalue_lt col_pval (alpha self1) = false ->
    builds self X y depth self1 (Terminal (_estimate_proba self1 y))
| builds_no_split self X y depth col_idx col pv self2 s :
    (min_samples_split self <? Z.of_nat (nrows X))%Z
      && depth_below depth (max_depth self) = true ->
    let self1 := set_splitter_counter_ self (splitter_counter_ self + 1) in
    _selector self1 X y (nrows X) col_idx = Ok (Some col, finite pv) ->
    Qlt_bool pv (alpha self1) = true ->
    _splitter self1 X y (nrows X) col = Ok (self2, s) ->
    (0 <? nrows (fst (split_left s)))%nat
      && (0 <? nrows (fst (split_right s)))%nat = false ->
    builds self X y depth self2 (Terminal (_estimate_proba self2 y))
| builds_split self X y depth col_idx col pv self2 s self3 self4
               left_child right_child :
    (min_samples_split self <? Z.of_nat (nrows X))%Z
      && depth_below depth (max_depth self) = true ->
    let self1 := set_splitter_counter_ self (splitter_counter_ self + 1) in
    _selector self1 X y (nrows X) col_idx = Ok (Some col, finite pv) ->
    Qlt_bool pv (alpha self1) = true ->
    _splitter self1 X y (nrows X) col = Ok (self2, s) ->
    (0 <? nrows (fst (split_left s)))%nat
      && (0 <? nrows (fst (split_right s)))%nat = true ->
    builds self2 (fst (split_left s)) (snd (split_left s)) (S depth)
           self3 left_child ->
    builds self3 (fst (split_right s)) (snd (split_right s)) (S depth)
           self4 right_child ->
    builds self X y depth self4
           (Internal col pv (split_threshold s) (split_impurity s)
                     left_child right_child).

(** What a successful call of [_splitter] has computed: [x] is the column
    and [fi] the updated importances. *)
Inductive split_facts (self : CITree) (X : matrix) (y : list Z) (n col : nat)
          (self2 : CITree) (s : Split) : Prop :=
| split_facts_intro (x : list Q) (fi : list Q) :
    column X col = Ok x ->
    split_threshold s = stump_threshold x y (min_samples_split self) ->
    mask_select (left_mask x (split_threshold s)) (rows X)
    = Ok (rows (fst (split_left s))) ->
    mask_select (left_mask x (split_threshold s)) y
    = Ok (snd (split_left s)) ->
    mask_select (map negb (left_mask x (split_threshold s))) (rows X)
    = Ok (rows (fst (split_right s))) ->
    mask_select (map negb (left_mask x (split_threshold s))) y
    = Ok (snd (split_right s)) ->
    ncols (fst (split_left s)) = ncols X ->
    ncols (fst (split_right s)) = ncols X ->
    split_impurity s =
    gini_index y (labels_ self)
    - (gini_index (snd (split_left s)) (labels_ self)
       * (Qnat (length (snd (split_left s))) / Qnat n)
       + gini_index (snd (split_right s)) (labels_ self)
         * (Qnat (length (snd (split_right s))) / Qnat n)) ->
    iadd_at col (split_impurity s) (feature_importances_ self) = Ok fi ->
    self2 = set_feature_importances_ self fi ->
    split_facts self X y n col self2 s.

(** The tree object when [fit] starts the recursion, [m] being the resolved
    [max_feats], and when it returns. *)
Definition fit_start (self : CITree) (X : matrix) (y : list Z)
           (labels : option (list Z)) (m : Z) : CITree :=
  set_feature_importances_
    (set_max_feats
       (set_labels_ self
          (match labels with Some l => l | None => np_unique y end))
       (Int m))
    (repeat 0 (ncols X)).

Definition fit_finish (self : CITree) (node : Node) : CITree :=
  let self := set_root self (Some node) in
  let sum_fi := Qsum (feature_importances_ self) in
  if Qlt_bool 0 sum_fi
  then set_feature_importances_ self
         (map (fun v => v / sum_fi) (feature_importances_ self))
  else self.

(** [fits self X y labels self']: [CITreeClassifier.fit] can leave the
    object as [self']. *)
Inductive fits (self : CITree) (X : matrix) (y : list Z)
          (labels : option (list Z)) (self' : CITree) : Prop :=
| fits_intro (m : Z) (self2 : CITree) (node : Node) :
    resolve_max_feats (max_feats self) (ncols X) = Ok m ->
    builds (fit_start self X y labels m) X y 0 self2 node ->
    self' = fit_finish self2 node ->
    fits self X y labels self'.

(** The attributes that neither the recursion nor the bookkeeping of [fit]
    changes. *)
Definition same_hyperparameters (a b : CITree) : Prop :=
  alpha a = alpha b
  /\ min_samples_split a = min_samples_split b
  /\ n_permutations a = n_permutations b
  /\ selector a = selector b
  /\ max_feats a = max_feats b
  /\ early_stopping a = early_stopping b
  /\ n_jobs a = n_jobs b
  /\ max_depth a = max_depth b
  /\ random_state a = random_state b
  /\ labels_ a = labels_ b.

(** [depth <= self.max_depth] *)
Definition depth_within (depth : nat) (m : depth_limit) : Prop :=
  match m with
  | unbounded => True
  | at_most d => (depth <= d)%nat
  end.

(** [grown self X y depth node]: [node] is a tree over the data [(X, y)]
    rooted at [depth] in which every terminal node lies within
    [self.max_depth], and every decision node
    - carries the column and the p-value the selector returned for the data
      of the node, for some drawn columns, and that p-value is below
      [self.alpha];
    - was made of more than [self.min_samples_split] samples, at a depth
      below [self.max_depth];
    - sends at least one sample to each side, the children being grown from
      the two sides. *)
Fixpoint grown (self : CITree) (X : matrix) (y : list Z) (depth : nat)
         (node : Node) : Prop :=
  match node with
  | Terminal _ => depth_within depth (max_depth self)
  | Internal col col_pval threshold _ left_child right_child =>
      (exists col_idx,
          _selector self X y (nrows X) col_idx = Ok (Some col, finite col_pval))
      /\ col_pval < alpha self
      /\ (min_samples_split self < Z.of_nat (nrows X))%Z
      /\ depth_below depth (max_depth self) = true
      /\ exists x X_left y_left X_right y_right,
          column X col = Ok x
          /\ mask_select (left_mask x threshold) (rows X) = Ok X_left
          /\ mask_select (left_mask x threshold) y = Ok y_left
          /\ mask_select (map negb (left_mask x threshold)) (rows X)
             = Ok X_right
          /\ mask_select (map negb (left_mask x threshold)) y = Ok y_right
          /\ X_left <> [] /\ X_right <> []
          /\ grown self (Matrix X_left (ncols X)) y_left (S depth) left_child
          /\ grown self (Matrix X_right (ncols X)) y_right (S depth)
                   right_child
  end.




(** The depth of the deepest terminal node. *)
Fixpoint height (node : Node) : nat :=
  match node with
  | Terminal _ => 0
  | Internal _ _ _ _ left_child right_child =>
      S (Nat.max (height left_child) (height right_child))
  end.


(** A task that writes the seed before it reads the generator, if it uses
    the generator at all. *)
Definition seeded {A} (t : Task A) : Prop :=
  match t with
  | Call ev _ => exists s, ev = ev_seed s
  | _ => True
  end.

(** A task that does not use the generator. *)
Definition pure {A} (t : Task A) : Prop :=
  match t with
  | Call _ _ => False
  | _ => True
  end.




(** The impurity decreases recorded in the decision nodes, added up. *)
Fixpoint total_decrease (node : Node) : Q :=
  match node with
  | Terminal _ => 0
  | Internal _ _ _ impurity left_child right_child =>
      impurity + total_decrease left_child + total_decrease right_child
  end.

(** Construction followed by [fit], for a tree and for a forest. *)
Definition tree_construct_and_fit (a : TreeArgs) (X : matrix) (y : list Z)
           (labels : option (list Z)) : Task CITree :=
  bind (CITreeClassifier_init a) (fun t => CITreeClassifier_fit t X y labels).

Definition forest_construct_and_fit (G : Generator) (sched : list nat)
           (a : ForestArgs) (X : matrix) (y : list Z) (g : gen_state G)
  : Result CIForest * gen_state G :=
  match run G (CIForestClassifier_init a) g with
  | (Ok F, g1) => CIForestClassifier_fit G sched F X y g1
  | (Err e, g1) => (Err e, g1)
  end.

(** A sample of one class: as many indices as asked for, each the position of
    a sample of the class. *)
Definition class_sample (y : list Z) (size : Z -> nat) (label : Z)
           (s : list nat) : Prop :=
  length s = size label /\ Forall (fun j => nth_error y j = Some label) s.

(** The indices the per-class functions leave out, against the sample
    [sampled]: for each class, in increasing order, the positions of the
    class that were not drawn. *)
Definition complements (y : list Z) (sampled idx : list (list nat)) : Prop :=
  length idx = length (np_unique y)
  /\ forall k label,
      nth_error (np_unique y) k = Some label ->
      exists o s,
        nth_error idx k = Some o /\ nth_error sampled k = Some s
        /\ StronglySorted lt o
        /\ forall j, In j o <-> nth_error y j = Some label /\ ~ In j s.

(** The p-value [_selector] computes for a column [x]: the permutation test
    of the configured selector. *)
Definition selector_test (self : CITree) (y : list Z) (n : nat) (x : list Q)
  : Q :=
  if String.eqb (selector self) "pearson" then
    permutation_test_pcor x y (agg x y) (n_permutations self)
                          (random_state self)
  else if String.eqb (selector self) "distance" then
    if (n <? 500)%nat then
      permutation_test_dcor x y (agg x y) n (n_permutations self)
                            (random_state self)
    else
      permutation_test_dcor_parallel x y (agg x y) n (n_jobs self)
                                     (n_permutations self) (random_state self)
  else
    let pearson := Qabs (pcor x y) in
    let distance := if (n <? 500)%nat then py_dcor x y n else c_dcor x y n in
    if Qle_bool distance pearson then
      permutation_test_pcor x y (agg x y) (n_permutations self)
                            (random_state self)
    else if (n <? 500)%nat then
      permutation_test_dcor x y (agg x y) n (n_permutations self)
                            (random_state self)
    else
      permutation_test_dcor_parallel x y (agg x y) n (n_jobs self)
                                     (n_permutations self) (random_state self).

(** The p-value of column [col] of [X]. *)
Definition column_pval (self : CITree) (X : matrix) (y : list Z) (n : nat)
           (col : nat) : Q :=
  selector_test self y n (map (fun r => nth col r 0) (rows X)).

(** Position [k] of [col_idx] holds the first column with the least
    p-value. *)
Definition first_least (self : CITree) (X : matrix) (y : list Z) (n : nat)
           (col_idx : list nat) (k col : nat) : Prop :=
  nth_error col_idx k = Some col
  /\ (forall j c, nth_error col_idx j = Some c ->
                  column_pval self X y n col <= column_pval self X y n c)
  /\ (forall j c, nth_error col_idx j = Some c -> (j < k)%nat ->
                  column_pval self X y n col < column_pval self X y n c).

(** Position [k] of [col_idx] holds the first column with a p-value below
    [alpha]. *)
Definition first_significant (self : CITree) (X : matrix) (y : list Z)
           (n : nat) (col_idx : list nat) (k col : nat) : Prop :=
  nth_error col_idx k = Some col
  /\ column_pval self X y n col < alpha self
  /\ (forall j c, nth_error col_idx j = Some c -> (j < k)%nat ->
                  alpha self <= column_pval self X y n c).

(** The running best after the columns [pre]. *)
Definition running_best (self : CITree) (X : matrix) (y : list Z) (n : nat)
           (pre : list nat) (best_col : option nat) (best_pval : pvalue)
  : Prop :=
  match best_col, best_pval with
  | None, np_inf => pre = []
  | Some col, finite pv =>
      pv = column_pval self X y n col
      /\ exists k, first_least self X y n pre k col
  | _, _ => False
  end.

(** The number of terminal nodes. *)
Fixpoint leaves (node : Node) : nat :=
  match node with
  | Terminal _ => 1
  | Internal _ _ _ _ left_child right_child =>
      leaves left_child + leaves right_child
  end.

(** The number of decision nodes. *)
Fixpoint decisions (node : Node) : nat :=
  match node with
  | Terminal _ => 0
  | Internal _ _ _ _ left_child right_child =>
      S (decisions left_child + decisions right_child)
  end.

(** The outcome is a value that satisfies [P], or a [ValueError]. *)
Definition ok_or_ValueError {A} (P : A -> Prop) (r : Result A) : Prop :=
  match r with
  | Ok a => P a
  | Err e => e = ValueError
  end.

(** What [CITreeBase.__init__] establishes. *)
Definition constructed_tree (a : TreeArgs) (t : CITree) : Prop :=
  0 < alpha t /\ alpha t <= 1
  /\ (0 <= n_permutations t)%Z
  /\ (1 <= min_samples_split t)%Z
  /\ (arg_min_samples_split a <= min_samples_split t)%Z
  /\ In (selector t) valid_selectors
  /\ In (max_feats t) valid_max_feats
  /\ match max_depth t with
     | unbounded => arg_max_depth a = (-1)%Z
     | at_most d => (1 <= d)%nat /\ (arg_max_depth a <= Z.of_nat d)%Z
     end
  /\ root t = None
  /\ splitter_counter_ t = 0%Z
  /\ match arg_random_state a with
     | Some s => random_state t = s
     | None => (1 <= random_state t < 9999)%Z
     end.

(** [m[i][c]] for a list of rows. *)
Definition entry (m : list (list Q)) (i c : nat) : Q := nth c (nth i m []) 0.
(** A prediction of the right shape: [n] rows of [k] entries. *)
Definition shaped (n k : nat) (pred : list (list Q)) : Prop :=
  length pred = n /\ Forall (fun row => length row = k) pred.

(** Normalised importances of [p] features: not negative, and of sum one
    unless they are all zero. *)
Definition normalised (p : nat) (fi : list Q) : Prop :=
  length fi = p
  /\ Forall (fun v => 0 <= v) fi
  /\ (Qsum fi == 1 \/ Forall (fun v => v == 0) fi).




(** The fitted tree [t] has the hyperparameters and the seed of [tree], with
    [max_feats] resolved for [p] columns. *)
Definition carries (p : nat) (tree t : CITree) : Prop :=
  random_state t = random_state tree
  /\ alpha t = alpha tree
  /\ min_samples_split t = min_samples_split tree
  /\ n_permutations t = n_permutations tree
  /\ selector t = selector tree
  /\ early_stopping t = early_stopping tree
  /\ max_depth t = max_depth tree
  /\ exists m, resolve_max_feats (max_feats tree) p = Ok m
               /\ max_feats t = Int m.

(** The outcome of the task that fits [tree]. *)
Definition fitted_from (p : nat) (tree : CITree) (r : Result CITree) : Prop :=
  match r with
  | Ok t => carries p tree t
  | Err _ => True
  end.


End TreeSpecifications.

(* ================================================================= *)
(** * Reasoning about tasks *)

Lemma Qlt_bool_iff a b : Qlt_bool a b = true <-> a < b.
Proof.
  unfold Qlt_bool. rewrite negb_true_iff.
  split; intro H.
  - apply Qnot_le_lt. intro Hle. apply Qle_bool_iff in Hle. congruence.
  - destruct (Qle_bool b a) eqn:E; [|reflexivity].
    apply Qle_bool_iff in E. exfalso. apply (Qlt_not_le _ _ H E).
Qed.

Lemma run_bind (G : Generator) {A B} (t : Task A) (f : A -> Task B) g :
  run G (bind t f) g =
  match run G t g with
  | (Ok a, g') => run G (f a) g'
  | (Err e, g') => (Err e, g')
  end.
Proof.
  revert g. induction t as [a|e|ev k IH]; intro g; simpl; try reflexivity.
  destruct (gen_step G ev g) as [r g']. apply IH.
Qed.

Lemma ensures_weaken {A} V (P P' : Result A -> Prop) (t : Task A) :
  (forall r, P r -> P' r) -> ensures V P t -> ensures V P' t.
Proof.
  intro H. induction t as [a|e|ev k IH]; simpl; auto.
Qed.

Lemma ensures_bind {A B} V (Q : Result A -> Prop) (P : Result B -> Prop)
      (t : Task A) (f : A -> Task B) :
  ensures V Q t ->
  (forall a, Q (Ok a) -> ensures V P (f a)) ->
  (forall e, Q (Err e) -> P (Err e)) ->
  ensures V P (bind t f).
Proof.
  intros Ht Hf He. induction t as [a|e|ev k IH]; simpl in *; auto.
Qed.

Lemma ensures_lift {A} V (P : Result A -> Prop) (r : Result A) :
  P r -> ensures V P (lift r).
Proof. destruct r; simpl; auto. Qed.

Lemma ensures_run (G : Generator) {A} V (P : Result A -> Prop) (t : Task A) :
  (forall ev g, V ev (fst (gen_step G ev g))) ->
  ensures V P t -> forall g, P (fst (run G t g)).
Proof.
  intros HV. induction t as [a|e|ev k IH]; simpl; intros Ht g; auto.
  specialize (HV ev g). destruct (gen_step G ev g) as [r g']. simpl in HV.
  apply IH. apply Ht, HV.
Qed.


Lemma any_reply_holds (G : Generator) :
  forall ev g, any_reply ev (fst (gen_step G ev g)).
Proof. intros; exact I. Qed.

Lemma Forall_set_nth {A} (P : A -> Prop) i x (l : list A) :
  Forall P l -> P x -> Forall P (set_nth i x l).
Proof.
  intros Hl Hx. revert i.
  induction Hl as [|y l Hy Hl IH]; intro i; destruct i; simpl;
    constructor; auto.
Qed.

Lemma ensures_step_thread (G : Generator) {A} V (P : Result A -> Prop) i
      (ts : list (Task A)) g :
  (forall ev g, V ev (fst (gen_step G ev g))) ->
  Forall (ensures V P) ts ->
  Forall (ensures V P) (fst (step_thread G i ts g)).
Proof.
  intros HV Hts. unfold step_thread.
  destruct (nth_error ts i) as [[a|e|ev k]|] eqn:E; simpl; auto.
  specialize (HV ev g). destruct (gen_step G ev g) as [r g']. simpl in *.
  apply Forall_set_nth; auto.
  apply nth_error_In in E. rewrite Forall_forall in Hts.
  apply (Hts _ E). exact HV.
Qed.

Lemma ensures_interleave (G : Generator) {A} V (P : Result A -> Prop) sched :
  (forall ev g, V ev (fst (gen_step G ev g))) ->
  forall (ts : list (Task A)) g,
    Forall (ensures V P) ts ->
    Forall (ensures V P) (fst (interleave G sched ts g)).
Proof.
  intros HV. induction sched as [|i sched IH]; intros ts g Hts; simpl; auto.
  pose proof (@ensures_step_thread G A V P i ts g HV Hts) as Hs.
  destruct (step_thread G i ts g) as [ts' g']. apply IH. exact Hs.
Qed.

Lemma ensures_run_all (G : Generator) {A} V (P : Result A -> Prop) :
  (forall ev g, V ev (fst (gen_step G ev g))) ->
  forall (ts : list (Task A)) g,
    Forall (ensures V P) ts -> Forall P (fst (run_all G ts g)).
Proof.
  intros HV ts. induction ts as [|t ts IH]; intros g Hts; simpl.
  - constructor.
  - inversion Hts as [|? ? Ht Hts']; subst.
    pose proof (@ensures_run G A V P t HV Ht g) as Hr.
    destruct (run G t g) as [r g']. specialize (IH g' Hts').
    destruct (run_all G ts g') as [rs g'']. simpl in *. constructor; auto.
Qed.

Lemma collect_Forall {A} (P : Result A -> Prop) (rs : list (Result A)) l :
  Forall P rs -> collect rs = Ok l -> Forall (fun a => P (Ok a)) l.
Proof.
  revert l. induction rs as [|r rs IH]; intros l H E; simpl in E.
  - inversion E. constructor.
  - inversion H as [|? ? Hr Hrs]; subst. destruct r as [a|e]; [|discriminate].
    destruct (collect rs) as [l'|e] eqn:E'; [|discriminate].
    inversion E; subst. constructor; auto.
Qed.


(** What every task of a pool ensures holds of every result of the pool,
    under any schedule. *)
Lemma ensures_Parallel (G : Generator) {A} V (P : Result A -> Prop) sched
      (ts : list (Task A)) g l g' :
  (forall ev g, V ev (fst (gen_step G ev g))) ->
  Forall (ensures V P) ts ->
  Parallel G sched ts g = (Ok l, g') ->
  Forall (fun a => P (Ok a)) l.
Proof.
  intros HV Hts. unfold Parallel.
  pose proof (@ensures_interleave G A V P sched HV ts g Hts) as Hi.
  destruct (interleave G sched ts g) as [ts' g1]. simpl in Hi.
  pose proof (@ensures_run_all G A V P HV ts' g1 Hi) as Hr.
  destruct (run_all G ts' g1) as [rs g2]. simpl in Hr.
  intro E. inversion E; subst. eapply collect_Forall; eauto.
Qed.

(* ================================================================= *)
(** * Masks and splits *)

Lemma mask_select_length {A} (mask : list bool) (a l : list A) :
  mask_select mask a = Ok l -> length mask = length a.
Proof.
  revert a l. induction mask as [|b mask IH]; intros [|x a] l E; simpl in E;
    try discriminate; try reflexivity.
  destruct (mask_select mask a) as [l'|e] eqn:E'; [|discriminate].
  simpl. f_equal. eapply IH; eauto.
Qed.

Lemma mask_select_partition {A} (mask : list bool) (a l r : list A) :
  mask_select mask a = Ok l ->
  mask_select (map negb mask) a = Ok r ->
  (length l + length r = length a)%nat.
Proof.
  revert a l r. induction mask as [|b mask IH]; intros [|x a] l r El Er;
    simpl in *; try discriminate.
  - inversion El; inversion Er; reflexivity.
  - destruct (mask_select mask a) as [l'|e] eqn:E1; [|discriminate].
    destruct (mask_select (map negb mask) a) as [r'|e] eqn:E2; [|discriminate].
    specialize (IH a l' r' E1 E2). inversion El; inversion Er; subst.
    destruct b; simpl; lia.
Qed.

Lemma mask_select_same_length {A B} (mask : list bool) (a l : list A)
      (b m : list B) :
  mask_select mask a = Ok l -> mask_select mask b = Ok m ->
  length l = length m.
Proof.
  revert a l b m. induction mask as [|c mask IH]; intros [|x a] l [|z b] m El Em;
    simpl in *; try discriminate.
  - inversion El; inversion Em; reflexivity.
  - destruct (mask_select mask a) as [l'|e] eqn:E1; [|discriminate].
    destruct (mask_select mask b) as [m'|e] eqn:E2; [|discriminate].
    specialize (IH a l' b m' E1 E2). inversion El; inversion Em; subst.
    destruct c; simpl; lia.
Qed.


Lemma mask_select_count (mask : list bool) (y l r : list Z) label :
  mask_select mask y = Ok l ->
  mask_select (map negb mask) y = Ok r ->
  (count_eq l label + count_eq r label = count_eq y label)%nat.
Proof.
  unfold count_eq.
  revert y l r. induction mask as [|b mask IH]; intros [|x y] l r El Er;
    simpl in *; try discriminate.
  - inversion El; inversion Er; reflexivity.
  - destruct (mask_select mask y) as [l'|e] eqn:E1; [|discriminate].
    destruct (mask_select (map negb mask) y) as [r'|e] eqn:E2; [|discriminate].
    specialize (IH y l' r' E1 E2). inversion El; inversion Er; subst.
    destruct b; simpl; destruct (x =? label)%Z; simpl; lia.
Qed.

(** With nothing selected, the complement is the whole array. *)
Lemma mask_select_none {A} (mask : list bool) (a l r : list A) :
  mask_select mask a = Ok l ->
  mask_select (map negb mask) a = Ok r ->
  l = [] -> r = a.
Proof.
  revert a l r. induction mask as [|b mask IH]; intros [|x a] l r El Er Hl;
    simpl in *; try discriminate.
  - inversion Er; reflexivity.
  - destruct (mask_select mask a) as [l'|e] eqn:E1; [|discriminate].
    destruct (mask_select (map negb mask) a) as [r'|e] eqn:E2; [|discriminate].
    inversion El; inversion Er; subst.
    destruct b; simpl in *; [discriminate|].
    f_equal. eapply IH; eauto.
Qed.

Lemma map_negb_involutive (mask : list bool) :
  map negb (map negb mask) = mask.
Proof.
  induction mask as [|b mask IH]; simpl; [reflexivity|].
  rewrite negb_involutive, IH. reflexivity.
Qed.

Section SplitFacts.
Context {collab : Collaborators}.

Lemma _splitter_facts self X y n col self2 s :
  _splitter self X y n col = Ok (self2, s) ->
  split_facts self X y n col self2 s.
Proof.
  unfold _splitter. intro E.
  destruct (column X col) as [x|e] eqn:Ex; simpl in E; [|discriminate].
  destruct (mask_select _ (rows X)) as [Xl|e] eqn:EXl in E; simpl in E;
    [|discriminate].
  destruct (mask_select _ y) as [yl|e] eqn:Eyl in E; simpl in E;
    [|discriminate].
  destruct (mask_select (map negb _) (rows X)) as [Xr|e] eqn:EXr in E;
    simpl in E; [|discriminate].
  destruct (mask_select (map negb _) y) as [yr|e] eqn:Eyr in E; simpl in E;
    [|discriminate].
  destruct (iadd_at _ _ _) as [fi|e] eqn:Efi in E; simpl in E; [|discriminate].
  inversion E; subst; clear E.
  econstructor; simpl; eauto.
Qed.

(** The rows and the labels of each side are as many, and the two sides
    make up the node. *)
Lemma split_sizes self X y n col self2 s :
  split_facts self X y n col self2 s ->
  length (snd (split_left s)) = nrows (fst (split_left s))
  /\ length (snd (split_right s)) = nrows (fst (split_right s))
  /\ (nrows (fst (split_left s)) + nrows (fst (split_right s)) = nrows X)%nat
  /\ length y = nrows X.
Proof.
  intros [x fi Hx Ht HXl Hyl HXr Hyr _ _ _ _ _]. unfold nrows.
  repeat split.
  - symmetry. eapply mask_select_same_length; eauto.
  - symmetry. eapply mask_select_same_length; eauto.
  - eapply mask_select_partition; eauto.
  - apply mask_select_length in HXl. apply mask_select_length in Hyl. congruence.
Qed.

End SplitFacts.

(* ================================================================= *)
(** * The recursion and its relational description *)

Section BuildTree.
Context {collab : Collaborators}.

Lemma column_error X col e : column X col = Err e -> e = IndexError.
Proof. unfold column. destruct (col <? ncols X)%nat; congruence. Qed.

Lemma mask_select_error {A} mask (a : list A) e :
  mask_select mask a = Err e -> e = IndexError.
Proof.
  revert a. induction mask as [|b mask IH]; intros [|x a] E; simpl in E;
    try congruence.
  destruct (mask_select mask a) eqn:E'; [discriminate|].
  inversion E; subst. eapply IH; eauto.
Qed.

Lemma iadd_at_error i d a e : iadd_at i d a = Err e -> e = IndexError.
Proof.
  revert i. induction a as [|x a IH]; intros i E; destruct i; simpl in E;
    try congruence.
  destruct (iadd_at i d a) eqn:E'; [discriminate|].
  inversion E; subst. eapply IH; eauto.
Qed.

Lemma selector_loop_error self X test col_idx best_col best_pval e :
  selector_loop self X test col_idx best_col best_pval = Err e ->
  e = IndexError.
Proof.
  revert best_col best_pval.
  induction col_idx as [|col rest IH]; intros best_col best_pval E;
    simpl in E; [discriminate|].
  destruct (column X col) as [x|e'] eqn:Ex; simpl in E.
  - destruct (pvalue_gt best_pval (test x)).
    + destruct (early_stopping self && _); [discriminate|]. eapply IH; eauto.
    + eapply IH; eauto.
  - inversion E; subst. eapply column_error; eauto.
Qed.

Lemma _selector_error self X y n col_idx e :
  _selector self X y n col_idx = Err e -> e = IndexError.
Proof.
  unfold _selector, _selector_pcor, _selector_dcor, _selector_cor_hybrid.
  repeat match goal with |- context [if ?b then _ else _] => destruct b end;
    apply selector_loop_error.
Qed.

Lemma _splitter_error self X y n col e :
  _splitter self X y n col = Err e -> e = IndexError.
Proof.
  unfold _splitter. intro E.
  destruct (column X col) as [x|e1] eqn:Ex; simpl in E;
    [|inversion E; subst; eapply column_error; eauto].
  destruct (mask_select _ (rows X)) as [Xl|e1] eqn:EXl in E; simpl in E;
    [|inversion E; subst; eapply mask_select_error; eauto].
  destruct (mask_select _ y) as [yl|e1] eqn:Eyl in E; simpl in E;
    [|inversion E; subst; eapply mask_select_error; eauto].
  destruct (mask_select (map negb _) (rows X)) as [Xr|e1] eqn:EXr in E;
    simpl in E; [|inversion E; subst; eapply mask_select_error; eauto].
  destruct (mask_select (map negb _) y) as [yr|e1] eqn:Eyr in E; simpl in E;
    [|inversion E; subst; eapply mask_select_error; eauto].
  destruct (iadd_at _ _ _) as [fi|e1] eqn:Efi in E; simpl in E;
    [discriminate|inversion E; subst; eapply iadd_at_error; eauto].
Qed.

(** The column draw ends in a reply or in an error of its own. *)
Lemma draw_columns_ensures self p :
  ensures any_reply
    (fun r => match r with Ok _ => True | Err e => e <> FuelExhausted end)
    (draw_columns self p).
Proof.
  unfold draw_columns, np_random_choice.
  destruct (max_feats self) as [s|z]; [cbn; discriminate|].
  destruct (z <? 0)%Z; [cbn; discriminate|].
  destruct (_ || _); cbn; [discriminate|auto].
Qed.

Lemma _build_tree_builds fuel : forall self X y depth,
  ensures any_reply
    (fun r => match r with
              | Ok (self', node) => builds self X y depth self' node
              | Err e => e = FuelExhausted -> (fuel <= nrows X)%nat
              end)
    (_build_tree fuel self X y depth).
Proof.
  induction fuel as [|fuel IH]; intros self X y depth.
  - simpl. intros _. lia.
  - cbn [_build_tree shape].
    destruct ((min_samples_split self <? Z.of_nat (nrows X))%Z
              && depth_below depth (max_depth self)) eqn:Hgo.
    2:{ cbn. apply builds_stop. exact Hgo. }
    set (self1 := set_splitter_counter_ self (splitter_counter_ self + 1)).
    unfold np_random_seed.
    destruct ((0 <=? _)%Z && _) ; [|cbn; discriminate].
    cbn [bind ensures]. intros _ _.
    eapply ensures_bind; [apply draw_columns_ensures| |].
    2:{ intros e He Hf. contradiction. }
    intros col_idx _.
    destruct (_selector self1 X y (nrows X) col_idx) as [[col col_pval]|e]
      eqn:Hsel; cbn [lift bind].
    2:{ cbn. intro Hf. apply _selector_error in Hsel. congruence. }
    destruct col_pval as [pv|].
    2:{ cbn. eapply builds_not_significant; eauto. }
    destruct (Qlt_bool pv (alpha self1)) eqn:Hsig.
    2:{ cbn. eapply builds_not_significant; eauto. }
    destruct col as [col|]; [|cbn; discriminate].
    destruct (_splitter self1 X y (nrows X) col) as [[self2 s]|e] eqn:Hsp;
      cbn [lift bind].
    2:{ cbn. intro Hf. apply _splitter_error in Hsp. congruence. }
    destruct ((0 <? nrows (fst (split_left s)))%nat && _) eqn:Hne.
    2:{ cbn. eapply builds_no_split; eauto. }
    pose proof (split_sizes (_splitter_facts _ _ _ _ _ Hsp)) as (_ & _ & Hsum & _).
    apply andb_prop in Hne as Hne'. destruct Hne' as [Hl Hr].
    apply Nat.ltb_lt in Hl. apply Nat.ltb_lt in Hr.
    eapply ensures_bind; [apply IH| |].
    2:{ cbn. intros e He Hf. specialize (He Hf). lia. }
    intros [self3 left_child] Hleft.
    eapply ensures_bind; [apply IH| |].
    2:{ cbn. intros e He Hf. specialize (He Hf). lia. }
    intros [self4 right_child] Hright.
    cbn. eapply builds_split; eauto.
Qed.

Lemma resolve_max_feats_error m p e :
  resolve_max_feats m p = Err e -> e = ValueError.
Proof.
  unfold resolve_max_feats.
  repeat match goal with |- context [if ?b then _ else _] => destruct b end;
    try discriminate.
  destruct m; congruence.
Qed.

(** [fit] ends in a tree that [fits], or in an exception of Python; the
    fuel given to the recursion is never used up. *)
Lemma fit_fits self X y labels :
  ensures any_reply
    (fun r => match r with
              | Ok self' => fits self X y labels self'
              | Err e => e <> FuelExhausted
              end)
    (CITreeClassifier_fit self X y labels).
Proof.
  unfold CITreeClassifier_fit, CITreeBase_fit.
  cbn [max_feats set_labels_].
  destruct (resolve_max_feats (max_feats self) (ncols X)) as [m|e] eqn:Hm;
    cbn [lift bind].
  2:{ cbn. apply resolve_max_feats_error in Hm. congruence. }
  eapply ensures_bind; [apply _build_tree_builds| |].
  2:{ cbn. intros e He Hf. specialize (He Hf). lia. }
  intros [self2 node] Hb. cbn [ensures].
  econstructor; eauto.
Qed.

End BuildTree.

(* ================================================================= *)
(** * The shape of a fitted tree *)

Section TreeShape.
Context {collab : Collaborators}.

Lemma same_hyperparameters_refl a : same_hyperparameters a a.
Proof. unfold same_hyperparameters. intuition. Qed.

Lemma same_hyperparameters_sym a b :
  same_hyperparameters a b -> same_hyperparameters b a.
Proof. unfold same_hyperparameters. intuition. Qed.

Lemma same_hyperparameters_trans a b c :
  same_hyperparameters a b -> same_hyperparameters b c ->
  same_hyperparameters a c.
Proof. unfold same_hyperparameters. intuition congruence. Qed.

Lemma same_hyperparameters_counter a c :
  same_hyperparameters (set_splitter_counter_ a c) a.
Proof. unfold same_hyperparameters. cbn. intuition. Qed.

Lemma same_hyperparameters_importances a fi :
  same_hyperparameters (set_feature_importances_ a fi) a.
Proof. unfold same_hyperparameters. cbn. intuition. Qed.

Lemma same_hyperparameters_root a r :
  same_hyperparameters (set_root a r) a.
Proof. unfold same_hyperparameters. cbn. intuition. Qed.

Lemma selector_loop_ext a b X test col_idx best_col best_pval :
  alpha a = alpha b -> early_stopping a = early_stopping b ->
  selector_loop a X test col_idx best_col best_pval
  = selector_loop b X test col_idx best_col best_pval.
Proof.
  intros Ha He. revert best_col best_pval.
  induction col_idx as [|col rest IH]; intros; simpl; [reflexivity|].
  destruct (column X col); simpl; [|reflexivity].
  rewrite Ha, He, !IH. reflexivity.
Qed.

(** The selector reads hyperparameters only. *)
Lemma _selector_ext a b X y n col_idx :
  same_hyperparameters a b ->
  _selector a X y n col_idx = _selector b X y n col_idx.
Proof.
  intros (Ha & _ & Hp & Hs & _ & He & Hj & _ & Hr & _).
  unfold _selector, _selector_pcor, _selector_dcor, _selector_cor_hybrid.
  rewrite Hs, Hp, Hr, Hj.
  repeat match goal with |- context [if ?c then _ else _] => destruct c end;
    apply selector_loop_ext; assumption.
Qed.

Lemma builds_same_hyperparameters self X y depth self' node :
  builds self X y depth self' node -> same_hyperparameters self' self.
Proof.
  induction 1.
  - apply same_hyperparameters_refl.
  - apply same_hyperparameters_counter.
  - apply _splitter_facts in H2. destruct H2. subst self2.
    eapply same_hyperparameters_trans;
      [apply same_hyperparameters_importances|apply same_hyperparameters_counter].
  - apply _splitter_facts in H2. destruct H2. subst self2.
    eapply same_hyperparameters_trans; [exact IHbuilds2|].
    eapply same_hyperparameters_trans; [exact IHbuilds1|].
    eapply same_hyperparameters_trans;
      [apply same_hyperparameters_importances|apply same_hyperparameters_counter].
Qed.

Lemma depth_below_within depth m :
  depth_below depth m = true -> depth_within (S depth) m.
Proof.
  destruct m as [|d]; simpl; [trivial|]. intro H. apply Nat.ltb_lt in H. lia.
Qed.

Lemma nonempty_of_pos {A} (l : list A) : (0 <? length l)%nat = true -> l <> [].
Proof. destruct l; simpl; [discriminate|congruence]. Qed.

Lemma matrix_eta (X : matrix) : Matrix (rows X) (ncols X) = X.
Proof. destruct X; reflexivity. Qed.

Lemma builds_grown self X y depth self' node :
  builds self X y depth self' node ->
  forall t, same_hyperparameters t self ->
            depth_within depth (max_depth t) ->
            grown t X y depth node.
Proof.
  induction 1; intros t Ht Hd; try exact Hd.
  pose proof Ht as (Ha & Hm & _ & _ & _ & _ & _ & Hmd & _).
  apply andb_prop in H. destruct H as [Hn Hdb].
  pose proof (_splitter_facts _ _ _ _ _ H2) as
      [x fi Hx Hthr HXl Hyl HXr Hyr Hcl Hcr _ _ Hself2].
  apply andb_prop in H3. destruct H3 as [Hl Hr].
  assert (Ht1 : same_hyperparameters t self1).
  { eapply same_hyperparameters_trans; [exact Ht|].
    apply same_hyperparameters_sym, same_hyperparameters_counter. }
  assert (Ht2 : same_hyperparameters t self2).
  { subst self2. eapply same_hyperparameters_trans; [exact Ht1|].
    apply same_hyperparameters_sym, same_hyperparameters_importances. }
  assert (Ht3 : same_hyperparameters t self3).
  { eapply same_hyperparameters_trans; [exact Ht2|].
    apply same_hyperparameters_sym. eapply builds_same_hyperparameters; eauto. }
  cbn [grown]. repeat split.
  - exists col_idx. erewrite _selector_ext by exact Ht1. exact H0.
  - rewrite Ha. apply Qlt_bool_iff. exact H1.
  - rewrite Hm. apply Z.ltb_lt. exact Hn.
  - rewrite Hmd. exact Hdb.
  - exists x, (rows (fst (split_left s))), (snd (split_left s)),
      (rows (fst (split_right s))), (snd (split_right s)).
    repeat split; auto.
    + apply nonempty_of_pos. exact Hl.
    + apply nonempty_of_pos. exact Hr.
    + rewrite <- Hcl, matrix_eta. apply IHbuilds1; auto.
      apply depth_below_within. rewrite Hmd. exact Hdb.
    + rewrite <- Hcr, matrix_eta. apply IHbuilds2; auto.
      apply depth_below_within. rewrite Hmd. exact Hdb.
Qed.

Lemma root_fit_finish self node : root (fit_finish self node) = Some node.
Proof. unfold fit_finish. cbn. destruct (Qlt_bool _ _); reflexivity. Qed.

Lemma same_hyperparameters_fit_finish self node :
  same_hyperparameters (fit_finish self node) self.
Proof.
  unfold fit_finish. cbn. destruct (Qlt_bool _ _).
  - eapply same_hyperparameters_trans;
      [apply same_hyperparameters_importances|apply same_hyperparameters_root].
  - apply same_hyperparameters_root.
Qed.

Lemma depth_within_0 m : depth_within 0 m.
Proof. destruct m; simpl; [trivial|lia]. Qed.

(** What [run] returns for [fit] is described by [fits]. *)
Lemma run_fit_fits (G : Generator) self X y labels g self' g' :
  run G (CITreeClassifier_fit self X y labels) g = (Ok self', g') ->
  fits self X y labels self'.
Proof.
  intro E.
  pose proof (@ensures_run G _ any_reply _ _ (any_reply_holds G)
                (fit_fits self X y labels) g) as H.
  rewrite E in H. exact H.
Qed.

(** The recursion bound of the model is never met: [fit] ends in a tree or
    in an exception of Python. *)
Lemma fit_fuel_suffices (G : Generator) self X y labels g :
  fst (run G (CITreeClassifier_fit self X y labels) g) <> Err FuelExhausted.
Proof.
  pose proof (@ensures_run G _ any_reply _ _ (any_reply_holds G)
                (fit_fits self X y labels) g) as H.
  destruct (fst (run G (CITreeClassifier_fit self X y labels) g)) as [t|e];
    [discriminate|]. intro E. inversion E. contradiction.
Qed.

(** C7.  In the tree that [fit] builds, a decision node exists only where
    the p-value the selector returned for the chosen column is below
    [alpha], both sides of the split are non-empty, the node had more than
    [min_samples_split] samples and lay below [max_depth]; every terminal
    node lies at a depth of at most [max_depth].  The three hyperparameters
    are those of the tree before the call. *)
Theorem fit_tree_respects_stopping_rules
        (G : Generator) self X y labels g self' g' :
  run G (CITreeClassifier_fit self X y labels) g = (Ok self', g') ->
  alpha self' = alpha self
  /\ min_samples_split self' = min_samples_split self
  /\ max_depth self' = max_depth self
  /\ exists node, root self' = Some node /\ grown self' X y 0 node.
Proof.
  intro E. apply run_fit_fits in E. destruct E as [m self2 node Hm Hb Hf].
  pose proof (builds_same_hyperparameters Hb) as H2.
  pose proof (same_hyperparameters_fit_finish self2 node) as H3.
  rewrite <- Hf in H3.
  assert (H4 : same_hyperparameters self' (fit_start self X y labels m))
    by (eapply same_hyperparameters_trans; eauto).
  pose proof H4 as (Ha & Hs & _ & _ & _ & _ & _ & Hd & _).
  cbn in Ha, Hs, Hd. repeat split; auto.
  exists node. split.
  - subst self'. apply root_fit_finish.
  - eapply builds_grown; [exact Hb|exact H4|apply depth_within_0].
Qed.

End TreeShape.

Lemma fit_tree_respects_stopping_rules_witness :
  run Double.generator
      (CITreeClassifier_fit Double.tree Double.X4 Double.y4 None) 0%Z
  = (Ok Double.fitted, 4%Z)
  /\ (alpha Double.fitted = alpha Double.tree
      /\ min_samples_split Double.fitted = min_samples_split Double.tree
      /\ max_depth Double.fitted = max_depth Double.tree
      /\ exists node,
          root Double.fitted = Some node
          /\ grown Double.fitted Double.X4 Double.y4 0 node).
Proof.
  split; [vm_compute; reflexivity|].
  apply (@fit_tree_respects_stopping_rules _ Double.generator Double.tree
           Double.X4 Double.y4 None 0%Z Double.fitted 4%Z).
  vm_compute; reflexivity.
Defined.

(* ================================================================= *)
(** * Class frequencies *)

Lemma Qnat_add a b : Qnat (a + b) == Qnat a + Qnat b.
Proof. unfold Qnat. rewrite Nat2Z.inj_add, inject_Z_plus. reflexivity. Qed.

Lemma Qnat_pos n : (0 < n)%nat -> 0 < Qnat n.
Proof.
  intro H. unfold Qnat. replace 0 with (inject_Z 0) by reflexivity.
  rewrite <- Zlt_Qlt. lia.
Qed.

Lemma Qnat_nonneg n : 0 <= Qnat n.
Proof.
  unfold Qnat. replace 0 with (inject_Z 0) by reflexivity.
  rewrite <- Zle_Qle. lia.
Qed.


Lemma count_eq_cons v y label :
  count_eq (v :: y) label
  = ((if (v =? label)%Z then 1 else 0) + count_eq y label)%nat.
Proof. unfold count_eq. simpl. destruct (v =? label)%Z; reflexivity. Qed.

(** A label of a duplicate-free class list is counted once. *)
Lemma indicator_sum v (labels : list Z) :
  NoDup labels -> In v labels ->
  list_sum (map (fun l => if (v =? l)%Z then 1 else 0)%nat labels) = 1%nat.
Proof.
  induction 1 as [|l labels Hl Hnd IH]; intro Hin; [contradiction|].
  simpl. destruct (v =? l)%Z eqn:E.
  - apply Z.eqb_eq in E. subst l.
    assert (list_sum (map (fun l => if (v =? l)%Z then 1 else 0)%nat labels)
            = 0%nat) as ->; [|reflexivity].
    clear IH Hin Hnd. induction labels as [|l labels IH]; [reflexivity|].
    simpl. destruct (v =? l)%Z eqn:E.
    + apply Z.eqb_eq in E. subst l. exfalso. apply Hl. left. reflexivity.
    + apply IH. intro H. apply Hl. right. exact H.
  - destruct Hin as [Hin|Hin].
    + subst l. rewrite Z.eqb_refl in E. discriminate.
    + simpl. apply IH. exact Hin.
Qed.

Lemma list_sum_map_add {A} (f g : A -> nat) (l : list A) :
  list_sum (map (fun a => f a + g a)%nat l)
  = (list_sum (map f l) + list_sum (map g l))%nat.
Proof. induction l as [|a l IH]; simpl; [reflexivity|]. rewrite IH. lia. Qed.

(** Over a class list that has every label of [y] once, the class counts add
    up to the length of [y]. *)
Lemma count_eq_total (labels y : list Z) :
  NoDup labels -> (forall v, In v y -> In v labels) ->
  list_sum (map (count_eq y) labels) = length y.
Proof.
  intros Hnd. induction y as [|v y IH]; intro Hcov.
  - clear. induction labels as [|l labels IHl]; simpl; auto.
  - rewrite (map_ext _ (fun l => (if (v =? l)%Z then 1 else 0) + count_eq y l)%nat)
      by (intro; apply count_eq_cons).
    rewrite list_sum_map_add, indicator_sum, IH; auto.
    + intros w Hw. apply Hcov. right. exact Hw.
    + apply Hcov. left. reflexivity.
Qed.

Lemma insert_unique_In z l x : In x (insert_unique z l) <-> x = z \/ In x l.
Proof.
  induction l as [|w l IH]; simpl.
  - intuition.
  - destruct (z <? w)%Z; [simpl; intuition|].
    destruct (z =? w)%Z eqn:E.
    + apply Z.eqb_eq in E. subst w. simpl. intuition.
    + simpl. rewrite IH. intuition.
Qed.

Lemma insert_unique_sorted z l :
  StronglySorted Z.lt l -> StronglySorted Z.lt (insert_unique z l).
Proof.
  induction 1 as [|w l Hs IH Hw]; simpl.
  - repeat constructor.
  - destruct (z <? w)%Z eqn:E1.
    + apply Z.ltb_lt in E1. constructor; [constructor; assumption|].
      constructor; [exact E1|].
      rewrite Forall_forall in *. intros x Hx. specialize (Hw x Hx). lia.
    + destruct (z =? w)%Z eqn:E2; [constructor; assumption|].
      apply Z.ltb_ge in E1. apply Z.eqb_neq in E2.
      constructor; [exact IH|].
      rewrite Forall_forall in *. intros x Hx.
      apply insert_unique_In in Hx. destruct Hx as [->|Hx]; [lia|auto].
Qed.

Lemma np_unique_sorted y : StronglySorted Z.lt (np_unique y).
Proof.
  induction y as [|v y IH]; simpl; [constructor|].
  apply insert_unique_sorted. exact IH.
Qed.

Lemma np_unique_In y x : In x (np_unique y) <-> In x y.
Proof.
  induction y as [|v y IH]; simpl; [tauto|].
  rewrite insert_unique_In, IH. intuition.
Qed.

Lemma sorted_NoDup l : StronglySorted Z.lt l -> NoDup l.
Proof.
  induction 1 as [|w l Hs IH Hw]; constructor; auto.
  intro Hin. rewrite Forall_forall in Hw. specialize (Hw w Hin). lia.
Qed.

Lemma np_unique_NoDup y : NoDup (np_unique y).
Proof. apply sorted_NoDup, np_unique_sorted. Qed.

Section LeafValues.
Context {collab : Collaborators}.







End LeafValues.

(* ================================================================= *)
(** * Construction *)

Lemma py_in_max_feats_int z :
  z <> (-1)%Z -> py_in str_or_int_eqb (Int z) valid_max_feats = false.
Proof.
  intro H. cbn. apply Z.eqb_neq in H. rewrite H. reflexivity.
Qed.

(** C6 (the code departs from the claim).  A tree cannot be constructed with
    an explicit integer for [max_feats]: the constructor raises [ValueError]
    for every integer other than [-1]. *)
Theorem explicit_integer_max_feats_is_rejected (a : TreeArgs) (z : Z) :
  arg_max_feats a = Int z -> z <> (-1)%Z ->
  CITreeClassifier_init a = Raise ValueError.
Proof.
  intros Ha Hz. unfold CITreeClassifier_init.
  rewrite Ha, (py_in_max_feats_int Hz). cbn [negb].
  destruct (_ || _); [reflexivity|].
  destruct (_ <? _)%Z; [reflexivity|].
  destruct (negb _); reflexivity.
Qed.

Lemma explicit_integer_max_feats_is_rejected_witness :
  arg_max_feats Double.tree_args_int = Int 3 /\ 3%Z <> (-1)%Z
  /\ CITreeClassifier_init Double.tree_args_int = Raise ValueError.
Proof.
  split; [reflexivity|]. split; [discriminate|].
  apply (@explicit_integer_max_feats_is_rejected Double.tree_args_int 3);
    [reflexivity|discriminate].
Defined.

Section Resolution.
Context {collab : Collaborators}.

(** The policies the constructor accepts, resolved for [p] columns:
    [int(np.sqrt(p))] is the integer square root, [int(np.log(p+1))] is left
    to numpy, and ['all'] or [-1] give [p]. *)
Lemma resolve_max_feats_accepted (p : nat) :
  resolve_max_feats (Str "sqrt") p = Ok (Z.sqrt (Z.of_nat p))
  /\ resolve_max_feats (Str "log") p = Ok (int_log (p + 1))
  /\ resolve_max_feats (Str "all") p = Ok (Z.of_nat p)
  /\ resolve_max_feats (Int (-1)) p = Ok (Z.of_nat p).
Proof. repeat split. Qed.

Lemma int_sqrt_floor (p : nat) :
  (int_sqrt p * int_sqrt p <= Z.of_nat p
   < (int_sqrt p + 1) * (int_sqrt p + 1))%Z.
Proof.
  unfold int_sqrt. pose proof (Z.sqrt_spec (Z.of_nat p)) as H.
  unfold Z.succ in H. apply H. lia.
Qed.

(** An integer already stored in [max_feats], as it is at a second [fit],
    is kept. *)
Lemma resolve_max_feats_int (z : Z) (p : nat) :
  z <> (-1)%Z -> resolve_max_feats (Int z) p = Ok z.
Proof.
  intro H. unfold resolve_max_feats. cbn. apply Z.eqb_neq in H.
  rewrite H. reflexivity.
Qed.

Lemma max_feats_fit_finish self node :
  max_feats (fit_finish self node) = max_feats self.
Proof. unfold fit_finish. cbn. destruct (Qlt_bool _ _); reflexivity. Qed.

(** [fit] stores the resolved number. *)
Lemma fits_max_feats self X y labels self' :
  fits self X y labels self' ->
  exists m, resolve_max_feats (max_feats self) (ncols X) = Ok m
            /\ max_feats self' = Int m.
Proof.
  intros [m self2 node Hm Hb Hf]. exists m. split; [exact Hm|].
  subst self'. rewrite max_feats_fit_finish.
  pose proof (builds_same_hyperparameters Hb) as (_&_&_&_&H&_). exact H.
Qed.

End Resolution.






(* ================================================================= *)
(** * Hard predictions *)

Lemma argmax_from_spec (l : list Q) : forall best best_i i pre,
    nth_error pre best_i = Some best ->
    length pre = i ->
    (forall j x, nth_error pre j = Some x -> x <= best) ->
    (forall j x, nth_error pre j = Some x -> (j < best_i)%nat -> x < best) ->
    let k := argmax_from best best_i i l in
    exists m, nth_error (pre ++ l) k = Some m
              /\ (forall j x, nth_error (pre ++ l) j = Some x -> x <= m)
              /\ (forall j x, nth_error (pre ++ l) j = Some x ->
                              (j < k)%nat -> x < m).
Proof.
  induction l as [|v l IH]; intros best best_i i pre Hb Hlen Hmax Hfirst; cbn.
  - rewrite app_nil_r. exists best. auto.
  - assert (Hsnoc : forall j x, nth_error (pre ++ [v]) j = Some x ->
                      (nth_error pre j = Some x /\ (j < i)%nat)
                      \/ (j = i /\ x = v)).
    { intros j x Hj. destruct (Nat.lt_ge_cases j (length pre)) as [Hlt|Hge].
      - rewrite nth_error_app1 in Hj by exact Hlt. left. split; [exact Hj|lia].
      - rewrite nth_error_app2 in Hj by exact Hge.
        destruct (j - length pre)%nat as [|d] eqn:Ed; cbn in Hj.
        + inversion Hj. right. split; [lia|reflexivity].
        + destruct d; discriminate. }
    assert (Hat : nth_error (pre ++ [v]) i = Some v).
    { rewrite nth_error_app2 by lia. rewrite Hlen, Nat.sub_diag. reflexivity. }
    replace (pre ++ v :: l) with ((pre ++ [v]) ++ l)
      by (rewrite <- app_assoc; reflexivity).
    destruct (Qlt_bool best v) eqn:E.
    + apply Qlt_bool_iff in E.
      apply IH.
      * exact Hat.
      * rewrite length_app. cbn. lia.
      * intros j x Hj. destruct (Hsnoc j x Hj) as [[Hp _]|[_ ->]].
        -- apply Qlt_le_weak. eapply Qle_lt_trans; [eapply Hmax; eauto|exact E].
        -- apply Qle_refl.
      * intros j x Hj Hlt. destruct (Hsnoc j x Hj) as [[Hp _]|[-> _]]; [|lia].
        eapply Qle_lt_trans; [eapply Hmax; eauto|exact E].
    + assert (Hle : v <= best).
      { apply Qnot_lt_le. intro H. apply Qlt_bool_iff in H. congruence. }
      apply IH.
      * rewrite nth_error_app1; [exact Hb|].
        apply nth_error_Some. congruence.
      * rewrite length_app. cbn. lia.
      * intros j x Hj. destruct (Hsnoc j x Hj) as [[Hp _]|[_ ->]]; eauto.
      * intros j x Hj Hlt. destruct (Hsnoc j x Hj) as [[Hp _]|[-> _]]; eauto.
        exfalso. assert (best_i < length pre)%nat
          by (apply nth_error_Some; congruence). lia.
Qed.

(** [np.argmax] returns a position of the maximum, the lowest one. *)
Lemma argmax_spec (l : list Q) k :
  argmax l = Ok k ->
  exists m, nth_error l k = Some m
            /\ (forall j x, nth_error l j = Some x -> x <= m)
            /\ (forall j x, nth_error l j = Some x -> (j < k)%nat -> x < m).
Proof.
  destruct l as [|v l]; cbn; [discriminate|]. intro E. inversion E; subst.
  apply (@argmax_from_spec l v 0%nat 1%nat [v]).
  - reflexivity.
  - reflexivity.
  - intros [|j] x Hj; cbn in Hj; [inversion Hj; apply Qle_refl|].
    destruct j; discriminate.
  - intros j x _ Hlt. lia.
Qed.


(* ================================================================= *)
(** * Fitting a tree twice *)

Section Counter.
Context {collab : Collaborators}.

(** The recursion only ever increments the split counter. *)
Lemma builds_counter self X y depth self' node :
  builds self X y depth self' node ->
  (splitter_counter_ self <= splitter_counter_ self')%Z
  /\ ((forall value, node <> Terminal value) ->
      (splitter_counter_ self < splitter_counter_ self')%Z).
Proof.
  induction 1.
  - split; [lia|]. intros Hv. exfalso. eapply Hv. reflexivity.
  - split; [cbn; lia|]. intros Hv. exfalso. eapply Hv. reflexivity.
  - apply _splitter_facts in H2. destruct H2. subst self2.
    split; [cbn; lia|]. intros Hv. exfalso. eapply Hv. reflexivity.
  - apply _splitter_facts in H2. destruct H2. subst self2.
    cbn in IHbuilds1. destruct IHbuilds1 as [I1 _].
    destruct IHbuilds2 as [I2 _]. split; [lia|]. intros _. lia.
Qed.

Lemma counter_fit_finish self node :
  splitter_counter_ (fit_finish self node) = splitter_counter_ self.
Proof. unfold fit_finish. cbn. destruct (Qlt_bool _ _); reflexivity. Qed.

(** [fit] does not reset the split counter: it ends at least where it
    started, and beyond when the tree has a decision node, so that a second
    [fit] seeds its first column draw with
    [random_state * (splitter_counter_ + 1)] for a counter that is not 0. *)
Lemma fits_counter self X y labels self' :
  fits self X y labels self' ->
  (splitter_counter_ self <= splitter_counter_ self')%Z
  /\ (forall node, root self' = Some node ->
                   (forall value, node <> Terminal value) ->
                   (splitter_counter_ self < splitter_counter_ self')%Z).
Proof.
  intros [m self2 node Hm Hb Hf]. subst self'.
  rewrite counter_fit_finish, root_fit_finish.
  destruct (builds_counter Hb) as [H1 H2]. cbn in H1, H2. split; [exact H1|].
  intros node' E. inversion E; subst. apply H2.
Qed.

End Counter.


(* ================================================================= *)
(** * The bootstrap samplers and the task of one estimator *)





Lemma count_eq_pos y label : In label y -> (0 < count_eq y label)%nat.
Proof.
  unfold count_eq. induction y as [|v y IH]; intro H; [contradiction|].
  simpl. destruct (v =? label)%Z eqn:E; [simpl; lia|].
  destruct H as [H|H]; [subst; rewrite Z.eqb_refl in E; discriminate|auto].
Qed.










Section EstimatorTasks.
Context {collab : Collaborators}.

Lemma fits_hyperparameters self X y labels self' :
  fits self X y labels self' ->
  exists m, same_hyperparameters self' (fit_start self X y labels m).
Proof.
  intros [m self2 node Hm Hb Hf]. exists m. subst self'.
  eapply same_hyperparameters_trans;
    [apply same_hyperparameters_fit_finish|].
  eapply builds_same_hyperparameters; eauto.
Qed.



End EstimatorTasks.

(* ================================================================= *)
(** * Fitting a forest *)

Lemma Qsum_add_rows a b :
  length a = length b -> Qsum (add_rows a b) == Qsum a + Qsum b.
Proof.
  revert b. induction a as [|x a IH]; intros [|y b] H; simpl in *;
    try discriminate.
  - ring.
  - rewrite IH by congruence. ring.
Qed.

Lemma length_add_rows a b :
  length a = length b -> length (add_rows a b) = length a.
Proof.
  revert b. induction a as [|x a IH]; intros [|y b] H; simpl in *;
    try discriminate; [reflexivity|]. f_equal. apply IH. congruence.
Qed.

Lemma Qsum_map_scale (c : Q) (l : list Q) :
  Qsum (map (fun v => v / c) l) == Qsum l / c.
Proof.
  induction l as [|x l IH]; simpl.
  - unfold Qdiv. ring.
  - rewrite IH. unfold Qdiv. ring.
Qed.

Lemma Qsum_repeat_0 n : Qsum (repeat 0 n) == 0.
Proof. induction n as [|n IH]; simpl; [reflexivity|]. rewrite IH. ring. Qed.

Lemma set_nth_length {A} i (x : A) l : length (set_nth i x l) = length l.
Proof.
  revert i. induction l as [|y l IH]; intro i; destruct i; simpl; auto.
Qed.

Lemma interleave_length (G : Generator) {A} sched :
  forall (ts : list (Task A)) g,
    length (fst (interleave G sched ts g)) = length ts.
Proof.
  induction sched as [|i sched IH]; intros ts g; simpl; [reflexivity|].
  unfold step_thread.
  destruct (nth_error ts i) as [[a|e|ev k]|]; try apply IH.
  destruct (gen_step G ev g) as [r g']. rewrite IH. apply set_nth_length.
Qed.

Lemma run_all_length (G : Generator) {A} (ts : list (Task A)) :
  forall g, length (fst (run_all G ts g)) = length ts.
Proof.
  induction ts as [|t ts IH]; intro g; simpl; [reflexivity|].
  destruct (run G t g) as [r g']. specialize (IH g').
  destruct (run_all G ts g') as [rs g'']. simpl in *. congruence.
Qed.


Section ForestFit.
Context {collab : Collaborators}.

(** The trees [CIForestBase.fit] instantiates: as many as asked for, each
    with the hyperparameters stored in [params] and the seed
    [random_state * (index + 1)], and each with the default [max_depth], for
    [params] has no such key. *)
Lemma instantiate_spec params base_seed i count :
  ensures any_reply
    (fun r =>
       match r with
       | Ok (_, trees) =>
           length trees = count
           /\ Forall (fun t => max_depth t = unbounded) trees
           /\ forall j t,
               nth_error trees j = Some t ->
               random_state t = (base_seed * (Z.of_nat (i + j) + 1))%Z
               /\ alpha t = param_alpha params
               /\ min_samples_split t = Z.max 1 (param_min_samples_split params)
               /\ n_permutations t = param_n_permutations params
               /\ selector t = param_selector params
               /\ max_feats t = param_max_feats params
               /\ early_stopping t = param_early_stopping params
       | Err e => e <> FuelExhausted
       end)
    (instantiate params base_seed i count).
Proof.
  revert params i. induction count as [|count IH]; intros params i.
  - cbn. split; [reflexivity|]. split; [constructor|].
    intros [|j] t H; discriminate.
  - cbn [instantiate].
    set (params1 := set_param_random_state params _).
    unfold CITreeClassifier_init. cbn [kwargs arg_alpha arg_n_permutations
      arg_selector arg_max_feats arg_random_state arg_max_depth
      default_tree_args params1 set_param_random_state param_random_state
      param_alpha param_n_permutations param_selector param_max_feats].
    repeat match goal with
           | |- ensures _ _ (bind (if ?c then _ else _) _) =>
               destruct c; [cbn; discriminate|]
           end.
    cbn [bind].
    eapply ensures_bind; [apply (IH params1 (S i))| |intros e He; exact He].
    intros [params' trees] (Hlen & Hdepth & Hnth). cbn [ensures].
    split; [simpl; congruence|]. split; [constructor; [reflexivity|exact Hdepth]|].
    intros [|j] t Ht; cbn in Ht.
    + inversion Ht; subst. cbn. rewrite Nat.add_0_r. repeat split.
    + specialize (Hnth j t Ht). replace (i + S j)%nat with (S i + j)%nat by lia.
      exact Hnth.
Qed.


Lemma fit_tasks_length self X y min_p trees :
  forall i, length (fit_tasks self X y min_p i trees) = length trees.
Proof. induction trees as [|t trees IH]; intro i; simpl; auto. Qed.

End ForestFit.

(* ================================================================= *)
(** * The probabilities of a forest *)

Section ForestPrediction.
Context {collab : Collaborators}.





End ForestPrediction.

(* ================================================================= *)
(** * Impurity decrease and feature importances *)

Lemma Qsquare_nonneg (x : Q) : 0 <= x * x.
Proof.
  destruct (Qlt_le_dec x 0) as [H|H].
  - setoid_replace (x * x) with ((- x) * (- x)) by ring.
    apply Qmult_le_0_compat; lra.
  - apply Qmult_le_0_compat; assumption.
Qed.

Lemma convex_square (wl wr a b p : Q) :
  wl + wr == 1 -> 0 <= wl -> 0 <= wr -> p == wl * a + wr * b ->
  0 <= wl * (a * a) + wr * (b * b) - p * p.
Proof.
  intros Hw Hl Hr Hp.
  assert (E : wl * (a * a) + wr * (b * b) - p * p
              == wl * wr * ((a - b) * (a - b))).
  { rewrite Hp. assert (Hwr : wr == 1 - wl) by lra. rewrite Hwr. ring. }
  rewrite E. apply Qmult_le_0_compat.
  - apply Qmult_le_0_compat; assumption.
  - apply Qsquare_nonneg.
Qed.

Lemma Qnat_div_split (a b n : nat) :
  (a + b = n)%nat -> (0 < n)%nat ->
  Qnat a / Qnat n + Qnat b / Qnat n == 1.
Proof.
  intros H Hn. subst n. rewrite Qnat_add. field.
  rewrite <- Qnat_add. intro E.
  pose proof (Qnat_pos Hn) as Hp. rewrite E in Hp. apply (Qlt_irrefl 0 Hp).
Qed.

Lemma Qnat_div_nonneg a n : 0 <= Qnat a / Qnat n.
Proof.
  destruct n as [|n].
  - unfold Qdiv. cbn. rewrite Qmult_0_r. apply Qle_refl.
  - apply Qle_shift_div_l; [apply Qnat_pos; lia|].
    rewrite Qmult_0_l. apply Qnat_nonneg.
Qed.

(** The frequency of a class in a node is the weighted mean of its
    frequencies in the two sides. *)
Lemma mean_eq_split (y yl yr : list Z) label :
  (count_eq yl label + count_eq yr label = count_eq y label)%nat ->
  (length yl + length yr = length y)%nat -> (0 < length y)%nat ->
  mean_eq y label
  == Qnat (length yl) / Qnat (length y) * mean_eq yl label
     + Qnat (length yr) / Qnat (length y) * mean_eq yr label.
Proof.
  intros Hc Hl Hn. unfold mean_eq. rewrite <- Hc, Qnat_add.
  assert (Hy : ~ Qnat (length y) == 0).
  { intro E. pose proof (Qnat_pos Hn) as Hp. rewrite E in Hp.
    apply (Qlt_irrefl 0 Hp). }
  assert (Hside : forall l : list Z,
             Qnat (length l) / Qnat (length y)
             * (Qnat (count_eq l label) / Qnat (length l))
             == Qnat (count_eq l label) / Qnat (length y)).
  { intro l. destruct l as [|v l].
    - change (Qnat (length (@nil Z))) with 0.
      change (Qnat (count_eq [] label)) with 0.
      unfold Qdiv. rewrite !Qmult_0_l. reflexivity.
    - assert (Hv : ~ Qnat (length (v :: l)) == 0).
      { intro E.
        assert (0 < Qnat (length (v :: l))) as Hp
            by (apply Qnat_pos; simpl; lia).
        rewrite E in Hp. apply (Qlt_irrefl 0 Hp). }
      field. auto. }
  rewrite !Hside. unfold Qdiv. ring.
Qed.

Lemma Qsum_nonneg (l : list Q) : Forall (fun v => 0 <= v) l -> 0 <= Qsum l.
Proof.
  induction 1 as [|x l Hx Hl IH]; simpl; [apply Qle_refl|].
  replace 0 with (0 + 0) by reflexivity. apply Qplus_le_compat; assumption.
Qed.

(** The impurity decrease of a split, class by class. *)
Lemma gini_decrease_by_class (y yl yr labels : list Z) (wl wr : Q) :
  wl + wr == 1 ->
  gini_index y labels - (gini_index yl labels * wl + gini_index yr labels * wr)
  == Qsum (map (fun label =>
                  wl * (mean_eq yl label * mean_eq yl label)
                  + wr * (mean_eq yr label * mean_eq yr label)
                  - mean_eq y label * mean_eq y label) labels).
Proof.
  intro Hw. unfold gini_index.
  induction labels as [|label labels IH]; simpl.
  - assert (Hwr : wr == 1 - wl) by lra. rewrite Hwr. ring.
  - rewrite <- IH. ring.
Qed.

(** Splitting never increases the Gini impurity. *)
Lemma gini_decrease_nonneg (y yl yr labels : list Z) :
  (forall label,
      (count_eq yl label + count_eq yr label = count_eq y label)%nat) ->
  (length yl + length yr = length y)%nat -> (0 < length y)%nat ->
  0 <= gini_index y labels
       - (gini_index yl labels * (Qnat (length yl) / Qnat (length y))
          + gini_index yr labels * (Qnat (length yr) / Qnat (length y))).
Proof.
  intros Hc Hl Hn.
  rewrite gini_decrease_by_class by (apply Qnat_div_split; assumption).
  apply Qsum_nonneg. apply Forall_forall. intros t Ht.
  apply in_map_iff in Ht. destruct Ht as (label & <- & _).
  apply convex_square.
  - apply Qnat_div_split; assumption.
  - apply Qnat_div_nonneg.
  - apply Qnat_div_nonneg.
  - apply mean_eq_split; auto.
Qed.

(** A split that leaves one side empty does not change the impurity. *)
Lemma gini_decrease_none (y labels : list Z) :
  (0 < length y)%nat ->
  gini_index y labels
  - (gini_index [] labels * (Qnat 0 / Qnat (length y))
     + gini_index y labels * (Qnat (length y) / Qnat (length y))) == 0.
Proof.
  intro Hn. assert (Hy : ~ Qnat (length y) == 0).
  { intro E. pose proof (Qnat_pos Hn) as Hp. rewrite E in Hp.
    apply (Qlt_irrefl 0 Hp). }
  setoid_replace (Qnat (length y) / Qnat (length y)) with 1 by (field; exact Hy).
  change (Qnat 0) with 0. unfold Qdiv. ring.
Qed.
Lemma iadd_at_sum i d a a' :
  iadd_at i d a = Ok a' ->
  Qsum a' == Qsum a + d
  /\ (0 <= d -> Forall (fun v => 0 <= v) a -> Forall (fun v => 0 <= v) a').
Proof.
  revert i a'. induction a as [|x a IH]; intros [|i] a' E; simpl in E;
    try discriminate.
  - inversion E; subst. simpl. split; [ring|].
    intros Hd H. inversion H; subst. constructor; [|assumption].
    replace 0 with (0 + 0) by reflexivity. apply Qplus_le_compat; assumption.
  - destruct (iadd_at i d a) as [l|e] eqn:El; [|discriminate].
    inversion E; subst. destruct (IH i l El) as [Hs Hn]. simpl. split.
    + rewrite Hs. ring.
    + intros Hd H. inversion H; subst. constructor; auto.
Qed.

Lemma nonneg_sum_zero (l : list Q) :
  Forall (fun v => 0 <= v) l -> Qsum l <= 0 -> Forall (fun v => v == 0) l.
Proof.
  induction 1 as [|x l Hx Hl IH]; simpl; intro Hs; constructor.
  - pose proof (Qsum_nonneg Hl). lra.
  - apply IH. pose proof (Qsum_nonneg Hl). lra.
Qed.

Lemma Qsum_normalised (l : list Q) :
  0 < Qsum l -> Qsum (map (fun v => v / Qsum l) l) == 1.
Proof.
  intro H. rewrite Qsum_map_scale. field. intro E. rewrite E in H.
  apply (Qlt_irrefl 0 H).
Qed.

Section Importances.
Context {collab : Collaborators}.

(** The decrease a successful [_splitter] reports is not negative, and is
    zero when a side is empty. *)
Lemma split_impurity_nonneg self X y col self2 s :
  (0 < nrows X)%nat ->
  split_facts self X y (nrows X) col self2 s ->
  0 <= split_impurity s
  /\ ((0 <? nrows (fst (split_left s)))%nat
      && (0 <? nrows (fst (split_right s)))%nat = false ->
      split_impurity s == 0).
Proof.
  intros Hn Hf. pose proof (split_sizes Hf) as (Hll & Hlr & Hsum & Hy).
  destruct Hf as [x fi Hx Hthr HXl Hyl HXr Hyr _ _ Himp _ _].
  rewrite Himp, <- Hy.
  assert (Hcount : forall label,
             (count_eq (snd (split_left s)) label
              + count_eq (snd (split_right s)) label = count_eq y label)%nat).
  { intro label. eapply mask_select_count; eauto. }
  assert (Hlen : (length (snd (split_left s)) + length (snd (split_right s))
                  = length y)%nat) by lia.
  split.
  - apply gini_decrease_nonneg; auto. lia.
  - intro Hemp. apply andb_false_iff in Hemp.
    destruct Hemp as [He|He]; apply Nat.ltb_ge in He.
    + assert (El : snd (split_left s) = []).
      { destruct (snd (split_left s)); [reflexivity|simpl in Hll; lia]. }
      assert (Er : snd (split_right s) = y)
        by (eapply mask_select_none; [exact Hyl|exact Hyr|exact El]).
      rewrite El, Er. apply gini_decrease_none. lia.
    + assert (Er : snd (split_right s) = []).
      { destruct (snd (split_right s)); [reflexivity|simpl in Hlr; lia]. }
      assert (El : snd (split_left s) = y).
      { eapply mask_select_none; [exact Hyr| |exact Er].
        rewrite map_negb_involutive. exact Hyl. }
      rewrite El, Er.
      setoid_replace
        (gini_index y (labels_ self) * (Qnat (length y) / Qnat (length y))
         + gini_index [] (labels_ self) * (Qnat (length (@nil Z)) / Qnat (length y)))
        with
        (gini_index [] (labels_ self) * (Qnat 0 / Qnat (length y))
         + gini_index y (labels_ self) * (Qnat (length y) / Qnat (length y)))
        by (simpl length; ring).
      apply gini_decrease_none. lia.
Qed.

(** The importances the recursion accumulates: non-negative entries, whose
    sum grows by the decreases recorded in the tree. *)
Lemma builds_importances self X y depth self' node :
  builds self X y depth self' node ->
  (0 <= min_samples_split self)%Z ->
  Forall (fun v => 0 <= v) (feature_importances_ self) ->
  Forall (fun v => 0 <= v) (feature_importances_ self')
  /\ Qsum (feature_importances_ self')
     == Qsum (feature_importances_ self) + total_decrease node
  /\ 0 <= total_decrease node.
Proof.
  induction 1; intros Hm Hfi.
  - cbn [total_decrease].
    repeat split; [exact Hfi|rewrite Qplus_0_r; reflexivity|apply Qle_refl].
  - cbn [total_decrease].
    repeat split; [exact Hfi|rewrite Qplus_0_r; reflexivity|apply Qle_refl].
  - apply andb_prop in H. destruct H as [Hn _]. apply Z.ltb_lt in Hn.
    pose proof (_splitter_facts _ _ _ _ _ H2) as Hf.
    destruct (@split_impurity_nonneg self1 X y col self2 s ltac:(lia) Hf)
      as [Hpos Hzero].
    specialize (Hzero H3).
    destruct Hf as [x fi _ _ _ _ _ _ _ _ _ Hadd Hself2]. subst self2.
    destruct (iadd_at_sum _ _ _ Hadd) as [Hs Hnn].
    cbn [total_decrease feature_importances_ set_feature_importances_].
    repeat split; [apply Hnn; assumption| |apply Qle_refl].
    rewrite Hs, Hzero. reflexivity.
  - apply andb_prop in H. destruct H as [Hn _]. apply Z.ltb_lt in Hn.
    pose proof (_splitter_facts _ _ _ _ _ H2) as Hf.
    destruct (@split_impurity_nonneg self1 X y col self2 s ltac:(lia) Hf)
      as [Hpos _].
    destruct Hf as [x fi _ _ _ _ _ _ _ _ _ Hadd Hself2].
    destruct (iadd_at_sum _ _ _ Hadd) as [Hs Hnn].
    assert (Hm2 : (0 <= min_samples_split self2)%Z) by (subst self2; exact Hm).
    assert (Hfi2 : Forall (fun v => 0 <= v) (feature_importances_ self2))
      by (subst self2; cbn; apply Hnn; assumption).
    destruct (IHbuilds1 Hm2 Hfi2) as (Hn3 & Hs3 & Ht3).
    pose proof (builds_same_hyperparameters H4) as (_ & Hm3 & _).
    assert (Hm3' : (0 <= min_samples_split self3)%Z) by (rewrite Hm3; exact Hm2).
    destruct (IHbuilds2 Hm3' Hn3) as (Hn4 & Hs4 & Ht4).
    cbn [total_decrease]. repeat split; [exact Hn4| |].
    + rewrite Hs4, Hs3. subst self2.
      cbn [feature_importances_ set_feature_importances_].
      rewrite Hs. change (feature_importances_ self1)
        with (feature_importances_ self). ring.
    + lra.
Qed.

Lemma fit_finish_importances self node total :
  Forall (fun v => 0 <= v) (feature_importances_ self) ->
  Qsum (feature_importances_ self) == total ->
  let fi := feature_importances_ (fit_finish self node) in
  Forall (fun v => 0 <= v) fi
  /\ (0 < total -> Qsum fi == 1)
  /\ (~ 0 < total -> Forall (fun v => v == 0) fi).
Proof.
  intros Hnn Hsum. unfold fit_finish.
  cbn [feature_importances_ set_root].
  destruct (Qlt_bool 0 (Qsum (feature_importances_ self))) eqn:E;
    cbn [feature_importances_ set_feature_importances_ set_root].
  - apply Qlt_bool_iff in E. repeat split.
    + apply Forall_forall. intros v Hv. apply in_map_iff in Hv.
      destruct Hv as (w & <- & Hw). rewrite Forall_forall in Hnn.
      apply Qle_shift_div_l; [exact E|]. rewrite Qmult_0_l. auto.
    + intros _. apply Qsum_normalised. exact E.
    + intro H. exfalso. apply H. rewrite <- Hsum. exact E.
  - assert (Hle : Qsum (feature_importances_ self) <= 0).
    { apply Qnot_lt_le. intro H. apply Qlt_bool_iff in H. congruence. }
    repeat split.
    + exact Hnn.
    + intro H. exfalso. rewrite <- Hsum in H. lra.
    + intros _. apply nonneg_sum_zero; assumption.
Qed.


End Importances.



(* ================================================================= *)
(** * The test double is a generator *)

Lemma In_firstn {A} n (l : list A) x : In x (firstn n l) -> In x l.
Proof.
  intro H. rewrite <- (firstn_skipn n l). apply in_or_app. left. exact H.
Qed.

Lemma In_skipn {A} n (l : list A) x : In x (skipn n l) -> In x l.
Proof.
  intro H. rewrite <- (firstn_skipn n l). apply in_or_app. right. exact H.
Qed.

Lemma rotate_In k (a : list nat) x : In x (Double.rotate k a) -> In x a.
Proof.
  unfold Double.rotate. intro H. apply in_app_or in H.
  destruct H as [H|H]; [eapply In_skipn|eapply In_firstn]; eauto.
Qed.

Lemma rotate_length k (a : list nat) : length (Double.rotate k a) = length a.
Proof.
  unfold Double.rotate. rewrite length_app, length_skipn, length_firstn.
  destruct a as [|v a]; [simpl; lia|].
  assert (k mod length (v :: a) < length (v :: a))%nat
    by (apply Nat.mod_upper_bound; simpl; lia).
  lia.
Qed.

Lemma rotate_NoDup k (a : list nat) : NoDup a -> NoDup (Double.rotate k a).
Proof.
  unfold Double.rotate. intro H.
  rewrite <- (firstn_skipn (k mod length a) a) in H at 1.
  eapply Permutation.Permutation_NoDup; [apply Permutation.Permutation_app_comm|].
  exact H.
Qed.

Lemma firstn_NoDup {A} n (l : list A) : NoDup l -> NoDup (firstn n l).
Proof.
  intro H. rewrite <- (firstn_skipn n l) in H.
  apply NoDup_app_remove_r in H. exact H.
Qed.

Lemma Double_generator_sound : sound Double.generator.
Proof.
  intros [s|a size replace p|n|lo hi] g; cbn.
  - exact I.
  - intros Hsize Hle. unfold Double.draw. destruct replace.
    + split; [rewrite length_map, length_seq; reflexivity|].
      split; [|discriminate].
      apply Forall_forall. intros x Hx. apply in_map_iff in Hx.
      destruct Hx as (j & <- & Hj). apply in_seq in Hj.
      destruct Hsize as [->|Ha]; [lia|].
      apply nth_In. apply Nat.mod_upper_bound.
      destruct a; [congruence|simpl; lia].
    + specialize (Hle eq_refl). split.
      * rewrite length_firstn, rotate_length. lia.
      * split.
        -- apply Forall_forall. intros x Hx. apply In_firstn in Hx.
           eapply rotate_In; eauto.
        -- intros _ Hnd. apply firstn_NoDup, rotate_NoDup, Hnd.
  - apply repeat_length.
  - intro H. lia.
Qed.

Lemma Double_generator_seed_resets : seed_resets Double.generator.
Proof. intros s g1 g2. reflexivity. Qed.

(* ================================================================= *)
(** * Probability rows *)

Section ProbabilityRows.
Context {collab : Collaborators}.




End ProbabilityRows.


(* ================================================================= *)
(** * The hyperparameters of the trees of a forest *)


(* ================================================================= *)
(** * The probability matrix of a forest for a single sample *)

Section SingleSample.
Context {collab : Collaborators}.

(** With one row to predict and at least one estimator,
    [CIForestClassifier.predict_proba] raises: [_accumulate_prediction]
    takes the branch [len(out) == 1] and adds the two-dimensional prediction
    to the one-dimensional row [out[0]]. *)
Lemma forest_predict_proba_single_row F X :
  nrows X = 1%nat -> estimators_ F <> [] ->
  exists e, CIForestClassifier_predict_proba F X = Err e.
Proof.
  intros Hn Hne. unfold CIForestClassifier_predict_proba. rewrite Hn.
  destruct (estimators_ F) as [|t rest]; [congruence|].
  cbn [repeat accumulate_all]. unfold _accumulate_prediction.
  destruct (CITreeClassifier_predict_proba t X) as [prediction|e]; cbn;
    eexists; reflexivity.
Qed.

End SingleSample.


(* ================================================================= *)
(** * Two runs with the same seed *)

Lemma run_pure (G : Generator) {A} (t : Task A) :
  pure t -> exists r, forall g, run G t g = (r, g).
Proof.
  destruct t as [a|e|ev k]; cbn; intro H; [| |contradiction].
  - exists (Ok a). reflexivity.
  - exists (Err e). reflexivity.
Qed.

(** A seeded task does not see the state the generator is in when the task
    starts. *)
Lemma run_seeded (G : Generator) {A} (t : Task A) :
  seed_resets G -> seeded t ->
  forall g1 g2, fst (run G t g1) = fst (run G t g2).
Proof.
  intros HG Ht g1 g2. destruct t as [a|e|ev k]; cbn; try reflexivity.
  destruct Ht as [s ->]. specialize (HG s g1 g2).
  destruct (gen_step G (ev_seed s) g1) as [[] h1].
  destruct (gen_step G (ev_seed s) g2) as [[] h2].
  cbn in HG. subst h2. reflexivity.
Qed.

Lemma seeded_bind {A B} (t : Task A) (f : A -> Task B) :
  seeded t -> (forall a, seeded (f a)) -> seeded (bind t f).
Proof. destruct t as [a|e|ev k]; cbn; auto. Qed.

Lemma seeded_lift_bind {A B} (r : Result A) (f : A -> Task B) :
  (forall a, seeded (f a)) -> seeded (bind (lift r) f).
Proof. destruct r; cbn; auto. Qed.

Lemma seeded_np_random_seed {B} s (f : unit -> Task B) :
  seeded (bind (np_random_seed s) f).
Proof.
  unfold np_random_seed. destruct (_ && _); cbn; [eexists; reflexivity|exact I].
Qed.

Section Determinism.
Context {collab : Collaborators}.

Lemma seeded_build_tree fuel self X y depth :
  seeded (_build_tree fuel self X y depth).
Proof.
  destruct fuel as [|fuel]; [exact I|]. cbn [_build_tree shape].
  destruct (_ && _); [|exact I]. apply seeded_np_random_seed.
Qed.

Lemma seeded_fit self X y labels :
  seeded (CITreeClassifier_fit self X y labels).
Proof.
  unfold CITreeClassifier_fit, CITreeBase_fit.
  apply seeded_lift_bind. intro m.
  apply seeded_bind; [apply seeded_build_tree|]. intros [t node]. exact I.
Qed.

Lemma seeded_parallel_fit tree X y n tree_idx n_estimators bootstrap bayes
      verbose random_state class_weight min_dist_p :
  seeded (_parallel_fit_classifier tree X y n tree_idx n_estimators bootstrap
            bayes verbose random_state class_weight min_dist_p).
Proof.
  unfold _parallel_fit_classifier. destruct bootstrap; [|apply seeded_fit].
  assert (Hn : forall B (f : sampled -> Task B),
             seeded (bind (bind (normal_sampled_idx
                                   (random_state * (Z.of_nat tree_idx + 1)) n
                                   bayes)
                                (fun a => Return (one_array a))) f)).
  { intros B f. unfold normal_sampled_idx, np_random_seed.
    destruct (_ && _); cbn; [eexists; reflexivity|exact I]. }
  destruct class_weight as [cw|]; [|apply Hn].
  destruct (String.eqb cw "balanced") eqn:Eb.
  - apply String.eqb_eq in Eb. subst cw.
    unfold balanced_sampled_idx, np_random_seed.
    destruct (_ && _); cbn; [eexists; reflexivity|exact I].
  - destruct (String.eqb cw "stratify") eqn:Es.
    + apply String.eqb_eq in Es. subst cw.
      unfold stratify_sampled_idx, np_random_seed.
      destruct (_ && _); cbn; [eexists; reflexivity|exact I].
    + assert (Hcw : match cw with
                    | "balanced"%string => False
                    | "stratify"%string => False
                    | _ => True
                    end).
      { clear - Eb Es. apply String.eqb_neq in Eb, Es.
        repeat (destruct cw as [|[[] [] [] [] [] [] [] []] cw]; try exact I);
          congruence. }
      clear Eb Es.
      repeat (destruct cw as [|[[] [] [] [] [] [] [] []] cw];
              try apply Hn); contradiction.
Qed.

Lemma fit_tasks_seeded self X y min_p trees :
  forall i, Forall seeded (fit_tasks self X y min_p i trees).
Proof.
  induction trees as [|t trees IH]; intro i; cbn [fit_tasks]; constructor.
  - apply seeded_parallel_fit.
  - apply IH.
Qed.

Lemma run_all_seeded (G : Generator) {A} (ts : list (Task A)) :
  seed_resets G -> Forall seeded ts ->
  forall g1 g2, fst (run_all G ts g1) = fst (run_all G ts g2).
Proof.
  intros HG Hts. induction Hts as [|t ts Ht Hts IH]; intros g1 g2;
    [reflexivity|].
  cbn [run_all].
  destruct t as [a|e|ev k].
  - cbn [run]. specialize (IH g1 g2).
    destruct (run_all G ts g1) as [rs1 h1].
    destruct (run_all G ts g2) as [rs2 h2]. cbn in *. congruence.
  - cbn [run]. specialize (IH g1 g2).
    destruct (run_all G ts g1) as [rs1 h1].
    destruct (run_all G ts g2) as [rs2 h2]. cbn in *. congruence.
  - destruct Ht as [s ->]. cbn [run]. specialize (HG s g1 g2).
    destruct (gen_step G (ev_seed s) g1) as [[] h1].
    destruct (gen_step G (ev_seed s) g2) as [[] h2].
    cbn in HG. subst h2. reflexivity.
Qed.

Lemma tree_init_pure a s :
  arg_random_state a = Some s -> pure (CITreeClassifier_init a).
Proof.
  intro H. unfold CITreeClassifier_init. rewrite H.
  repeat match goal with
         | |- pure (if ?c then _ else _) => destruct c; [exact I|]
         end.
  exact I.
Qed.

Lemma forest_init_pure a s :
  farg_random_state a = Some s -> pure (CIForestClassifier_init a).
Proof.
  intro H. unfold CIForestClassifier_init. rewrite H.
  repeat match goal with
         | |- pure (if ?c then _ else _) => destruct c; [exact I|]
         end.
  exact I.
Qed.

Lemma pure_bind {A B} (t : Task A) (f : A -> Task B) :
  pure t -> (forall a, pure (f a)) -> pure (bind t f).
Proof. destruct t as [a|e|ev k]; cbn; auto. Qed.

Lemma instantiate_pure params random_state i count :
  pure (instantiate params random_state i count).
Proof.
  revert params i. induction count as [|count IH]; intros params i;
    [exact I|].
  cbn [instantiate]. apply pure_bind.
  - eapply tree_init_pure. reflexivity.
  - intro t. apply pure_bind; [apply IH|]. intros [p trees]. exact I.
Qed.

(** With its tasks run in order, fitting a forest does not depend on the
    state of the generator. *)
Lemma forest_fit_in_order (G : Generator) self X y :
  seed_resets G ->
  forall g1 g2,
    fst (CIForestClassifier_fit G [] self X y g1)
    = fst (CIForestClassifier_fit G [] self X y g2).
Proof.
  intros HG g1 g2. unfold CIForestClassifier_fit.
  destruct (@run_pure G _ _
              (instantiate_pure (forest_params self)
                 (forest_random_state self) 0
                 (Z.to_nat (forest_n_estimators self)))) as [r Hr].
  rewrite !Hr. destruct r as [[params trees]|e]; [|reflexivity].
  destruct (np_min _) as [min_p|e]; [|reflexivity].
  unfold Parallel. cbn [interleave].
  pose proof (@run_all_seeded G _ _ HG
                (fit_tasks_seeded self X y min_p trees 0) g1 g2) as H.
  destruct (run_all G _ g1) as [rs1 h1].
  destruct (run_all G _ g2) as [rs2 h2]. cbn in H. subst rs2.
  destruct (collect rs1); reflexivity.
Qed.

(** Two-run determinism, where it holds: a tree constructed with an explicit
    seed and fitted, and a forest constructed with an explicit seed and
    fitted with its tasks run in order, are the same whatever state the
    generator was in before; their predictions, functions of the fitted
    object and the input, are then the same too. *)
Lemma two_run_determinism (G : Generator) :
  seed_resets G ->
  (forall a s X y labels g1 g2,
      arg_random_state a = Some s ->
      fst (run G (tree_construct_and_fit a X y labels) g1)
      = fst (run G (tree_construct_and_fit a X y labels) g2))
  /\ (forall a s X y g1 g2,
         farg_random_state a = Some s ->
         fst (forest_construct_and_fit G [] a X y g1)
         = fst (forest_construct_and_fit G [] a X y g2)).
Proof.
  intro HG. split.
  - intros a s X y labels g1 g2 Ha. apply run_seeded; [exact HG|].
    unfold tree_construct_and_fit.
    pose proof (tree_init_pure a Ha) as Hp.
    destruct (CITreeClassifier_init a) as [t|e|ev k]; cbn;
      [apply seeded_fit|exact I|contradiction].
  - intros a s X y g1 g2 Ha. unfold forest_construct_and_fit.
    destruct (@run_pure G _ _ (forest_init_pure a Ha)) as [r Hr]. rewrite !Hr.
    destruct r as [F|e]; [|reflexivity]. apply forest_fit_in_order. exact HG.
Qed.
End Determinism.


(* ================================================================= *)
(** * Index arrays: differences and counts *)

Lemma insert_index_In i l x : In x (insert_index i l) <-> x = i \/ In x l.
Proof.
  induction l as [|v l IH]; simpl.
  - intuition.
  - destruct (i <? v)%nat eqn:E1; simpl; [intuition|].
    destruct (i =? v)%nat eqn:E2; simpl.
    + apply Nat.eqb_eq in E2. subst. intuition.
    + rewrite IH. intuition.
Qed.

Lemma insert_index_sorted i l :
  StronglySorted lt l -> StronglySorted lt (insert_index i l).
Proof.
  induction 1 as [|v l Hs IH Hall]; simpl.
  - constructor; constructor.
  - destruct (i <? v)%nat eqn:E1.
    + apply Nat.ltb_lt in E1. constructor; [constructor; assumption|].
      constructor; [assumption|].
      eapply Forall_impl; [|exact Hall]. intros; lia.
    + destruct (i =? v)%nat eqn:E2; [constructor; assumption|].
      apply Nat.ltb_ge in E1. apply Nat.eqb_neq in E2.
      constructor; [assumption|].
      apply Forall_forall. intros x Hx. apply insert_index_In in Hx.
      destruct Hx as [->|Hx]; [lia|].
      rewrite Forall_forall in Hall. auto.
Qed.

Lemma np_unique_idx_In a x : In x (np_unique_idx a) <-> In x a.
Proof.
  induction a as [|v a IH]; simpl; [tauto|].
  rewrite insert_index_In, IH. intuition.
Qed.

Lemma np_unique_idx_sorted a : StronglySorted lt (np_unique_idx a).
Proof.
  induction a as [|v a IH]; simpl; [constructor|].
  apply insert_index_sorted, IH.
Qed.

Lemma filter_sorted {A} (R : A -> A -> Prop) (f : A -> bool) l :
  StronglySorted R l -> StronglySorted R (filter f l).
Proof.
  induction 1 as [|v l Hs IH Hall]; simpl; [constructor|].
  destruct (f v); [|assumption].
  constructor; [assumption|].
  apply Forall_forall. intros x Hx. apply filter_In in Hx.
  rewrite Forall_forall in Hall. apply Hall, Hx.
Qed.

Lemma existsb_eqb_In i l : existsb (Nat.eqb i) l = true <-> In i l.
Proof.
  rewrite existsb_exists. split.
  - intros (x & Hx & E). apply Nat.eqb_eq in E. subst. exact Hx.
  - intro H. exists i. split; [exact H|apply Nat.eqb_refl].
Qed.

Lemma np_setdiff1d_In ar1 ar2 i :
  In i (np_setdiff1d ar1 ar2) <-> In i ar1 /\ ~ In i ar2.
Proof.
  unfold np_setdiff1d. rewrite filter_In, np_unique_idx_In, negb_true_iff.
  pose proof (existsb_eqb_In i ar2) as H.
  destruct (existsb (Nat.eqb i) ar2).
  - split; [intros [_ E]; discriminate|]. intros [_ Hn]. exfalso.
    apply Hn, H. reflexivity.
  - split; intros [H1 _]; (split; [exact H1|]); [|reflexivity].
    intro Hin. apply H in Hin. discriminate.
Qed.

Lemma np_setdiff1d_sorted ar1 ar2 : StronglySorted lt (np_setdiff1d ar1 ar2).
Proof. apply filter_sorted, np_unique_idx_sorted. Qed.

Lemma where_eq_In_iff y label : forall i j,
  In j (where_eq y label i)
  <-> (i <= j)%nat /\ nth_error y (j - i) = Some label.
Proof.
  induction y as [|v y IH]; intros i j; simpl.
  - split; [tauto|]. intros [_ H]. destruct (j - i)%nat; discriminate.
  - destruct (v =? label)%Z eqn:E.
    + apply Z.eqb_eq in E. subst v. simpl. rewrite IH. split.
      * intros [<-|[Hle Hn]].
        -- split; [lia|]. rewrite Nat.sub_diag. reflexivity.
        -- split; [lia|]. replace (j - i)%nat with (S (j - S i)) by lia.
           exact Hn.
      * intros [Hle Hn]. destruct (Nat.eq_dec i j) as [->|Hne]; [now left|].
        right. split; [lia|].
        replace (j - i)%nat with (S (j - S i)) in Hn by lia. exact Hn.
    + apply Z.eqb_neq in E. rewrite IH. split.
      * intros [Hle Hn]. split; [lia|].
        replace (j - i)%nat with (S (j - S i)) by lia. exact Hn.
      * intros [Hle Hn]. destruct (Nat.eq_dec i j) as [->|Hne].
        -- rewrite Nat.sub_diag in Hn. simpl in Hn. congruence.
        -- split; [lia|].
           replace (j - i)%nat with (S (j - S i)) in Hn by lia. exact Hn.
Qed.

Lemma where_eq_spec y label j :
  In j (where_eq y label 0) <-> nth_error y j = Some label.
Proof.
  rewrite where_eq_In_iff, Nat.sub_0_r. intuition lia.
Qed.

(** What the loop of the two per-class functions computes. *)
Lemma unsampled_loop_spec y sampled : forall labels i idx,
  unsampled_loop y sampled i labels = Ok idx ->
  length idx = length labels
  /\ forall k label,
      nth_error labels k = Some label ->
      exists o s,
        nth_error idx k = Some o /\ nth_error sampled (i + k) = Some s
        /\ o = np_setdiff1d (where_eq y label 0) s.
Proof.
  induction labels as [|label rest IH]; intros i idx H; simpl in H.
  - inversion H. split; [reflexivity|]. intros [|k] l Hk; discriminate.
  - destruct (nth_error sampled i) as [s|] eqn:Es; [|discriminate].
    destruct (unsampled_loop y sampled (S i) rest) as [idx'|e] eqn:E;
      [|discriminate].
    inversion H; subst idx. destruct (IH _ _ E) as [Hlen Hnth].
    split; [simpl; congruence|].
    intros [|k] l Hk; simpl in Hk.
    + inversion Hk; subst l. exists (np_setdiff1d (where_eq y label 0) s), s.
      rewrite Nat.add_0_r. auto.
    + destruct (Hnth _ _ Hk) as (o & s' & Ho & Hs & ->).
      exists (np_setdiff1d (where_eq y l 0) s'), s'.
      replace (i + S k)%nat with (S i + k)%nat by lia. auto.
Qed.

Lemma unsampled_loop_total y sampled : forall labels i,
  (i + length labels <= length sampled)%nat ->
  exists idx, unsampled_loop y sampled i labels = Ok idx.
Proof.
  induction labels as [|label rest IH]; intros i H; simpl in *.
  - eexists; reflexivity.
  - destruct (nth_error sampled i) as [s|] eqn:Es.
    + destruct (IH (S i)) as [idx E]; [lia|]. rewrite E. eexists; reflexivity.
    + apply nth_error_None in Es. lia.
Qed.

(* ================================================================= *)
(** * The bootstrap samplers *)

Lemma where_eq_length y label : forall i,
  length (where_eq y label i) = count_eq y label.
Proof.
  unfold count_eq. induction y as [|v y IH]; intro i; simpl; [reflexivity|].
  destruct (v =? label)%Z; simpl; rewrite IH; reflexivity.
Qed.

Lemma np_random_choice_with_replacement a size p :
  (0 <= size)%Z -> (size = 0%Z \/ a <> []) ->
  match p with Some w => length w = length a | None => True end ->
  ensures reply_ok
    (fun r => match r with
              | Ok l => length l = Z.to_nat size /\ Forall (fun i => In i a) l
              | Err _ => False
              end)
    (np_random_choice a size true p).
Proof.
  intros Hsize Ha Hp. unfold np_random_choice.
  destruct (size <? 0)%Z eqn:E; [apply Z.ltb_lt in E; lia|].
  cbn [negb andb orb].
  destruct ((length a =? 0)%nat && (0 <? Z.to_nat size)%nat) eqn:E2.
  - apply andb_true_iff in E2. destruct E2 as [E2 E3].
    apply Nat.eqb_eq in E2. apply Nat.ltb_lt in E3.
    destruct Ha as [->|Ha]; [simpl in E3; lia|].
    destruct a; [congruence|discriminate].
  - assert (Hok : forall r, reply_ok (ev_choice a (Z.to_nat size) true p) r ->
                            length r = Z.to_nat size
                            /\ Forall (fun i => In i a) r).
    { intros r Hr. cbn in Hr. destruct Hr as (H1 & H2 & _).
      - destruct Ha as [->|Ha]; [left; reflexivity|right; exact Ha].
      - discriminate.
      - split; assumption. }
    destruct p as [w|].
    + rewrite Hp, Nat.eqb_refl. cbn. exact Hok.
    + cbn. exact Hok.
Qed.

Lemma boot_probs_length bayes n :
  ensures reply_ok
    (fun r => match r with
              | Ok p => match p with Some w => length w = n | None => True end
              | Err _ => False
              end)
    (boot_probs bayes n).
Proof.
  unfold boot_probs. destruct bayes; cbn; [|exact I].
  intros r Hr. exact Hr.
Qed.

Lemma stratify_loop_spec y bayes labels :
  ensures reply_ok
    (fun r => match r with
              | Ok l => Forall2 (class_sample y (count_eq y)) labels l
              | Err _ => False
              end)
    (stratify_loop y bayes labels).
Proof.
  induction labels as [|label rest IH]; cbn [stratify_loop ensures].
  - constructor.
  - eapply ensures_bind; [apply boot_probs_length| |intros e []].
    intros p Hp.
    eapply ensures_bind;
      [apply np_random_choice_with_replacement| |intros e []].
    + lia.
    + destruct (where_eq y label 0); [left; reflexivity|right; discriminate].
    + exact Hp.
    + intros drawn [Hlen Hin].
      eapply ensures_bind; [exact IH| |intros e []].
      intros idx Hidx. cbn. constructor; [|exact Hidx].
      split.
      * rewrite Hlen, Nat2Z.id. apply where_eq_length.
      * eapply Forall_impl; [|exact Hin]. intros j Hj.
        apply where_eq_spec. exact Hj.
Qed.


Lemma ensures_seeded_task {A} (P : Result A -> Prop) s (t : Task A) :
  (0 <= s < 2 ^ 32)%Z ->
  ensures reply_ok P t ->
  ensures reply_ok P (bind (np_random_seed s) (fun _ => t)).
Proof.
  intros Hs Ht. unfold np_random_seed.
  destruct ((0 <=? s) && (s <? 2 ^ 32))%Z eqn:E.
  - cbn. intros _ _. exact Ht.
  - apply andb_false_iff in E. destruct E as [E|E];
      [apply Z.leb_gt in E|apply Z.ltb_ge in E]; lia.
Qed.

Lemma run_ok_of_ensures (G : Generator) {A} (P : A -> Prop) (t : Task A) g :
  sound G ->
  ensures reply_ok
    (fun r => match r with Ok a => P a | Err _ => False end) t ->
  exists a g', run G t g = (Ok a, g') /\ P a.
Proof.
  intros HG Ht.
  pose proof (@ensures_run G A reply_ok _ t HG Ht g) as H.
  destruct (run G t g) as [[a|e] g'] eqn:E; cbn in H; [|contradiction].
  exists a, g'. auto.
Qed.

Lemma Forall2_length_concat y (size : Z -> nat) labels l :
  Forall2 (class_sample y size) labels l ->
  length (concat l) = list_sum (map size labels).
Proof.
  induction 1 as [|label s labels l [Hlen _] _ IH]; simpl; [reflexivity|].
  rewrite length_app, Hlen, IH. reflexivity.
Qed.

Lemma np_random_seed_out_of_range {A} s (t : Task A) :
  ~ (0 <= s < 2 ^ 32)%Z ->
  bind (np_random_seed s) (fun _ => t) = Raise ValueError.
Proof.
  intro H. unfold np_random_seed.
  destruct ((0 <=? s) && (s <? 2 ^ 32))%Z eqn:E; [|reflexivity].
  apply andb_true_iff in E. destruct E as [E1 E2].
  apply Z.leb_le in E1. apply Z.ltb_lt in E2. lia.
Qed.

(** X1.  The stratified bootstrap.  With a seed numpy accepts, on a generator
    that keeps numpy's promises, [stratify_sampled_idx] returns one index
    array for each class of [np.unique(y)], with exactly as many indices as
    the class has samples, each the position of a sample of that class; the
    concatenated sample is as long as [y].  With any other seed it raises
    [ValueError]. *)
Theorem stratified_sample_keeps_the_class_counts
        (G : Generator) random_state y bayes g :
  ((0 <= random_state < 2 ^ 32)%Z -> sound G ->
   exists idx g',
     run G (stratify_sampled_idx random_state y bayes) g = (Ok idx, g')
     /\ Forall2 (class_sample y (count_eq y)) (np_unique y) idx
     /\ length (concat idx) = length y)
  /\ (~ (0 <= random_state < 2 ^ 32)%Z ->
      run G (stratify_sampled_idx random_state y bayes) g
      = (Err ValueError, g)).
Proof.
  split.
  - intros Hs HG.
    destruct (@run_ok_of_ensures G _
                (fun idx => Forall2 (class_sample y (count_eq y))
                                    (np_unique y) idx)
                (stratify_sampled_idx random_state y bayes) g HG)
      as (idx & g' & E & H).
    { unfold stratify_sampled_idx. apply ensures_seeded_task; [exact Hs|].
      apply stratify_loop_spec. }
    exists idx, g'. split; [exact E|]. split; [exact H|].
    rewrite (Forall2_length_concat H).
    apply count_eq_total; [apply np_unique_NoDup|].
    intros v Hv. apply np_unique_In. exact Hv.
  - intro Hs. unfold stratify_sampled_idx.
    rewrite np_random_seed_out_of_range by exact Hs. reflexivity.
Qed.

Lemma stratified_sample_keeps_the_class_counts_witness :
  (0 <= 3 < 2 ^ 32)%Z /\ sound Double.generator
  /\ exists idx g',
      run Double.generator
          (stratify_sampled_idx 3 [0; 1; 0; 1; 1]%Z false) 0%Z = (Ok idx, g')
      /\ Forall2 (class_sample [0; 1; 0; 1; 1]%Z (count_eq [0; 1; 0; 1; 1]%Z))
                 (np_unique [0; 1; 0; 1; 1]%Z) idx
      /\ length (concat idx) = length [0; 1; 0; 1; 1]%Z.
Proof.
  split; [lia|]. split; [exact Double_generator_sound|].
  apply (proj1 (@stratified_sample_keeps_the_class_counts
                  Double.generator 3 [0; 1; 0; 1; 1]%Z false 0%Z)).
  - lia.
  - exact Double_generator_sound.
Defined.




(* ================================================================= *)
(** * The indices a bootstrap sample leaves out *)

Lemma mask_select_map_filter {A} (f : A -> bool) (a : list A) :
  mask_select (map f a) a = Ok (filter f a).
Proof.
  induction a as [|x a IH]; simpl; [reflexivity|].
  rewrite IH. destruct (f x); reflexivity.
Qed.

Lemma seq_sorted n : forall a, StronglySorted lt (seq a n).
Proof.
  induction n as [|n IH]; intro a; simpl; constructor; [apply IH|].
  apply Forall_forall. intros x Hx. apply in_seq in Hx. lia.
Qed.

Lemma np_bincount_in_range x n :
  Forall (fun i => (i < n)%nat) x ->
  np_bincount x n = map (fun i => count_occ Nat.eq_dec x i) (seq 0 n).
Proof.
  intro H. unfold np_bincount. destruct x as [|v x]; [reflexivity|].
  replace (Nat.max n (S (list_max (v :: x)))) with n; [reflexivity|].
  assert (list_max (v :: x) < n)%nat; [|lia].
  apply list_max_lt; [discriminate|exact H].
Qed.

Lemma normal_sampled_idx_in_range random_state n bayes :
  ensures reply_ok
    (fun r => match r with
              | Ok s => Forall (fun i => (i < n)%nat) s
              | Err _ => True
              end)
    (normal_sampled_idx random_state n bayes).
Proof.
  unfold normal_sampled_idx, np_random_seed.
  destruct ((0 <=? random_state) && (random_state <? 2 ^ 32))%Z;
    [|exact I].
  cbn [bind ensures]. intros _ _.
  eapply ensures_bind with
    (Q := fun r => match r with
                   | Ok p => match p with
                             | Some w => length w = n
                             | None => True
                             end
                   | Err _ => False
                   end);
    [apply boot_probs_length| |intros e []].
  intros p Hp.
  eapply ensures_weaken;
    [|apply np_random_choice_with_replacement].
  - intros [l|e]; [|intros []]. intros [_ Hin].
    eapply Forall_impl; [|exact Hin]. intros i Hi. apply in_seq in Hi. lia.
  - lia.
  - destruct n; [left; reflexivity|right; discriminate].
  - rewrite length_seq. exact Hp.
Qed.

(** X3.  Out-of-bag indices of the plain bootstrap.  Whenever
    [normal_sampled_idx(random_state, n, bayes)] returns a sample,
    [normal_unsampled_idx] called with the same arguments, in whatever state
    the generator is, returns in increasing order exactly the indices below
    [n] that are not in that sample. *)
Theorem normal_unsampled_idx_is_the_complement
        (G : Generator) random_state n bayes g1 g2 sampled g2' :
  sound G -> seed_resets G ->
  run G (normal_sampled_idx random_state n bayes) g2 = (Ok sampled, g2') ->
  exists idx,
    fst (run G (normal_unsampled_idx random_state n bayes) g1) = Ok idx
    /\ StronglySorted lt idx
    /\ forall i, In i idx <-> (i < n)%nat /\ ~ In i sampled.
Proof.
  intros HG Hseed E.
  assert (Hs : seeded (normal_sampled_idx random_state n bayes)).
  { unfold normal_sampled_idx. apply seeded_np_random_seed. }
  pose proof (@run_seeded G _ _ Hseed Hs g1 g2) as E1. rewrite E in E1. cbn in E1.
  pose proof (@ensures_run G _ reply_ok _ _ HG
                (normal_sampled_idx_in_range random_state n bayes) g2) as Hr.
  rewrite E in Hr. cbn in Hr.
  unfold normal_unsampled_idx. rewrite run_bind.
  destruct (run G (normal_sampled_idx random_state n bayes) g1) as [r g1'].
  cbn in E1. subst r.
  rewrite (np_bincount_in_range Hr), map_map, mask_select_map_filter.
  cbn. eexists. split; [reflexivity|]. split.
  - apply filter_sorted, seq_sorted.
  - intro i. rewrite filter_In, in_seq, Nat.eqb_eq.
    rewrite <- count_occ_not_In. intuition lia.
Qed.

Lemma Double_stride_sound : sound Double.stride.
Proof.
  intros [s|a size replace p|n|lo hi] g; cbn.
  - exact I.
  - intros Hsize Hle. unfold Double.draw_stride. destruct replace.
    + split; [rewrite length_map, length_seq; reflexivity|].
      split; [|discriminate].
      apply Forall_forall. intros x Hx. apply in_map_iff in Hx.
      destruct Hx as (j & <- & Hj). apply in_seq in Hj.
      destruct Hsize as [->|Ha]; [lia|].
      apply nth_In. apply Nat.mod_upper_bound.
      destruct a; [congruence|simpl; lia].
    + specialize (Hle eq_refl). split.
      * rewrite length_firstn, rotate_length. lia.
      * split.
        -- apply Forall_forall. intros x Hx. apply In_firstn in Hx.
           eapply rotate_In; eauto.
        -- intros _ Hnd. apply firstn_NoDup, rotate_NoDup, Hnd.
  - apply repeat_length.
  - intro H. lia.
Qed.

Lemma Double_stride_seed_resets : seed_resets Double.stride.
Proof. intros s g1 g2. reflexivity. Qed.

Lemma normal_unsampled_idx_is_the_complement_witness :
  sound Double.stride /\ seed_resets Double.stride
  /\ run Double.stride (normal_sampled_idx 3 4 false) 0%Z
     = (Ok [3; 1; 3; 1]%nat, 4%Z)
  /\ exists idx,
      fst (run Double.stride (normal_unsampled_idx 3 4 false) 9%Z) = Ok idx
      /\ StronglySorted lt idx
      /\ forall i, In i idx <-> (i < 4)%nat /\ ~ In i [3; 1; 3; 1]%nat.
Proof.
  split; [exact Double_stride_sound|].
  split; [exact Double_stride_seed_resets|].
  split; [vm_compute; reflexivity|].
  apply (@normal_unsampled_idx_is_the_complement
           Double.stride 3 4 false 9%Z 0%Z [3; 1; 3; 1]%nat 4%Z).
  - exact Double_stride_sound.
  - exact Double_stride_seed_resets.
  - vm_compute; reflexivity.
Defined.

Lemma np_random_choice_any a size replace p :
  ensures any_reply (fun _ => True) (np_random_choice a size replace p).
Proof.
  unfold np_random_choice.
  destruct (size <? 0)%Z; [exact I|].
  destruct (_ || _); [exact I|].
  destruct p as [w|]; [destruct (_ =? _)%nat|]; cbn; auto.
Qed.

Lemma boot_probs_any bayes n :
  ensures any_reply (fun _ => True) (boot_probs bayes n).
Proof. unfold boot_probs. destruct bayes; cbn; auto. Qed.

Lemma stratify_loop_length y bayes labels :
  ensures any_reply
    (fun r => match r with
              | Ok l => length l = length labels
              | Err _ => True
              end)
    (stratify_loop y bayes labels).
Proof.
  induction labels as [|label rest IH]; cbn [stratify_loop ensures];
    [reflexivity|].
  eapply ensures_bind; [apply boot_probs_any| |auto]. intros p _.
  eapply ensures_bind; [apply np_random_choice_any| |auto]. intros drawn _.
  eapply ensures_bind; [exact IH| |auto]. intros idx Hidx. cbn.
  congruence.
Qed.

Lemma balanced_loop_length y bayes n labels :
  ensures any_reply
    (fun r => match r with
              | Ok l => length l = length labels
              | Err _ => True
              end)
    (balanced_loop y bayes n labels).
Proof.
  induction labels as [|label rest IH]; cbn [balanced_loop ensures];
    [reflexivity|].
  eapply ensures_bind; [apply boot_probs_any| |auto]. intros p _.
  eapply ensures_bind; [apply np_random_choice_any| |auto]. intros drawn _.
  eapply ensures_bind; [exact IH| |auto]. intros idx Hidx. cbn.
  congruence.
Qed.

(** The indices left out, computed from a sample that has an array for each
    class. *)
Lemma unsampled_loop_complements y sampled :
  length sampled = length (np_unique y) ->
  exists idx, unsampled_loop y sampled 0 (np_unique y) = Ok idx
              /\ complements y sampled idx.
Proof.
  intro Hlen.
  destruct (@unsampled_loop_total y sampled (np_unique y) 0) as [idx E];
    [simpl; lia|].
  exists idx. split; [exact E|].
  destruct (unsampled_loop_spec _ _ _ _ E) as [Hl Hnth].
  split; [exact Hl|].
  intros k label Hk. destruct (Hnth _ _ Hk) as (o & s & Ho & Hs & ->).
  exists (np_setdiff1d (where_eq y label 0) s), s. simpl in Hs.
  split; [exact Ho|]. split; [exact Hs|].
  split; [apply np_setdiff1d_sorted|].
  intro j. rewrite np_setdiff1d_In, where_eq_spec. reflexivity.
Qed.

Lemma seed_in_range_of_ok (G : Generator) {A} s (f : unit -> Task A) g a g' :
  run G (bind (np_random_seed s) f) g = (Ok a, g') ->
  (0 <= s < 2 ^ 32)%Z.
Proof.
  unfold np_random_seed.
  destruct ((0 <=? s) && (s <? 2 ^ 32))%Z eqn:E; [|discriminate].
  intros _. apply andb_true_iff in E. destruct E as [E1 E2].
  apply Z.leb_le in E1. apply Z.ltb_lt in E2. lia.
Qed.

(** A per-class function of the unsampled indices: seed, draw the sample
    again, take the differences. *)
Lemma unsampled_of_sampled (G : Generator) random_state y
      (sampler : Task (list (list nat))) g1 g2 sampled g2' :
  seed_resets G ->
  seeded sampler ->
  (0 <= random_state < 2 ^ 32)%Z ->
  (forall g l g', run G sampler g = (Ok l, g') ->
                  length l = length (np_unique y)) ->
  run G sampler g2 = (Ok sampled, g2') ->
  exists idx,
    fst (run G (bind (np_random_seed random_state)
                     (fun _ => bind sampler
                                 (fun s => lift (unsampled_loop y s 0
                                                   (np_unique y))))) g1)
    = Ok idx
    /\ complements y sampled idx.
Proof.
  intros Hseed Hs Hin Hlen E.
  unfold np_random_seed.
  replace ((0 <=? random_state) && (random_state <? 2 ^ 32))%Z with true.
  2:{ symmetry. apply andb_true_iff. split;
        [apply Z.leb_le|apply Z.ltb_lt]; lia. }
  cbn [bind run].
  destruct (gen_step G (ev_seed random_state) g1) as [u g1a].
  rewrite run_bind.
  pose proof (@run_seeded G _ _ Hseed Hs g1a g2) as E1. rewrite E in E1.
  destruct (run G sampler g1a) as [r g1b]. cbn in E1. subst r.
  destruct (@unsampled_loop_complements y sampled) as (idx & Ei & Hc);
    [eapply Hlen; exact E|].
  exists idx. rewrite Ei. cbn. auto.
Qed.

Lemma run_length_of_ensures (G : Generator) (k : nat)
      (t : Task (list (list nat))) :
  ensures any_reply
    (fun r => match r with
              | Ok l => length l = k
              | Err _ => True
              end) t ->
  forall g l g', run G t g = (Ok l, g') -> length l = k.
Proof.
  intros Ht g l g' E.
  pose proof (@ensures_run G _ any_reply _ t (any_reply_holds G) Ht g) as H.
  rewrite E in H. exact H.
Qed.

Lemma ensures_after_seed {A} V (P : Result A -> Prop) s (t : Task A) :
  P (Err ValueError) -> ensures V P t ->
  ensures V P (bind (np_random_seed s) (fun _ => t)).
Proof.
  intros He Ht. unfold np_random_seed.
  destruct ((0 <=? s) && (s <? 2 ^ 32))%Z; cbn; auto.
Qed.

(** X4.  Out-of-bag indices of the per-class bootstraps.  Whenever
    [stratify_sampled_idx] (or [balanced_sampled_idx]) returns a sample, the
    unsampled function called with the same arguments, in whatever state the
    generator is, returns one array for each class of [np.unique(y)]: in
    increasing order, exactly the positions of the class that are not in the
    array the sample has for that class. *)
Theorem per_class_unsampled_idx_are_the_complement
        (G : Generator) random_state y bayes :
  seed_resets G ->
  (forall g1 g2 sampled g2',
      run G (stratify_sampled_idx random_state y bayes) g2
      = (Ok sampled, g2') ->
      exists idx,
        fst (run G (stratify_unsampled_idx random_state y bayes) g1) = Ok idx
        /\ complements y sampled idx)
  /\ (forall min_class_p g1 g2 sampled g2',
         run G (balanced_sampled_idx random_state y bayes min_class_p) g2
         = (Ok sampled, g2') ->
         exists idx,
           fst (run G (balanced_unsampled_idx random_state y bayes
                         min_class_p) g1) = Ok idx
           /\ complements y sampled idx).
Proof.
  intro Hseed. split.
  - intros g1 g2 sampled g2' E.
    unfold stratify_unsampled_idx.
    eapply unsampled_of_sampled; [exact Hseed| | | |exact E].
    + apply seeded_np_random_seed.
    + eapply seed_in_range_of_ok. exact E.
    + apply run_length_of_ensures. unfold stratify_sampled_idx.
      apply ensures_after_seed; [exact I|apply stratify_loop_length].
  - intros min_class_p g1 g2 sampled g2' E.
    unfold balanced_unsampled_idx.
    eapply unsampled_of_sampled; [exact Hseed| | | |exact E].
    + apply seeded_np_random_seed.
    + eapply seed_in_range_of_ok. exact E.
    + apply run_length_of_ensures. unfold balanced_sampled_idx.
      apply ensures_after_seed; [exact I|apply balanced_loop_length].
Qed.

Lemma per_class_unsampled_idx_are_the_complement_witness :
  seed_resets Double.stride
  /\ (run Double.stride (stratify_sampled_idx 3 [0; 1; 0; 1; 1]%Z false) 0%Z
      = (Ok [[2; 2]; [3; 1; 4]]%nat, 5%Z)
      /\ exists idx,
          fst (run Double.stride
                   (stratify_unsampled_idx 3 [0; 1; 0; 1; 1]%Z false) 8%Z)
          = Ok idx
          /\ complements [0; 1; 0; 1; 1]%Z [[2; 2]; [3; 1; 4]]%nat idx)
  /\ (run Double.stride
          (balanced_sampled_idx 3 [0; 1; 0; 1; 1]%Z false (2 # 5)) 0%Z
      = (Ok [[2; 2]; [3; 1]]%nat, 5%Z)
      /\ exists idx,
          fst (run Double.stride
                   (balanced_unsampled_idx 3 [0; 1; 0; 1; 1]%Z false (2 # 5))
                   8%Z)
          = Ok idx
          /\ complements [0; 1; 0; 1; 1]%Z [[2; 2]; [3; 1]]%nat idx).
Proof.
  split; [exact Double_stride_seed_resets|]. split.
  - split; [vm_compute; reflexivity|].
    apply (proj1 (@per_class_unsampled_idx_are_the_complement
                    Double.stride 3 [0; 1; 0; 1; 1]%Z false
                    Double_stride_seed_resets)
                 8%Z 0%Z [[2; 2]; [3; 1; 4]]%nat 5%Z).
    vm_compute; reflexivity.
  - split; [vm_compute; reflexivity|].
    apply (proj2 (@per_class_unsampled_idx_are_the_complement
                    Double.stride 3 [0; 1; 0; 1; 1]%Z false
                    Double_stride_seed_resets)
                 (2 # 5) 8%Z 0%Z [[2; 2]; [3; 1]]%nat 5%Z).
    vm_compute; reflexivity.
Defined.

(* ================================================================= *)
(** * Feature selection *)

Section Selectors.
Context {collab : Collaborators}.

Lemma _selector_loop self X y n col_idx :
  _selector self X y n col_idx
  = selector_loop self X (selector_test self y n) col_idx None np_inf.
Proof.
  unfold _selector, selector_test, _selector_pcor, _selector_dcor,
    _selector_cor_hybrid.
  destruct (String.eqb (selector self) "pearson"); [reflexivity|].
  destruct (String.eqb (selector self) "distance"); [|reflexivity].
  destruct (n <? 500)%nat; reflexivity.
Qed.

Lemma column_in_range X col :
  (col < ncols X)%nat ->
  column X col = Ok (map (fun r => nth col r 0) (rows X)).
Proof.
  intro H. unfold column. apply Nat.ltb_lt in H. rewrite H. reflexivity.
Qed.

Lemma nth_error_snoc {A} (l : list A) x j c :
  nth_error (l ++ [x]) j = Some c ->
  (nth_error l j = Some c /\ (j < length l)%nat) \/ (j = length l /\ c = x).
Proof.
  intro H. destruct (Nat.lt_ge_cases j (length l)) as [Hlt|Hge].
  - left. rewrite nth_error_app1 in H by exact Hlt. auto.
  - right. rewrite nth_error_app2 in H by exact Hge.
    destruct (j - length l)%nat as [|m] eqn:E; simpl in H.
    + inversion H. split; [lia|reflexivity].
    + destruct m; discriminate.
Qed.

Lemma selector_loop_spec self X y n : forall rest pre best_col best_pval c p,
  Forall (fun col => (col < ncols X)%nat) rest ->
  running_best self X y n pre best_col best_pval ->
  (early_stopping self = true ->
   forall j c', nth_error pre j = Some c' ->
                alpha self <= column_pval self X y n c') ->
  selector_loop self X (selector_test self y n) rest best_col best_pval
  = Ok (c, p) ->
  (running_best self X y n (pre ++ rest) c p
   /\ (early_stopping self = true ->
       forall j c', nth_error (pre ++ rest) j = Some c' ->
                    alpha self <= column_pval self X y n c'))
  \/ (early_stopping self = true
      /\ exists k col,
          c = Some col /\ p = finite (column_pval self X y n col)
          /\ first_significant self X y n (pre ++ rest) k col).
Proof.
  induction rest as [|col rest IH];
    intros pre best_col best_pval c p Hrange Hbest Hearly H.
  - simpl in H. inversion H; subst. rewrite app_nil_r. left. auto.
  - inversion Hrange as [|? ? Hcol Hrest]; subst.
    cbn [selector_loop] in H. rewrite (column_in_range _ Hcol) in H.
    cbn [rbind] in H.
    fold (column_pval self X y n col) in H.
    set (pval := column_pval self X y n col) in *.
    replace (pre ++ col :: rest) with ((pre ++ [col]) ++ rest)
      by (rewrite <- app_assoc; reflexivity).
    destruct (pvalue_gt best_pval pval) eqn:Egt.
    + (* a strictly smaller p-value *)
      assert (Hnew : running_best self X y n (pre ++ [col]) (Some col)
                                  (finite pval)).
      { split; [reflexivity|]. exists (length pre). split; [|split].
        - rewrite nth_error_app2, Nat.sub_diag by lia. reflexivity.
        - intros j c' Hj. apply nth_error_snoc in Hj.
          destruct Hj as [[Hj _]|[_ ->]]; [|apply Qle_refl].
          destruct best_col as [bc|], best_pval as [bp|];
            cbn in Hbest; try contradiction.
          + destruct Hbest as [-> [k (_ & Hle & _)]].
            cbn in Egt. apply Qlt_bool_iff in Egt.
            apply Qlt_le_weak. eapply Qlt_le_trans; [exact Egt|].
            eapply Hle. exact Hj.
          + subst pre. destruct j; discriminate.
        - intros j c' Hj Hlt. apply nth_error_snoc in Hj.
          destruct Hj as [[Hj _]|[-> _]]; [|lia].
          destruct best_col as [bc|], best_pval as [bp|];
            cbn in Hbest; try contradiction.
          + destruct Hbest as [-> [k (_ & Hle & _)]].
            cbn in Egt. apply Qlt_bool_iff in Egt.
            eapply Qlt_le_trans; [exact Egt|]. eapply Hle. exact Hj.
          + subst pre. destruct j; discriminate. }
      destruct (early_stopping self && Qlt_bool pval (alpha self)) eqn:Estop.
      * apply andb_true_iff in Estop. destruct Estop as [Ee Ea].
        apply Qlt_bool_iff in Ea. inversion H; subst c p. right.
        split; [exact Ee|]. exists (length pre), col.
        split; [reflexivity|]. split; [reflexivity|].
        split; [|split].
        -- rewrite <- app_assoc. simpl.
           rewrite nth_error_app2, Nat.sub_diag by lia. reflexivity.
        -- exact Ea.
        -- intros j c' Hj Hlt. rewrite <- app_assoc in Hj. simpl in Hj.
           rewrite nth_error_app1 in Hj by exact Hlt.
           eapply Hearly; eauto.
      * eapply IH; [exact Hrest|exact Hnew| |exact H].
        intros Ee j c' Hj. apply nth_error_snoc in Hj.
        destruct Hj as [[Hj _]|[_ ->]]; [eapply Hearly; eauto|].
        rewrite Ee in Estop. cbn in Estop.
        destruct (Qlt_le_dec pval (alpha self)) as [Hlt|Hle]; [|exact Hle].
        apply Qlt_bool_iff in Hlt. fold pval. congruence.
    + (* not smaller: the running best stays *)
      assert (Hge : match best_pval with
                    | finite bp => bp <= pval
                    | np_inf => False
                    end).
      { destruct best_pval as [bp|]; cbn in Egt; [|discriminate].
        destruct (Qlt_le_dec pval bp) as [Hlt|Hle]; [|exact Hle].
        apply Qlt_bool_iff in Hlt. congruence. }
      destruct best_col as [bc|], best_pval as [bp|];
        cbn in Hbest; try contradiction.
      destruct Hbest as [-> [k (Hk & Hle & Hlt)]].
      eapply IH; [exact Hrest| | |exact H].
      * split; [reflexivity|]. exists k. split; [|split].
        -- rewrite nth_error_app1; [exact Hk|].
           apply nth_error_Some. congruence.
        -- intros j c' Hj. apply nth_error_snoc in Hj.
           destruct Hj as [[Hj _]|[_ ->]]; [eapply Hle; eauto|exact Hge].
        -- intros j c' Hj Hjk. apply nth_error_snoc in Hj.
           destruct Hj as [[Hj _]|[-> _]]; [eapply Hlt; eauto|].
           assert (k < length pre)%nat
             by (apply nth_error_Some; congruence). lia.
      * intros Ee j c' Hj. apply nth_error_snoc in Hj.
        destruct Hj as [[Hj _]|[_ ->]]; [eapply Hearly; eauto|].
        fold pval. eapply Qle_trans; [|exact Hge].
        eapply Hearly; eauto.
Qed.

Lemma selector_loop_total self X test : forall rest best_col best_pval,
  Forall (fun col => (col < ncols X)%nat) rest ->
  exists c p, selector_loop self X test rest best_col best_pval = Ok (c, p).
Proof.
  induction rest as [|col rest IH]; intros best_col best_pval Hrange.
  - simpl. eauto.
  - inversion Hrange as [|? ? Hcol Hrest]; subst.
    cbn [selector_loop]. rewrite (column_in_range _ Hcol). cbn [rbind].
    destruct (pvalue_gt _ _); [destruct (_ && _)|]; eauto.
Qed.

Lemma selector_loop_out_of_range self X test :
  early_stopping self = false ->
  forall rest best_col best_pval,
    Exists (fun col => (ncols X <= col)%nat) rest ->
    selector_loop self X test rest best_col best_pval = Err IndexError.
Proof.
  intros He. induction rest as [|col rest IH]; intros best_col best_pval H.
  - inversion H.
  - cbn [selector_loop]. unfold column.
    destruct (col <? ncols X)%nat eqn:E; [|reflexivity].
    cbn [rbind]. rewrite He. cbn [andb].
    inversion H as [? ? Hc|? ? Hr]; subst.
    + apply Nat.ltb_lt in E. lia.
    + destruct (pvalue_gt _ _); apply IH; exact Hr.
Qed.

(** X5.  Feature selection without early stopping.  When every examined
    column exists, [_selector] returns the first column of [col_idx] that
    has the least p-value, with that p-value, and [(None, np.inf)] when
    [col_idx] is empty; when some examined column does not exist it raises
    [IndexError]. *)
Theorem selector_returns_the_first_least_p_value self X y n col_idx :
  early_stopping self = false ->
  (Forall (fun col => (col < ncols X)%nat) col_idx ->
   match col_idx with
   | [] => _selector self X y n col_idx = Ok (None, np_inf)
   | _ :: _ =>
       exists k col,
         _selector self X y n col_idx
         = Ok (Some col, finite (column_pval self X y n col))
         /\ first_least self X y n col_idx k col
   end)
  /\ (Exists (fun col => (ncols X <= col)%nat) col_idx ->
      _selector self X y n col_idx = Err IndexError).
Proof.
  intro He. split.
  - intro Hrange. rewrite _selector_loop.
    destruct col_idx as [|c0 rest0]; [reflexivity|].
    destruct (@selector_loop_total self X (selector_test self y n)
                (c0 :: rest0) None np_inf Hrange) as (c & p & E).
    destruct (@selector_loop_spec self X y n (c0 :: rest0) [] None np_inf c p
                Hrange eq_refl) as [[Hbest _]|[Ee _]].
    + intros _ [|j] c' Hj; discriminate.
    + exact E.
    + simpl in Hbest. destruct c as [col|], p as [pv|];
        cbn in Hbest; try contradiction; [|discriminate].
      destruct Hbest as [-> [k Hk]]. exists k, col. split; [exact E|exact Hk].
    + congruence.
  - intro H. rewrite _selector_loop.
    apply selector_loop_out_of_range; assumption.
Qed.

(** X6.  Whether a column is found significant does not depend on early
    stopping.  When every examined column exists, [_selector] returns a
    p-value below [alpha] exactly when some examined column has one; with
    early stopping the column returned is then the first such column. *)
Theorem selector_significance_ignores_early_stopping self X y n col_idx :
  Forall (fun col => (col < ncols X)%nat) col_idx ->
  exists c p,
    _selector self X y n col_idx = Ok (c, p)
    /\ (pvalue_lt p (alpha self) = true
        <-> exists col, In col col_idx
                        /\ column_pval self X y n col < alpha self)
    /\ (early_stopping self = true -> pvalue_lt p (alpha self) = true ->
        exists k col,
          c = Some col /\ p = finite (column_pval self X y n col)
          /\ first_significant self X y n col_idx k col).
Proof.
  intro Hrange. rewrite _selector_loop.
  destruct (@selector_loop_total self X (selector_test self y n)
              col_idx None np_inf Hrange) as (c & p & E).
  exists c, p. split; [exact E|].
  destruct (@selector_loop_spec self X y n col_idx [] None np_inf c p
              Hrange eq_refl) as [[Hbest Hall]|[Ee (k & col & -> & -> & Hk)]].
  - intros _ [|j] c' Hj; discriminate.
  - exact E.
  - simpl in Hbest, Hall.
    assert (Hiff : pvalue_lt p (alpha self) = true
                   <-> exists col, In col col_idx
                                   /\ column_pval self X y n col < alpha self).
    { destruct c as [col|], p as [pv|]; cbn in Hbest; try contradiction.
      - destruct Hbest as [-> [k (Hk & Hle & _)]]. cbn. rewrite Qlt_bool_iff.
        split.
        + intro Hlt. exists col. split; [|exact Hlt].
          eapply nth_error_In; eauto.
        + intros (c' & Hin & Hlt). apply In_nth_error in Hin.
          destruct Hin as [j Hj]. eapply Qle_lt_trans; [|exact Hlt].
          eapply Hle; eauto.
      - subst col_idx. cbn. split; [discriminate|].
        intros (c' & [] & _). }
    split; [exact Hiff|].
    intros Ee Hsig. exfalso. apply Hiff in Hsig.
    destruct Hsig as (c' & Hin & Hlt). apply In_nth_error in Hin.
    destruct Hin as [j Hj]. specialize (Hall Ee j c' Hj).
    apply (Qlt_not_le _ _ Hlt Hall).
  - simpl in Hk. destruct Hk as (Hnth & Hlt & Hfirst).
    split; [|intros _ _; exists k, col; repeat split; assumption].
    cbn. rewrite Qlt_bool_iff. split; [|intros _; exact Hlt].
    intros _. exists col. split; [eapply nth_error_In; eauto|exact Hlt].
Qed.

End Selectors.

Lemma selector_returns_the_first_least_p_value_witness :
  early_stopping Double.tree_all = false
  /\ Forall (fun col => (col < ncols Double.X_const)%nat) [0; 1]%nat
  /\ exists k col,
      _selector Double.tree_all Double.X_const Double.y4 4 [0; 1]%nat
      = Ok (Some col,
            finite (column_pval Double.tree_all Double.X_const Double.y4 4
                                col))
      /\ first_least Double.tree_all Double.X_const Double.y4 4 [0; 1]%nat
                     k col.
Proof.
  split; [reflexivity|]. split; [repeat constructor|].
  apply (proj1 (@selector_returns_the_first_least_p_value
                  Double.collaborators Double.tree_all Double.X_const
                  Double.y4 4 [0; 1]%nat eq_refl)).
  repeat constructor.
Defined.

Lemma selector_significance_ignores_early_stopping_witness :
  Forall (fun col => (col < ncols Double.X_const)%nat) [0; 1]%nat
  /\ exists c p,
      _selector Double.tree_early Double.X_const Double.y4 4 [0; 1]%nat
      = Ok (c, p)
      /\ (pvalue_lt p (alpha Double.tree_early) = true
          <-> exists col,
              In col [0; 1]%nat
              /\ column_pval Double.tree_early Double.X_const Double.y4 4
                             col
                 < alpha Double.tree_early)
      /\ (early_stopping Double.tree_early = true ->
          pvalue_lt p (alpha Double.tree_early) = true ->
          exists k col,
            c = Some col
            /\ p = finite (column_pval Double.tree_early Double.X_const
                                       Double.y4 4 col)
            /\ first_significant Double.tree_early Double.X_const
                                 Double.y4 4 [0; 1]%nat k col).
Proof.
  split; [repeat constructor|].
  apply (@selector_significance_ignores_early_stopping
           Double.collaborators Double.tree_early Double.X_const
           Double.y4 4 [0; 1]%nat).
  repeat constructor.
Defined.

(* ================================================================= *)
(** * Splitting a node *)

Section Splitting.
Context {collab : Collaborators}.

Lemma mask_select_Forall {A} (f : A -> bool) (a l : list A) :
  mask_select (map f a) a = Ok l -> Forall (fun v => f v = true) l.
Proof.
  rewrite mask_select_map_filter. intro E. inversion E; subst.
  apply Forall_forall. intros v Hv. apply filter_In in Hv. tauto.
Qed.

Lemma mask_select_rows (f : Q -> bool) col (X_rows l : list (list Q)) :
  mask_select (map f (map (fun r => nth col r 0) X_rows)) X_rows = Ok l ->
  Forall (fun r => f (nth col r 0) = true) l.
Proof.
  rewrite map_map.
  apply (@mask_select_Forall _ (fun r => f (nth col r 0))).
Qed.

Lemma iadd_at_nth i d a a' :
  iadd_at i d a = Ok a' ->
  length a' = length a
  /\ (exists v, nth_error a i = Some v /\ nth_error a' i = Some (v + d))
  /\ forall j, j <> i -> nth_error a' j = nth_error a j.
Proof.
  revert i a'. induction a as [|x a IH]; intros i a' H;
    [destruct i; simpl in H; discriminate|].
  destruct i as [|i]; simpl in H.
  - inversion H; subst. split; [reflexivity|]. split; [exists x; auto|].
    intros [|j] Hj; [congruence|reflexivity].
  - destruct (iadd_at i d a) as [l|e] eqn:E; [|discriminate].
    inversion H; subst. destruct (IH _ _ E) as (Hlen & (v & Hv & Hv') & Hrest).
    split; [simpl; congruence|]. split; [exists v; auto|].
    intros [|j] Hj; [reflexivity|]. simpl. apply Hrest. congruence.
Qed.

(** X7.  A split is a partition.  When [_splitter] returns, the left side
    holds exactly the samples whose value in the column is at most the
    threshold and the right side the others: the sizes add up to the size of
    the node, each side has as many labels as rows and the columns of the
    node, every class count of the node is the sum of the class counts of
    the sides, and [feature_importances_] has changed at the column only, by
    the impurity decrease returned.  A column index that is out of range
    raises [IndexError]. *)
Theorem splitter_partitions_the_samples self X y n col :
  (forall self2 s,
      _splitter self X y n col = Ok (self2, s) ->
      (nrows (fst (split_left s)) + nrows (fst (split_right s)) = nrows X)%nat
      /\ length (snd (split_left s)) = nrows (fst (split_left s))
      /\ length (snd (split_right s)) = nrows (fst (split_right s))
      /\ ncols (fst (split_left s)) = ncols X
      /\ ncols (fst (split_right s)) = ncols X
      /\ Forall (fun r => nth col r 0 <= split_threshold s)
                (rows (fst (split_left s)))
      /\ Forall (fun r => split_threshold s < nth col r 0)
                (rows (fst (split_right s)))
      /\ (forall label,
             (count_eq (snd (split_left s)) label
              + count_eq (snd (split_right s)) label
              = count_eq y label)%nat)
      /\ (exists v,
             nth_error (feature_importances_ self) col = Some v
             /\ nth_error (feature_importances_ self2) col
                = Some (v + split_impurity s))
      /\ (forall j, j <> col ->
                    nth_error (feature_importances_ self2) j
                    = nth_error (feature_importances_ self) j))
  /\ ((ncols X <= col)%nat -> _splitter self X y n col = Err IndexError).
Proof.
  split.
  - intros self2 s E. pose proof (_splitter_facts _ _ _ _ _ E) as Hf.
    pose proof (split_sizes Hf) as (Hll & Hlr & Hsum & _).
    destruct Hf as [x fi Hx Hthr HXl Hyl HXr Hyr Hcl Hcr Himp Hfi Hself2].
    assert (Ex : x = map (fun r => nth col r 0) (rows X)).
    { unfold column in Hx. destruct (col <? ncols X)%nat; congruence. }
    split; [exact Hsum|]. split; [exact Hll|]. split; [exact Hlr|].
    split; [exact Hcl|]. split; [exact Hcr|].
    split; [|split; [|split; [|split]]].
    + unfold left_mask in HXl. rewrite Ex in HXl.
      apply mask_select_rows in HXl.
      eapply Forall_impl; [|exact HXl]. intros r Hr.
      apply Qle_bool_iff. exact Hr.
    + unfold left_mask in HXr. rewrite Ex, map_map in HXr.
      rewrite map_map in HXr.
      apply (@mask_select_Forall _
               (fun r => negb (Qle_bool (nth col r 0) (split_threshold s))))
        in HXr.
      eapply Forall_impl; [|exact HXr]. intros r Hr.
      apply Qlt_bool_iff. unfold Qlt_bool. exact Hr.
    + intro label. eapply mask_select_count; eauto.
    + subst self2. cbn [feature_importances_ set_feature_importances_].
      apply iadd_at_nth in Hfi. tauto.
    + subst self2. cbn [feature_importances_ set_feature_importances_].
      apply iadd_at_nth in Hfi. tauto.
  - intro H. unfold _splitter, column.
    apply Nat.ltb_ge in H. rewrite H. reflexivity.
Qed.

End Splitting.

Lemma splitter_partitions_the_samples_witness :
  exists self2 s,
    _splitter Double.tree_ready Double.X4 Double.y4 4 0 = Ok (self2, s)
    /\ (nrows (fst (split_left s)) + nrows (fst (split_right s))
        = nrows Double.X4)%nat
    /\ length (snd (split_left s)) = nrows (fst (split_left s))
    /\ length (snd (split_right s)) = nrows (fst (split_right s))
    /\ ncols (fst (split_left s)) = ncols Double.X4
    /\ ncols (fst (split_right s)) = ncols Double.X4
    /\ Forall (fun r => nth 0 r 0 <= split_threshold s)
              (rows (fst (split_left s)))
    /\ Forall (fun r => split_threshold s < nth 0 r 0)
              (rows (fst (split_right s)))
    /\ (forall label,
           (count_eq (snd (split_left s)) label
            + count_eq (snd (split_right s)) label
            = count_eq Double.y4 label)%nat)
    /\ (exists v,
           nth_error (feature_importances_ Double.tree_ready) 0 = Some v
           /\ nth_error (feature_importances_ self2) 0
              = Some (v + split_impurity s))
    /\ (forall j, j <> 0%nat ->
                  nth_error (feature_importances_ self2) j
                  = nth_error (feature_importances_ Double.tree_ready) j).
Proof.
  do 2 eexists. split; [vm_compute; reflexivity|].
  apply (proj1 (@splitter_partitions_the_samples
                  Double.collaborators Double.tree_ready Double.X4
                  Double.y4 4 0)).
  vm_compute; reflexivity.
Defined.

(* ================================================================= *)
(** * The size of a fitted tree *)

Section TreeSize.
Context {collab : Collaborators}.

Lemma height_lt_leaves node : (height node < leaves node)%nat.
Proof.
  induction node as [col pv thr imp l IHl r IHr|value]; simpl; lia.
Qed.

Lemma decisions_leaves node : (S (decisions node) = leaves node)%nat.
Proof.
  induction node as [col pv thr imp l IHl r IHr|value]; simpl; lia.
Qed.

Lemma builds_leaves_bound self X y depth self' node :
  builds self X y depth self' node ->
  (leaves node <= Nat.max 1 (nrows X))%nat.
Proof.
  induction 1; cbn [leaves]; try lia.
  pose proof (_splitter_facts _ _ _ _ _ H2) as Hf.
  pose proof (split_sizes Hf) as (_ & _ & Hsum & _).
  apply andb_prop in H3. destruct H3 as [Hl Hr].
  apply Nat.ltb_lt in Hl. apply Nat.ltb_lt in Hr. lia.
Qed.

(** X8.  The size of a fitted tree.  A tree fitted on [n >= 1] samples has at
    most [n] terminal nodes, hence fewer than [n] decision nodes, and no
    terminal node deeper than [n - 1], whatever the hyperparameters, the
    permutation tests and the generator. *)
Theorem fitted_tree_has_at_most_one_leaf_per_sample
        (G : Generator) self X y labels g self' g' :
  (1 <= nrows X)%nat ->
  run G (CITreeClassifier_fit self X y labels) g = (Ok self', g') ->
  exists node,
    root self' = Some node
    /\ (leaves node <= nrows X)%nat
    /\ (decisions node < nrows X)%nat
    /\ (height node < nrows X)%nat.
Proof.
  intros Hn E. apply run_fit_fits in E.
  destruct E as [m self2 node Hm Hb ->].
  exists node. split; [apply root_fit_finish|].
  pose proof (builds_leaves_bound Hb) as Hl.
  pose proof (height_lt_leaves node). pose proof (decisions_leaves node).
  lia.
Qed.

End TreeSize.

Lemma fitted_tree_has_at_most_one_leaf_per_sample_witness :
  (1 <= nrows Double.X4)%nat
  /\ run Double.generator
         (CITreeClassifier_fit Double.tree Double.X4 Double.y4 None) 0%Z
     = (Ok Double.fitted, 4%Z)
  /\ exists node,
      root Double.fitted = Some node
      /\ (leaves node <= nrows Double.X4)%nat
      /\ (decisions node < nrows Double.X4)%nat
      /\ (height node < nrows Double.X4)%nat.
Proof.
  split; [vm_compute; lia|]. split; [vm_compute; reflexivity|].
  apply (@fitted_tree_has_at_most_one_leaf_per_sample
           Double.collaborators Double.generator Double.tree Double.X4
           Double.y4 None 0%Z Double.fitted 4%Z).
  - vm_compute; lia.
  - vm_compute; reflexivity.
Defined.

(* ================================================================= *)
(** * Predicting with a fitted tree *)

Section Prediction.
Context {collab : Collaborators}.

(** A mask keeps the pairing of two arrays it is applied to. *)
Lemma mask_select_pair {A B} (mask : list bool) :
  forall (a l : list A) (b m : list B) i x v,
    mask_select mask a = Ok l -> mask_select mask b = Ok m ->
    nth_error a i = Some x -> nth_error b i = Some v ->
    nth_error mask i = Some true ->
    exists i', nth_error l i' = Some x /\ nth_error m i' = Some v.
Proof.
  induction mask as [|c mask IH]; intros a l b m i x v Ha Hb Hx Hv Hi.
  - destruct i; discriminate.
  - destruct a as [|x0 a]; [discriminate|]. destruct b as [|v0 b];
      [discriminate|]. simpl in Ha, Hb.
    destruct (mask_select mask a) as [l'|e] eqn:Ea; [|discriminate].
    destruct (mask_select mask b) as [m'|e] eqn:Eb; [|discriminate].
    inversion Ha; subst l. inversion Hb; subst m. clear Ha Hb.
    destruct i as [|i]; simpl in Hx, Hv, Hi.
    + inversion Hx; inversion Hv; inversion Hi; subst.
      exists 0%nat. auto.
    + destruct (IH _ _ _ _ _ _ _ Ea Eb Hx Hv Hi) as (i' & H1 & H2).
      destruct c; [exists (S i')|exists i']; auto.
Qed.

Lemma labels_after_builds self X y depth self' node :
  builds self X y depth self' node -> labels_ self' = labels_ self.
Proof.
  intro H. pose proof (builds_same_hyperparameters H) as Hs.
  unfold same_hyperparameters in Hs. tauto.
Qed.

(** The terminal node a training sample is sent to holds the class
    frequencies of labels among which its own label is. *)
Lemma builds_recognises self X y depth self' node :
  builds self X y depth self' node ->
  forall i r v value,
    nth_error (rows X) i = Some r -> nth_error y i = Some v ->
    predict_label_from node r = Ok value ->
    exists y', In v y' /\ value = map (fun label => mean_eq y' label)
                                      (labels_ self).
Proof.
  induction 1; intros i r v value Hr Hv Hp.
  - cbn in Hp. inversion Hp. exists y. split; [|reflexivity].
    eapply nth_error_In; eauto.
  - cbn in Hp. inversion Hp. exists y. split; [|reflexivity].
    eapply nth_error_In; eauto.
  - cbn in Hp. inversion Hp. exists y. split; [eapply nth_error_In; eauto|].
    apply _splitter_facts in H2. destruct H2. subst self2. reflexivity.
  - pose proof (_splitter_facts _ _ _ _ _ H2) as Hf.
    destruct Hf as [x fi Hx Hthr HXl Hyl HXr Hyr _ _ _ _ Hself2].
    assert (Hl2 : labels_ self2 = labels_ self) by (subst self2; reflexivity).
    pose proof (labels_after_builds H4) as Hl3.
    assert (Ex : x = map (fun r => nth col r 0) (rows X)).
    { unfold column in Hx. destruct (col <? ncols X)%nat; congruence. }
    cbn [predict_label_from] in Hp.
    destruct (nth_error r col) as [feature_value|] eqn:Ef; [|discriminate].
    assert (Hnth : nth col r 0 = feature_value)
      by (apply nth_error_nth; exact Ef).
    assert (Hmask : nth_error (left_mask x (split_threshold s)) i
                    = Some (Qle_bool feature_value (split_threshold s))).
    { unfold left_mask. rewrite Ex, map_map.
      rewrite nth_error_map, Hr. cbn. rewrite Hnth. reflexivity. }
    destruct (Qle_bool feature_value (split_threshold s)) eqn:Eb.
    + edestruct (@mask_select_pair (list Q) Z) as (i' & Hr' & Hv');
        [exact HXl|exact Hyl|exact Hr|exact Hv|exact Hmask|].
      destruct (IHbuilds1 _ _ _ _ Hr' Hv' Hp) as (y' & Hin & ->).
      exists y'. rewrite Hl2. auto.
    + assert (Hmask' : nth_error (map negb (left_mask x (split_threshold s)))
                                 i = Some true).
      { rewrite nth_error_map, Hmask. reflexivity. }
      edestruct (@mask_select_pair (list Q) Z) as (i' & Hr' & Hv');
        [exact HXr|exact Hyr|exact Hr|exact Hv|exact Hmask'|].
      destruct (IHbuilds2 _ _ _ _ Hr' Hv' Hp) as (y' & Hin & ->).
      exists y'. rewrite Hl3, Hl2. auto.
Qed.

Lemma mean_eq_pos y label : In label y -> 0 < mean_eq y label.
Proof.
  intro H. unfold mean_eq.
  assert (Hc : (0 < count_eq y label)%nat) by (apply count_eq_pos; exact H).
  assert (Hl : (0 < length y)%nat) by (destruct y; [destruct H|simpl; lia]).
  apply Qlt_shift_div_l; [apply Qnat_pos; exact Hl|].
  rewrite Qmult_0_l. apply Qnat_pos. exact Hc.
Qed.

Lemma labels_fit_finish self node :
  labels_ (fit_finish self node) = labels_ self.
Proof.
  unfold fit_finish. cbn. destruct (Qlt_bool _ _); reflexivity.
Qed.

(** X9.  A fitted tree recognises its training samples.  For every sample
    [(X[i], y[i])] of the training set whose label is in the class set, the
    probabilities the fitted tree predicts for [X[i]] give the class [y[i]]
    a positive probability: the sample is sent to the terminal node it was
    counted in. *)
Theorem fitted_tree_gives_training_labels_positive_probability
        (G : Generator) self X y labels g self' g' :
  run G (CITreeClassifier_fit self X y labels) g = (Ok self', g') ->
  forall i r v k proba,
    nth_error (rows X) i = Some r -> nth_error y i = Some v ->
    nth_error (labels_ self') k = Some v ->
    predict_label self' r = Ok proba ->
    exists q, nth_error proba k = Some q /\ 0 < q.
Proof.
  intros E i r v k proba Hr Hv Hk Hp. apply run_fit_fits in E.
  destruct E as [m self2 node Hm Hb ->].
  unfold predict_label in Hp. rewrite root_fit_finish in Hp.
  rewrite labels_fit_finish, (labels_after_builds Hb) in Hk.
  destruct (@builds_recognises _ _ _ _ _ _ Hb _ _ _ _ Hr Hv Hp)
    as (y' & Hin & ->).
  exists (mean_eq y' v). split; [|apply mean_eq_pos; exact Hin].
  rewrite nth_error_map, Hk. reflexivity.
Qed.

End Prediction.

Lemma fitted_tree_gives_training_labels_positive_probability_witness :
  run Double.generator
      (CITreeClassifier_fit Double.tree Double.X4 Double.y4 None) 0%Z
  = (Ok Double.fitted, 4%Z)
  /\ nth_error (rows Double.X4) 2 = Some [3]
  /\ nth_error Double.y4 2 = Some 1%Z
  /\ nth_error (labels_ Double.fitted) 1 = Some 1%Z
  /\ predict_label Double.fitted [3] = Ok [0; 1]
  /\ exists q, nth_error [0; 1] 1 = Some q /\ 0 < q.
Proof.
  split; [vm_compute; reflexivity|]. split; [reflexivity|].
  split; [reflexivity|]. split; [reflexivity|].
  split; [vm_compute; reflexivity|].
  apply (@fitted_tree_gives_training_labels_positive_probability
           Double.collaborators Double.generator Double.tree Double.X4
           Double.y4 None 0%Z Double.fitted 4%Z)
    with (i := 2%nat) (r := [3]) (v := 1%Z).
  - vm_compute; reflexivity.
  - reflexivity.
  - reflexivity.
  - reflexivity.
  - vm_compute; reflexivity.
Defined.

Section PredictionIsTotal.
Context {collab : Collaborators}.

Lemma rmap_total {A B} (f : A -> Result B) (P : B -> Prop) (l : list A) :
  Forall (fun a => exists b, f a = Ok b /\ P b) l ->
  exists l', rmap f l = Ok l' /\ length l' = length l /\ Forall P l'.
Proof.
  induction 1 as [|a l (b & Eb & Hb) _ (l' & El & Hlen & Hall)]; simpl.
  - exists []. auto.
  - rewrite Eb, El. exists (b :: l'). simpl. auto.
Qed.

Lemma n_classes_after_builds self X y depth self' node :
  builds self X y depth self' node -> n_classes_ self' = n_classes_ self.
Proof.
  induction 1; try reflexivity.
  - apply _splitter_facts in H2. destruct H2. subst self2. reflexivity.
  - apply _splitter_facts in H2. destruct H2. subst self2.
    rewrite IHbuilds2, IHbuilds1. reflexivity.
Qed.

Lemma n_classes_fit_finish self node :
  n_classes_ (fit_finish self node) = n_classes_ self.
Proof.
  unfold fit_finish. cbn. destruct (Qlt_bool _ _); reflexivity.
Qed.

(** A tree built on [X] sends every row that has the columns of [X] to a
    terminal node, whose value has an entry for each class. *)
Lemma builds_predicts self X y depth self' node :
  builds self X y depth self' node ->
  forall r, (ncols X <= length r)%nat ->
            exists value, predict_label_from node r = Ok value
                          /\ length value = length (labels_ self).
Proof.
  induction 1; intros r Hr; cbn [predict_label_from].
  - eexists. split; [reflexivity|]. unfold _estimate_proba.
    apply length_map.
  - eexists. split; [reflexivity|]. unfold _estimate_proba.
    apply length_map.
  - eexists. split; [reflexivity|]. unfold _estimate_proba.
    rewrite length_map.
    apply _splitter_facts in H2. destruct H2. subst self2. reflexivity.
  - pose proof (_splitter_facts _ _ _ _ _ H2) as Hf.
    destruct Hf as [x fi Hx Hthr HXl Hyl HXr Hyr Hcl Hcr _ _ Hself2].
    assert (Hl2 : labels_ self2 = labels_ self) by (subst self2; reflexivity).
    pose proof (labels_after_builds H4) as Hl3.
    assert (Hcol : (col < ncols X)%nat).
    { unfold column in Hx. destruct (col <? ncols X)%nat eqn:E;
        [apply Nat.ltb_lt in E; exact E|discriminate]. }
    destruct (nth_error r col) as [feature_value|] eqn:Ef.
    2:{ apply nth_error_None in Ef. lia. }
    destruct (Qle_bool feature_value (split_threshold s)).
    + destruct (IHbuilds1 r) as (value & E & Hlen); [rewrite Hcl; exact Hr|].
      exists value. split; [exact E|]. rewrite Hlen, Hl2. reflexivity.
    + destruct (IHbuilds2 r) as (value & E & Hlen); [rewrite Hcr; exact Hr|].
      exists value. split; [exact E|]. rewrite Hlen, Hl3, Hl2. reflexivity.
Qed.

Lemma fitted_predict_label (G : Generator) self X y labels g self' g' :
  run G (CITreeClassifier_fit self X y labels) g = (Ok self', g') ->
  n_classes_ self'
  = length (match labels with Some l => l | None => np_unique y end)
  /\ forall r, (ncols X <= length r)%nat ->
               exists value, predict_label self' r = Ok value
                             /\ length value = n_classes_ self'.
Proof.
  intros E. apply run_fit_fits in E. destruct E as [m self2 node Hm Hb ->].
  rewrite n_classes_fit_finish, (n_classes_after_builds Hb).
  split; [reflexivity|]. intros r Hr.
  unfold predict_label. rewrite root_fit_finish.
  destruct (builds_predicts Hb r) as (value & E & Hlen); [exact Hr|].
  exists value. split; [exact E|]. rewrite Hlen. reflexivity.
Qed.

Lemma fitted_tree_predict_proba_total_aux
      (G : Generator) self X y labels g self' g' X' :
  run G (CITreeClassifier_fit self X y labels) g = (Ok self', g') ->
  Forall (fun r => (ncols X <= length r)%nat) (rows X') ->
  exists proba,
    CITreeClassifier_predict_proba self' X' = Ok proba
    /\ length proba = nrows X'
    /\ Forall (fun row => length row = n_classes_ self') proba.
Proof.
  intros E HX'. destruct (@fitted_predict_label G self X y labels g self' g' E) as [_ Hp].
  unfold CITreeClassifier_predict_proba, nrows.
  apply rmap_total. eapply Forall_impl; [|exact HX'].
  intros r Hr. exact (Hp r Hr).
Qed.

(** X10.  A fitted tree predicts every input.  After [fit(X, y)],
    [predict_proba] succeeds on every input whose rows have at least the
    columns of [X]: it returns one row for each input row, each with
    [n_classes_] entries. *)
Theorem fitted_tree_predict_proba_is_total
        (G : Generator) self X y labels g self' g' X' :
  run G (CITreeClassifier_fit self X y labels) g = (Ok self', g') ->
  Forall (fun r => (ncols X <= length r)%nat) (rows X') ->
  exists proba,
    CITreeClassifier_predict_proba self' X' = Ok proba
    /\ length proba = nrows X'
    /\ Forall (fun row => length row = n_classes_ self') proba.
Proof.
  intros E HX'. eapply fitted_tree_predict_proba_total_aux; eauto.
Qed.

Lemma argmax_in_range l k : argmax l = Ok k -> (k < length l)%nat.
Proof.
  intro H. apply argmax_spec in H. destruct H as (m & Hm & _).
  apply nth_error_Some. congruence.
Qed.

(** X11.  What [predict] returns.  After [fit(X, y)] with a class set that is
    not empty, [predict] on an input with at least one row, whose rows have
    at least the columns of [X], returns one position of the class set for
    each row; on an input with no row it raises (the array of
    probabilities has no axis 1). *)
Theorem fitted_tree_predict_returns_class_positions
        (G : Generator) self X y labels g self' g' X' :
  run G (CITreeClassifier_fit self X y labels) g = (Ok self', g') ->
  (rows X' <> [] ->
   match labels with Some l => l | None => np_unique y end <> [] ->
   Forall (fun r => (ncols X <= length r)%nat) (rows X') ->
   exists positions,
     CITreeClassifier_predict self' X' = Ok positions
     /\ length positions = nrows X'
     /\ Forall (fun k => (k < n_classes_ self')%nat) positions)
  /\ (rows X' = [] -> CITreeClassifier_predict self' X' = Err AxisError).
Proof.
  intro E. split.
  - intros Hne Hl HX'.
    destruct (@fitted_predict_label G self X y labels g self' g' E) as [Hn _].
    destruct (@fitted_tree_predict_proba_total_aux G self X y labels g self'
                g' X' E HX') as (proba & Ep & Hlen & Hrows).
    unfold CITreeClassifier_predict. rewrite Ep. cbn [rbind].
    unfold argmax_axis1. destruct proba as [|row proba'] eqn:Eproba.
    { unfold nrows in Hlen. destruct (rows X'); [congruence|discriminate]. }
    rewrite <- Eproba in *. clear Eproba row proba'.
    destruct (@rmap_total _ _ argmax
                (fun k => (k < n_classes_ self')%nat) proba)
      as (ks & Ek & Hk & Hall).
    { eapply Forall_impl; [|exact Hrows]. intros row Hrow.
      destruct row as [|v row].
      - simpl in Hrow. rewrite Hn in Hrow.
        destruct (match labels with Some l => l | None => np_unique y end);
          [congruence|discriminate].
      - eexists. split; [reflexivity|].
        rewrite <- Hrow.
        apply (@argmax_in_range (v :: row)). reflexivity. }
    exists ks. split; [exact Ek|]. split; [congruence|exact Hall].
  - intro H. unfold CITreeClassifier_predict, CITreeClassifier_predict_proba.
    rewrite H. reflexivity.
Qed.

End PredictionIsTotal.

Lemma fitted_tree_predict_proba_is_total_witness :
  run Double.generator
      (CITreeClassifier_fit Double.tree Double.X4 Double.y4 None) 0%Z
  = (Ok Double.fitted, 4%Z)
  /\ Forall (fun r => (ncols Double.X4 <= length r)%nat)
            (rows (Matrix [[0; 9]; [5; 9]] 2))
  /\ exists proba,
      CITreeClassifier_predict_proba Double.fitted (Matrix [[0; 9]; [5; 9]] 2)
      = Ok proba
      /\ length proba = nrows (Matrix [[0; 9]; [5; 9]] 2)
      /\ Forall (fun row => length row = n_classes_ Double.fitted) proba.
Proof.
  split; [vm_compute; reflexivity|].
  split; [repeat constructor|].
  apply (@fitted_tree_predict_proba_is_total
           Double.collaborators Double.generator Double.tree Double.X4
           Double.y4 None 0%Z Double.fitted 4%Z (Matrix [[0; 9]; [5; 9]] 2)).
  - vm_compute; reflexivity.
  - repeat constructor.
Defined.

Lemma fitted_tree_predict_returns_class_positions_witness :
  run Double.generator
      (CITreeClassifier_fit Double.tree Double.X4 Double.y4 None) 0%Z
  = (Ok Double.fitted, 4%Z)
  /\ rows (Matrix [[0; 9]; [5; 9]] 2) <> []
  /\ np_unique Double.y4 <> []
  /\ Forall (fun r => (ncols Double.X4 <= length r)%nat)
            (rows (Matrix [[0; 9]; [5; 9]] 2))
  /\ exists positions,
      CITreeClassifier_predict Double.fitted (Matrix [[0; 9]; [5; 9]] 2)
      = Ok positions
      /\ length positions = nrows (Matrix [[0; 9]; [5; 9]] 2)
      /\ Forall (fun k => (k < n_classes_ Double.fitted)%nat) positions.
Proof.
  split; [vm_compute; reflexivity|]. split; [discriminate|].
  split; [discriminate|]. split; [repeat constructor|].
  apply (proj1 (@fitted_tree_predict_returns_class_positions
                  Double.collaborators Double.generator Double.tree
                  Double.X4 Double.y4 None 0%Z Double.fitted 4%Z
                  (Matrix [[0; 9]; [5; 9]] 2)
                  ltac:(vm_compute; reflexivity))).
  - discriminate.
  - discriminate.
  - repeat constructor.
Defined.

(* ================================================================= *)
(** * Fits that cannot succeed *)

Section FailingFits.
Context {collab : Collaborators}.

Lemma np_random_choice_errors a size replace p :
  ensures any_reply (ok_or_ValueError (fun _ => True))
          (np_random_choice a size replace p).
Proof.
  unfold np_random_choice.
  destruct (size <? 0)%Z; [reflexivity|].
  destruct (_ || _); [reflexivity|].
  destruct p as [w|]; [destruct (_ =? _)%nat|]; cbn; auto.
Qed.

Lemma boot_probs_errors bayes n :
  ensures any_reply (ok_or_ValueError (fun _ => True)) (boot_probs bayes n).
Proof. unfold boot_probs. destruct bayes; cbn; auto. Qed.

Lemma normal_sampled_idx_errors random_state n bayes :
  ensures any_reply (ok_or_ValueError (fun _ => True))
          (normal_sampled_idx random_state n bayes).
Proof.
  unfold normal_sampled_idx.
  apply ensures_after_seed; [reflexivity|].
  eapply ensures_bind; [apply boot_probs_errors| |intros e He; exact He].
  intros p _. apply np_random_choice_errors.
Qed.

(** With the plain bootstrap the task of an estimator fails:
    [np.concatenate] is given the one-dimensional sample. *)
Lemma _parallel_fit_classifier_plain_bootstrap
      tree X y n tree_idx n_estimators bayes verbose random_state min_dist_p :
  ensures any_reply (fun r => r = Err ValueError)
    (_parallel_fit_classifier tree X y n tree_idx n_estimators true bayes
       verbose random_state None min_dist_p).
Proof.
  unfold _parallel_fit_classifier.
  eapply ensures_bind with (Q := ok_or_ValueError
                                   (fun idx => exists a, idx = one_array a)).
  - eapply ensures_bind;
      [apply normal_sampled_idx_errors| |intros e He; exact He].
    intros a _. cbn. eauto.
  - intros idx [a ->]. reflexivity.
  - intros e He. cbn in He. congruence.
Qed.

Lemma fit_tasks_plain_bootstrap self X y min_p :
  forest_bootstrap self = true -> forest_class_weight self = None ->
  forall trees i,
    Forall (ensures any_reply (fun r => r = Err ValueError))
           (fit_tasks self X y min_p i trees).
Proof.
  intros Hb Hc. induction trees as [|t trees IH]; intro i; cbn [fit_tasks];
    constructor; [|apply IH].
  rewrite Hb, Hc. apply _parallel_fit_classifier_plain_bootstrap.
Qed.

Lemma collect_all_fail {A} (rs : list (Result A)) e :
  Forall (fun r => r = Err e) rs -> rs <> [] -> collect rs = Err e.
Proof.
  intros H Hne. destruct H as [|r rs Hr _]; [congruence|].
  subst r. reflexivity.
Qed.

Lemma Parallel_all_fail (G : Generator) {A} sched (ts : list (Task A)) g e :
  Forall (ensures any_reply (fun r => r = Err e)) ts -> ts <> [] ->
  fst (Parallel G sched ts g) = Err e.
Proof.
  intros Hts Hne. unfold Parallel.
  pose proof (@ensures_interleave G A any_reply _ sched (any_reply_holds G)
                ts g Hts) as Hi.
  pose proof (@interleave_length G A sched ts g) as Hl.
  destruct (interleave G sched ts g) as [ts' g1]. cbn in Hi, Hl.
  pose proof (@ensures_run_all G A any_reply _ (any_reply_holds G) ts' g1 Hi)
    as Hr.
  pose proof (@run_all_length G A ts' g1) as Hl'.
  destruct (run_all G ts' g1) as [rs g2]. cbn in Hr, Hl' |- *.
  apply collect_all_fail; [exact Hr|].
  intro E. subst rs. simpl in Hl'. destruct ts; [congruence|].
  simpl in Hl. rewrite <- Hl' in Hl. discriminate.
Qed.

Lemma CITreeClassifier_init_errors a :
  ensures any_reply (ok_or_ValueError (fun _ => True))
          (CITreeClassifier_init a).
Proof.
  unfold CITreeClassifier_init.
  repeat match goal with
         | |- ensures _ _ (if ?c then _ else _) => destruct c; [reflexivity|]
         end.
  destruct (arg_random_state a); cbn; auto.
Qed.

Lemma instantiate_errors params base_seed : forall count i,
  ensures any_reply
    (ok_or_ValueError (fun r => length (snd r) = count))
    (instantiate params base_seed i count).
Proof.
  intros count. revert params.
  induction count as [|count IH]; intros params i; cbn [instantiate].
  - reflexivity.
  - eapply ensures_bind;
      [apply CITreeClassifier_init_errors| |intros e He; exact He].
    intros tree _.
    eapply ensures_bind; [apply IH| |intros e He; exact He].
    intros [params' trees] Hlen. cbn in *. congruence.
Qed.

Lemma forest_fit_plain_bootstrap (G : Generator) sched self X y g :
  forest_bootstrap self = true -> forest_class_weight self = None ->
  (1 <= forest_n_estimators self)%Z ->
  fst (CIForestClassifier_fit G sched self X y g) = Err ValueError.
Proof.
  intros Hb Hc Hn. unfold CIForestClassifier_fit.
  pose proof (@ensures_run G _ any_reply _ _ (any_reply_holds G)
                (instantiate_errors (forest_params self)
                   (forest_random_state self)
                   (Z.to_nat (forest_n_estimators self)) 0) g) as Hinst.
  destruct (run G (instantiate _ _ _ _) g) as [[[params trees]|e] g1];
    cbn in Hinst; [|cbn; congruence].
  destruct (np_min _) as [min_p|e] eqn:Emin.
  2:{ cbn. unfold np_min in Emin. destruct (map _ _); congruence. }
  pose proof (@Parallel_all_fail G _ sched
                (fit_tasks self X y min_p 0 trees) g1 ValueError
                (fit_tasks_plain_bootstrap self X y min_p Hb Hc trees 0))
    as Hp.
  destruct (Parallel G sched _ g1) as [[fitted|e] g2]; cbn in Hp |- *.
  - assert (H : @Ok (list CITree) fitted = Err ValueError); [|discriminate].
    apply Hp. intro E.
    pose proof (fit_tasks_length self X y min_p trees 0) as Hl.
    rewrite E in Hl. simpl in Hl. rewrite <- Hl in Hinst. lia.
  - f_equal. assert (H : @Err (list CITree) e = Err ValueError);
      [|congruence].
    apply Hp. intro E.
    pose proof (fit_tasks_length self X y min_p trees 0) as Hl.
    rewrite E in Hl. simpl in Hl. rewrite <- Hl in Hinst. lia.
Qed.

Lemma CIForestClassifier_init_fields a :
  ensures any_reply
    (ok_or_ValueError
       (fun F => forest_bootstrap F = farg_bootstrap a
                 /\ forest_class_weight F = farg_class_weight a
                 /\ (1 <= forest_n_estimators F)%Z
                 /\ (1 <= forest_min_samples_split F)%Z))
    (CIForestClassifier_init a).
Proof.
  unfold CIForestClassifier_init.
  repeat match goal with
         | |- ensures _ _ (if ?c then _ else _) => destruct c; [reflexivity|]
         end.
  destruct (farg_random_state a); cbn; intros; repeat split; lia.
Qed.

(** X12.  The plain bootstrap cannot be fitted.  A forest constructed with
    [bootstrap=True] and [class_weight=None] raises [ValueError] in [fit],
    whatever the data, the generator and the schedule of the threads (when
    its construction did not already raise it): [normal_sampled_idx] returns
    one array of indices, and [np.concatenate] refuses its items. *)
Theorem forest_with_the_plain_bootstrap_cannot_be_fitted
        (G : Generator) sched a X y g :
  farg_bootstrap a = true -> farg_class_weight a = None ->
  fst (forest_construct_and_fit G sched a X y g) = Err ValueError.
Proof.
  intros Hb Hc. unfold forest_construct_and_fit.
  pose proof (@ensures_run G _ any_reply _ _ (any_reply_holds G)
                (CIForestClassifier_init_fields a) g) as Hi.
  destruct (run G (CIForestClassifier_init a) g) as [[F|e] g1]; cbn in Hi.
  - destruct Hi as (Hb' & Hc' & Hn & _).
    apply forest_fit_plain_bootstrap; congruence.
  - cbn. congruence.
Qed.

(** X13.  A forest cannot be fitted on no sample: with an empty [y],
    [CIForestBase.fit] raises [ValueError], the minimum of the empty class
    distribution being undefined. *)
Theorem forest_fit_on_no_sample_raises (G : Generator) sched self X g :
  fst (CIForestClassifier_fit G sched self X [] g) = Err ValueError.
Proof.
  unfold CIForestClassifier_fit.
  pose proof (@ensures_run G _ any_reply _ _ (any_reply_holds G)
                (instantiate_errors (forest_params self)
                   (forest_random_state self)
                   (Z.to_nat (forest_n_estimators self)) 0) g) as Hinst.
  destruct (run G (instantiate _ _ _ _) g) as [[[params trees]|e] g1];
    cbn in Hinst; [reflexivity|cbn; congruence].
Qed.

End FailingFits.

Lemma forest_with_the_plain_bootstrap_cannot_be_fitted_witness :
  farg_bootstrap Double.forest_args_plain = true
  /\ farg_class_weight Double.forest_args_plain = None
  /\ fst (forest_construct_and_fit Double.generator [] Double.forest_args_plain
                                   Double.X42 Double.y4 0%Z)
     = Err ValueError.
Proof.
  split; [reflexivity|]. split; [reflexivity|].
  apply (@forest_with_the_plain_bootstrap_cannot_be_fitted
           Double.collaborators Double.generator [] Double.forest_args_plain
           Double.X42 Double.y4 0%Z); reflexivity.
Defined.

(* ================================================================= *)
(** * Constructed trees *)

Section Construction.
Context {collab : Collaborators}.

Lemma existsb_In {A} (eqb : A -> A -> bool) (x : A) (l : list A) :
  (forall a b, eqb a b = true -> a = b) ->
  existsb (eqb x) l = true -> In x l.
Proof.
  intros Heq H. apply existsb_exists in H. destruct H as (b & Hb & E).
  apply Heq in E. subst. exact Hb.
Qed.

Lemma str_or_int_eqb_eq a b : str_or_int_eqb a b = true -> a = b.
Proof.
  destruct a, b; cbn; intro H; try discriminate.
  - apply String.eqb_eq in H. congruence.
  - apply Z.eqb_eq in H. congruence.
Qed.

Lemma CITreeClassifier_init_constructed a :
  ensures reply_ok
    (ok_or_ValueError (constructed_tree a))
    (CITreeClassifier_init a).
Proof.
  unfold CITreeClassifier_init.
  destruct (Qle_bool (arg_alpha a) 0 || Qlt_bool 1 (arg_alpha a)) eqn:Ea;
    [reflexivity|].
  destruct (arg_n_permutations a <? 0)%Z eqn:En; [reflexivity|].
  destruct (negb (py_in String.eqb (arg_selector a) valid_selectors)) eqn:Es;
    [reflexivity|].
  destruct (negb (py_in str_or_int_eqb (arg_max_feats a) valid_max_feats))
    eqn:Em; [reflexivity|].
  apply orb_false_iff in Ea. destruct Ea as [Ea0 Ea1].
  apply Z.ltb_ge in En. apply negb_false_iff in Es, Em.
  assert (Hfields : forall rs,
             match arg_random_state a with
             | Some s => rs = s
             | None => (1 <= rs < 9999)%Z
             end ->
             constructed_tree a
               {| alpha := arg_alpha a;
                  min_samples_split := Z.max 1 (arg_min_samples_split a);
                  n_permutations := arg_n_permutations a;
                  selector := arg_selector a;
                  max_feats := arg_max_feats a;
                  early_stopping := arg_early_stopping a;
                  verbose := arg_verbose a;
                  n_jobs := arg_n_jobs a;
                  root := None;
                  splitter_counter_ := 0;
                  max_depth := if (arg_max_depth a =? -1)%Z then unbounded
                               else at_most
                                      (Z.to_nat (Z.max 1 (arg_max_depth a)));
                  random_state := rs;
                  labels_ := [];
                  n_classes_ := 0;
                  feature_importances_ := [] |}).
  { intros rs Hrs. unfold constructed_tree. cbn.
    split.
    { destruct (Qlt_le_dec 0 (arg_alpha a)) as [H|H]; [exact H|].
      apply Qle_bool_iff in H. congruence. }
    split.
    { destruct (Qlt_le_dec 1 (arg_alpha a)) as [H|H]; [|exact H].
      apply Qlt_bool_iff in H. congruence. }
    split; [exact En|]. split; [lia|]. split; [lia|].
    split.
    { apply (@existsb_In _ String.eqb (arg_selector a) valid_selectors);
        [|exact Es].
      intros x y0 H. apply String.eqb_eq. exact H. }
    split.
    { apply (@existsb_In _ str_or_int_eqb (arg_max_feats a) valid_max_feats);
        [|exact Em].
      apply str_or_int_eqb_eq. }
    split.
    { destruct (arg_max_depth a =? -1)%Z eqn:Ed.
      - apply Z.eqb_eq. exact Ed.
      - lia. }
    split; [reflexivity|]. split; [reflexivity|exact Hrs]. }
  destruct (arg_random_state a) as [s|] eqn:Er; cbn.
  - apply Hfields. reflexivity.
  - intros z Hz. apply Hfields. apply Hz. lia.
Qed.

Lemma constructor_invariants_aux (G : Generator) (a : TreeArgs) g :
  sound G ->
  ok_or_ValueError (constructed_tree a)
                   (fst (run G (CITreeClassifier_init a) g)).
Proof.
  intro HG.
  exact (@ensures_run G _ reply_ok _ _ HG
           (CITreeClassifier_init_constructed a) g).
Qed.

(** X14.  What the constructor establishes.  On a generator that keeps
    numpy's promises, [CITreeClassifier(...)] raises [ValueError] or returns
    a tree with [alpha] in (0, 1], [n_permutations >= 0],
    [min_samples_split >= 1], a valid [selector] and [max_feats],
    [max_depth] infinite or at least 1, no root, a zero
    [splitter_counter_], and the given [random_state] or, when none is
    given, one in [1, 9999). *)
Theorem constructor_establishes_the_tree_invariants
        (G : Generator) (a : TreeArgs) g :
  sound G ->
  ok_or_ValueError (constructed_tree a)
                   (fst (run G (CITreeClassifier_init a) g)).
Proof.
  intro HG. apply constructor_invariants_aux. exact HG.
Qed.

Lemma valid_max_feats_resolves m p :
  In m valid_max_feats -> exists k, resolve_max_feats m p = Ok k.
Proof.
  intros [<-|[<-|[<-|[<-|[]]]]]; eexists; reflexivity.
Qed.

Lemma depth_below_constructed a t :
  constructed_tree a t -> depth_below 0 (max_depth t) = true.
Proof.
  intros (_&_&_&_&_&_&_&Hd&_). destruct (max_depth t) as [|d];
    [reflexivity|]. unfold depth_below. apply Nat.ltb_lt. lia.
Qed.

(** X15.  A seed numpy rejects.  A tree constructed with an explicit
    [random_state] outside [0, 2^32) raises [ValueError] in [fit] as soon as
    the data has more than [min_samples_split] samples: the first call of
    [_build_tree] seeds numpy with [random_state * 1]. *)
Theorem fit_raises_for_a_seed_numpy_rejects
        (G : Generator) a s X y labels g0 self g :
  sound G ->
  run G (CITreeClassifier_init a) g0 = (Ok self, g) ->
  arg_random_state a = Some s -> ~ (0 <= s < 2 ^ 32)%Z ->
  (min_samples_split self < Z.of_nat (nrows X))%Z ->
  run G (CITreeClassifier_fit self X y labels) g = (Err ValueError, g).
Proof.
  intros HG Ei Hs Hrange Hn.
  pose proof (@constructor_invariants_aux G a g0 HG) as Hc.
  rewrite Ei in Hc. cbn in Hc.
  pose proof (depth_below_constructed Hc) as Hd.
  destruct Hc as (_&_&_&_&_&_&Hm&_&_&Hcounter&Hrs). rewrite Hs in Hrs.
  destruct (valid_max_feats_resolves (ncols X) Hm) as [k Hk].
  unfold CITreeClassifier_fit, CITreeBase_fit. cbn [max_feats set_labels_].
  rewrite Hk. cbn [lift bind].
  cbn [_build_tree shape min_samples_split max_depth random_state
         splitter_counter_ set_splitter_counter_ set_feature_importances_
         set_max_feats set_labels_].
  apply Z.ltb_lt in Hn. rewrite Hn, Hd. cbn [andb].
  rewrite Hcounter, Hrs. rewrite Z.add_0_l, Z.mul_1_r.
  rewrite np_random_seed_out_of_range by exact Hrange.
  reflexivity.
Qed.

End Construction.

Lemma constructor_establishes_the_tree_invariants_witness :
  sound Double.generator
  /\ ok_or_ValueError (constructed_tree Double.tree_args)
       (fst (run Double.generator (CITreeClassifier_init Double.tree_args)
                 0%Z)).
Proof.
  split; [exact Double_generator_sound|].
  apply (@constructor_establishes_the_tree_invariants
           Double.generator Double.tree_args 0%Z Double_generator_sound).
Defined.

Lemma fit_raises_for_a_seed_numpy_rejects_witness :
  sound Double.generator
  /\ (exists self,
         run Double.generator
             (CITreeClassifier_init Double.tree_args_negative_seed) 0%Z
         = (Ok self, 0%Z)
         /\ arg_random_state Double.tree_args_negative_seed = Some (-1)%Z
         /\ ~ (0 <= -1 < 2 ^ 32)%Z
         /\ (min_samples_split self < Z.of_nat (nrows Double.X4))%Z
         /\ run Double.generator
                (CITreeClassifier_fit self Double.X4 Double.y4 None) 0%Z
            = (Err ValueError, 0%Z)).
Proof.
  split; [exact Double_generator_sound|].
  eexists. split; [vm_compute; reflexivity|].
  split; [reflexivity|]. split; [lia|]. split; [vm_compute; reflexivity|].
  apply (@fit_raises_for_a_seed_numpy_rejects
           Double.collaborators Double.generator
           Double.tree_args_negative_seed (-1)%Z Double.X4 Double.y4 None
           0%Z _ 0%Z Double_generator_sound).
  - vm_compute; reflexivity.
  - reflexivity.
  - lia.
  - vm_compute; reflexivity.
Defined.

(* ================================================================= *)
(** * Data too small to split *)

Section SmallData.
Context {collab : Collaborators}.

Lemma Qlt_bool_Qsum_repeat_0 p : Qlt_bool 0 (Qsum (repeat 0 p)) = false.
Proof.
  destruct (Qlt_bool 0 (Qsum (repeat 0 p))) eqn:E; [|reflexivity].
  apply Qlt_bool_iff in E. rewrite Qsum_repeat_0 in E.
  exfalso. apply (Qlt_irrefl 0 E).
Qed.

(** X16.  Data too small to split.  When the data has at most
    [min_samples_split] samples, and at least one, [fit] does not use the
    generator, whatever the seed is: the tree is a single terminal node that holds the class
    frequencies of [y], every feature importance is zero and
    [splitter_counter_] is unchanged. *)
Theorem fit_without_enough_samples_is_a_single_leaf
        (G : Generator) self X y labels g m :
  resolve_max_feats (max_feats self) (ncols X) = Ok m ->
  (Z.of_nat (nrows X) <= min_samples_split self)%Z ->
  y <> [] ->
  exists self',
    run G (CITreeClassifier_fit self X y labels) g = (Ok self', g)
    /\ labels_ self' = match labels with Some l => l | None => np_unique y end
    /\ root self'
       = Some (Terminal (map (fun label => mean_eq y label) (labels_ self')))
    /\ feature_importances_ self' = repeat 0 (ncols X)
    /\ splitter_counter_ self' = splitter_counter_ self.
Proof.
  intros Hm Hn _.
  unfold CITreeClassifier_fit, CITreeBase_fit. cbn [max_feats set_labels_].
  rewrite Hm. cbn [lift bind].
  cbn [_build_tree shape min_samples_split max_depth
         set_feature_importances_ set_max_feats set_labels_].
  apply Z.ltb_ge in Hn. rewrite Hn. cbn [andb bind run].
  cbn [feature_importances_ set_root set_feature_importances_].
  rewrite Qlt_bool_Qsum_repeat_0.
  eexists. split; [reflexivity|]. cbn. repeat split.
Qed.

End SmallData.

Lemma fit_without_enough_samples_is_a_single_leaf_witness :
  resolve_max_feats (max_feats Double.tree_all) (ncols Double.X2) = Ok 1%Z
  /\ (Z.of_nat (nrows Double.X2) <= min_samples_split Double.tree_all)%Z
  /\ Double.y57 <> []
  /\ exists self',
      run Double.generator
          (CITreeClassifier_fit Double.tree_all Double.X2 Double.y57 None) 0%Z
      = (Ok self', 0%Z)
      /\ labels_ self' = np_unique Double.y57
      /\ root self'
         = Some (Terminal (map (fun label => mean_eq Double.y57 label)
                               (labels_ self')))
      /\ feature_importances_ self' = repeat 0 (ncols Double.X2)
      /\ splitter_counter_ self' = splitter_counter_ Double.tree_all.
Proof.
  split; [reflexivity|]. split; [vm_compute; discriminate|].
  split; [discriminate|].
  apply (@fit_without_enough_samples_is_a_single_leaf
           Double.collaborators Double.generator Double.tree_all Double.X2
           Double.y57 None 0%Z 1%Z).
  - reflexivity.
  - vm_compute; discriminate.
  - discriminate.
Defined.

(* ================================================================= *)
(** * Two runs, one after the other *)

Section InOrder.
Context {collab : Collaborators}.

(** X17.  Explicitly seeded fits ignore the past of the generator.  A tree
    constructed with an explicit [random_state] and fitted, and a forest
    constructed with an explicit [random_state] and fitted with its
    estimator tasks run one after the other, are the same whatever state
    numpy's generator was in before: every read of the generator comes
    after a call of [np.random.seed]. *)
Theorem seeded_fits_ignore_the_state_of_the_generator (G : Generator) :
  seed_resets G ->
  (forall a s X y labels g1 g2,
      arg_random_state a = Some s ->
      fst (run G (tree_construct_and_fit a X y labels) g1)
      = fst (run G (tree_construct_and_fit a X y labels) g2))
  /\ (forall a s X y g1 g2,
         farg_random_state a = Some s ->
         fst (forest_construct_and_fit G [] a X y g1)
         = fst (forest_construct_and_fit G [] a X y g2)).
Proof.
  intro HG. split.
  - intros a s X y labels g1 g2 Ha. apply run_seeded; [exact HG|].
    unfold tree_construct_and_fit.
    pose proof (tree_init_pure a Ha) as Hp.
    destruct (CITreeClassifier_init a) as [t|e|ev k]; cbn;
      [apply seeded_fit|exact I|contradiction].
  - intros a s X y g1 g2 Ha. unfold forest_construct_and_fit.
    destruct (@run_pure G _ _ (forest_init_pure a Ha)) as [r Hr]. rewrite !Hr.
    destruct r as [F|e]; [|reflexivity]. apply forest_fit_in_order. exact HG.
Qed.

End InOrder.

Lemma seeded_fits_ignore_the_state_of_the_generator_witness :
  seed_resets Double.generator
  /\ (arg_random_state Double.tree_args = Some 1%Z
      /\ fst (run Double.generator
                  (tree_construct_and_fit Double.tree_args Double.X4
                                          Double.y4 None) 0%Z)
         = fst (run Double.generator
                    (tree_construct_and_fit Double.tree_args Double.X4
                                            Double.y4 None) 7%Z))
  /\ (farg_random_state Double.forest_args_sqrt = Some 2%Z
      /\ fst (forest_construct_and_fit Double.generator []
                Double.forest_args_sqrt Double.X42 Double.y4 0%Z)
         = fst (forest_construct_and_fit Double.generator []
                  Double.forest_args_sqrt Double.X42 Double.y4 7%Z)).
Proof.
  split; [exact Double_generator_seed_resets|]. split.
  - split; [reflexivity|].
    apply (proj1 (@seeded_fits_ignore_the_state_of_the_generator
                    Double.collaborators Double.generator
                    Double_generator_seed_resets)
                 Double.tree_args 1%Z Double.X4 Double.y4 None 0%Z 7%Z).
    reflexivity.
  - split; [reflexivity|].
    apply (proj2 (@seeded_fits_ignore_the_state_of_the_generator
                    Double.collaborators Double.generator
                    Double_generator_seed_resets)
                 Double.forest_args_sqrt 2%Z Double.X42 Double.y4 0%Z 7%Z).
    reflexivity.
Defined.

(* ================================================================= *)
(** * The probabilities of a forest are the mean of those of its trees *)

Section ForestMean.
Context {collab : Collaborators}.

Lemma add_rows_nth a b c :
  length a = length b ->
  nth c (add_rows a b) 0 == nth c a 0 + nth c b 0.
Proof.
  revert b c. induction a as [|x a IH]; intros [|v b] c H; try discriminate.
  - destruct c; simpl; ring.
  - destruct c as [|c]; simpl; [reflexivity|]. apply IH. simpl in H. lia.
Qed.

Lemma rmap_length {A B} (f : A -> Result B) l l' :
  rmap f l = Ok l' -> length l' = length l.
Proof.
  revert l'. induction l as [|a l IH]; intros l' H; simpl in H.
  - inversion H. reflexivity.
  - destruct (f a); [|discriminate]. destruct (rmap f l); [|discriminate].
    inversion H. simpl. f_equal. apply IH. reflexivity.
Qed.

Lemma accumulate_rows_entries k prediction :
  forall out i0,
    Forall (fun row => length row = k) out ->
    (forall j, (j < length out)%nat ->
               exists p, nth_error prediction (i0 + j) = Some p
                         /\ length p = k) ->
    exists out',
      accumulate_rows out prediction i0 = Ok out'
      /\ length out' = length out
      /\ Forall (fun row => length row = k) out'
      /\ forall j c, (j < length out)%nat ->
                     entry out' j c
                     == entry out j c + entry prediction (i0 + j) c.
Proof.
  induction out as [|row out IH]; intros i0 Hout Hp.
  - exists []. cbn. repeat split; [constructor|]. intros j c Hj. inversion Hj.
  - inversion Hout as [|? ? Hrow Hrest]; subst.
    destruct (Hp 0%nat) as (p & Ep & Hpl); [simpl; lia|].
    rewrite Nat.add_0_r in Ep.
    destruct (IH (S i0) Hrest) as (rest & Er & Hlen & Hall & Hent).
    { intros j Hj. destruct (Hp (S j)) as (q & Eq & Hq); [simpl; lia|].
      exists q. replace (S i0 + j)%nat with (i0 + S j)%nat by lia. auto. }
    cbn [accumulate_rows]. rewrite Ep. unfold iadd_row.
    rewrite Hpl, Nat.eqb_refl. cbn [rbind]. rewrite Er. cbn [rbind].
    eexists. split; [reflexivity|]. split; [simpl; congruence|].
    split; [constructor; [apply length_add_rows; congruence|exact Hall]|].
    intros [|j] c Hj; unfold entry; cbn [nth].
    + rewrite Nat.add_0_r. rewrite (nth_error_nth _ _ [] Ep).
      apply add_rows_nth. congruence.
    + replace (i0 + S j)%nat with (S i0 + j)%nat by lia.
      apply Hent. simpl in Hj. lia.
Qed.

Lemma accumulate_all_entries n k X :
  n <> 1%nat ->
  forall estimators preds out,
    rmap (fun t => CITreeClassifier_predict_proba t X) estimators = Ok preds ->
    Forall (shaped n k) preds ->
    length out = n -> Forall (fun row => length row = k) out ->
    exists out',
      accumulate_all estimators X out = Ok out'
      /\ length out' = n
      /\ Forall (fun row => length row = k) out'
      /\ forall i c, (i < n)%nat ->
                     entry out' i c
                     == entry out i c
                        + Qsum (map (fun pred => entry pred i c) preds).
Proof.
  intro Hn. induction estimators as [|t estimators IH];
    intros preds out Hr Hshape Hlen Hout; simpl in Hr.
  - inversion Hr; subst. exists out.
    split; [reflexivity|]. split; [reflexivity|]. split; [exact Hout|].
    intros i c _. unfold Qsum. cbn [map fold_right]. rewrite Qplus_0_r.
    reflexivity.
  - destruct (CITreeClassifier_predict_proba t X) as [pred|e] eqn:Ep;
      [|discriminate].
    destruct (rmap _ estimators) as [preds'|e] eqn:Er; [|discriminate].
    inversion Hr; subst preds. clear Hr.
    inversion Hshape as [|? ? [Hpl Hprows] Hshape']; subst.
    destruct (@accumulate_rows_entries k pred out 0%nat Hout)
      as (out1 & E1 & Hlen1 & Hall1 & Hent1).
    { intros j Hj. simpl.
      destruct (nth_error pred j) as [p|] eqn:Ej.
      - exists p. split; [reflexivity|].
        rewrite Forall_forall in Hprows. apply Hprows.
        eapply nth_error_In; eauto.
      - apply nth_error_None in Ej. lia. }
    destruct (IH preds' out1 eq_refl Hshape') as (out' & E & Hlen' & Hall' & Hent');
      [congruence|exact Hall1|].
    cbn [accumulate_all]. rewrite Ep.
    assert (Ea : _accumulate_prediction (Ok pred) out = Ok out1).
    { unfold _accumulate_prediction. cbn [rbind].
      destruct out as [|row [|row2 out]]; try exact E1.
      simpl in Hn. congruence. }
    rewrite Ea. cbn [rbind]. exists out'.
    split; [exact E|]. split; [exact Hlen'|]. split; [exact Hall'|].
    intros i c Hi. rewrite (Hent' i c Hi).
    rewrite (Hent1 i c) by lia. unfold Qsum. cbn [map fold_right].
    rewrite Nat.add_0_l. ring.
Qed.

Lemma rmap_Forall2 {A B} (f : A -> Result B) l l' :
  rmap f l = Ok l' -> Forall2 (fun a b => f a = Ok b) l l'.
Proof.
  revert l'. induction l as [|a l IH]; intros l' H; simpl in H.
  - inversion H. constructor.
  - destruct (f a) as [b|] eqn:Ea; [|discriminate].
    destruct (rmap f l) as [bs|]; [|discriminate].
    inversion H. constructor; [exact Ea|apply IH; reflexivity].
Qed.

Lemma nth_repeat_in {A} (a d : A) n i : (i < n)%nat -> nth i (repeat a n) d = a.
Proof.
  revert i. induction n as [|n IH]; intros [|i] H; simpl; try lia;
    [reflexivity|apply IH; lia].
Qed.

Lemma entry_zeros k n i c : (i < n)%nat -> entry (repeat (repeat 0 k) n) i c == 0.
Proof.
  intro Hi. unfold entry. rewrite nth_repeat_in by exact Hi.
  destruct (Nat.lt_ge_cases c k) as [Hc|Hc].
  - rewrite nth_repeat_in by exact Hc. reflexivity.
  - rewrite nth_overflow; [reflexivity|]. rewrite repeat_length. exact Hc.
Qed.

Lemma entry_map (g : Q -> Q) (M : list (list Q)) k i c :
  Forall (fun row => length row = k) M ->
  (i < length M)%nat -> (c < k)%nat ->
  entry (map (map g) M) i c = g (entry M i c).
Proof.
  intros HM Hi Hc. unfold entry.
  rewrite (nth_indep _ [] (map g []))
    by (rewrite length_map; exact Hi).
  rewrite map_nth.
  assert (Hrow : length (nth i M []) = k).
  { rewrite Forall_forall in HM. apply HM. apply nth_In. exact Hi. }
  rewrite (nth_indep _ 0 (g 0)) by (rewrite length_map; lia).
  apply map_nth.
Qed.

(** X18.  The probabilities of a forest.  For an input that does not have
    exactly one row, when every tree predicts the input with [n_classes_]
    entries in each row, [CIForestClassifier.predict_proba] returns the
    two-dimensional array, with a row for each row of the input, whose
    entry for row [i] and class [c] is the sum over the trees of their
    entries for [i] and [c], divided by the number of trees. *)
Theorem forest_predict_proba_is_the_mean_of_the_trees F X preds :
  nrows X <> 1%nat ->
  rmap (fun t => CITreeClassifier_predict_proba t X) (estimators_ F)
  = Ok preds ->
  Forall (Forall (fun row => length row = forest_n_classes_ F)) preds ->
  exists M,
    CIForestClassifier_predict_proba F X = Ok (array2 M)
    /\ length M = nrows X
    /\ Forall (fun row => length row = forest_n_classes_ F) M
    /\ forall i c,
        (i < nrows X)%nat -> (c < forest_n_classes_ F)%nat ->
        entry M i c
        == Qsum (map (fun pred => entry pred i c) preds)
           / Qnat (length (estimators_ F)).
Proof.
  intros Hn Hr Hrows.
  assert (Hshape : Forall (shaped (nrows X) (forest_n_classes_ F)) preds).
  { pose proof (rmap_Forall2 _ _ Hr) as H2. clear Hr.
    induction H2 as [|t pred ts preds' Ht _ IH]; [constructor|].
    inversion Hrows; subst. constructor; [|apply IH; assumption].
    split; [|assumption].
    unfold CITreeClassifier_predict_proba in Ht.
    apply rmap_length in Ht. exact Ht. }
  destruct (@accumulate_all_entries (nrows X) (forest_n_classes_ F) X Hn
              (estimators_ F) preds
              (repeat (repeat 0 (forest_n_classes_ F)) (nrows X)) Hr Hshape)
    as (out & E & Hlen & Hall & Hent).
  { apply repeat_length. }
  { apply Forall_forall. intros row Hrow. apply repeat_spec in Hrow.
    subst row. apply repeat_length. }
  unfold CIForestClassifier_predict_proba. rewrite E. cbn [rbind].
  set (d := Qnat (length (estimators_ F))).
  set (M := map (fun proba => map (fun v => v / d) proba) out).
  assert (HM : length M = nrows X) by (unfold M; rewrite length_map; exact Hlen).
  exists M. split.
  { destruct M as [|r1 [|r2 M']] eqn:EM; try reflexivity.
    simpl in HM. congruence. }
  split; [exact HM|]. split.
  { unfold M. apply Forall_forall. intros row Hrow.
    apply in_map_iff in Hrow. destruct Hrow as (r & <- & Hr').
    rewrite length_map. rewrite Forall_forall in Hall. apply Hall. exact Hr'. }
  intros i c Hi Hc. unfold M.
  change (map (fun proba : list Q => map (fun v : Q => v / d) proba) out)
    with (map (map (fun v : Q => v / d)) out).
  rewrite (@entry_map (fun v => v / d) out (forest_n_classes_ F) i c Hall)
    by (try rewrite Hlen; assumption).
  rewrite (Hent i c Hi), entry_zeros by exact Hi.
  rewrite Qplus_0_l. reflexivity.
Qed.

End ForestMean.

Lemma forest_predict_proba_is_the_mean_of_the_trees_witness :
  exists F g,
    forest_construct_and_fit Double.generator [0; 1; 0]%nat
                             Double.forest_args_sqrt Double.X42 Double.y4 0%Z
    = (Ok F, g)
    /\ nrows Double.X_test <> 1%nat
    /\ rmap (fun t => CITreeClassifier_predict_proba t Double.X_test)
            (estimators_ F)
       = Ok [[[2 # 2; 0 # 2]; [0 # 2; 2 # 2]];
             [[0 # 2; 2 # 2]; [2 # 2; 0 # 2]]]
    /\ Forall (Forall (fun row => length row = forest_n_classes_ F))
              [[[2 # 2; 0 # 2]; [0 # 2; 2 # 2]];
             [[0 # 2; 2 # 2]; [2 # 2; 0 # 2]]]
    /\ exists M,
        CIForestClassifier_predict_proba F Double.X_test = Ok (array2 M)
        /\ length M = nrows Double.X_test
        /\ Forall (fun row => length row = forest_n_classes_ F) M
        /\ forall i c,
            (i < nrows Double.X_test)%nat -> (c < forest_n_classes_ F)%nat ->
            entry M i c
            == Qsum (map (fun pred => entry pred i c)
                         [[[2 # 2; 0 # 2]; [0 # 2; 2 # 2]];
             [[0 # 2; 2 # 2]; [2 # 2; 0 # 2]]])
               / Qnat (length (estimators_ F)).
Proof.
  do 2 eexists. split; [vm_compute; reflexivity|].
  split; [discriminate|].
  match goal with
  | |- ?A /\ ?B /\ _ =>
      assert (Hr : A) by (vm_compute; reflexivity);
      assert (Hs : B) by (repeat constructor);
      split; [exact Hr|]; split; [exact Hs|]
  end.
  match type of Hr with
  | rmap _ (estimators_ ?F) = _ =>
      apply (@forest_predict_proba_is_the_mean_of_the_trees
               F Double.X_test _
               ltac:(discriminate) Hr Hs)
  end.
Defined.

(* ================================================================= *)
(** * The feature importances of a forest *)

Section ForestImportances.
Context {collab : Collaborators}.

Lemma ensures_trivial {A} V (t : Task A) : ensures V (fun _ => True) t.
Proof. induction t as [a|e|ev k IH]; cbn; auto. Qed.

(** The task of an estimator ends in a tree fitted on data that has the
    columns of [X]. *)
Lemma _parallel_fit_classifier_fits
      tree X y n tree_idx n_estimators bootstrap bayes verbose random_state
      class_weight min_dist_p :
  ensures any_reply
    (fun r => match r with
              | Ok t => exists X' y' labels,
                  ncols X' = ncols X /\ fits tree X' y' labels t
              | Err _ => True
              end)
    (_parallel_fit_classifier tree X y n tree_idx n_estimators bootstrap
       bayes verbose random_state class_weight min_dist_p).
Proof.
  unfold _parallel_fit_classifier. destruct bootstrap.
  - eapply ensures_bind with (Q := fun _ => True);
      [apply ensures_trivial| |auto].
    intros idx _.
    eapply ensures_bind with (Q := fun _ => True);
      [apply ensures_trivial| |auto].
    intros flat _.
    eapply ensures_bind with (Q := fun _ => True);
      [apply ensures_trivial| |auto].
    intros X_idx _.
    eapply ensures_bind with (Q := fun _ => True);
      [apply ensures_trivial| |auto].
    intros y_idx _.
    eapply ensures_weaken; [|apply fit_fits].
    intros [t|e] H; [|exact I].
    exists (Matrix X_idx (ncols X)), y_idx, (Some (np_unique y)).
    split; [reflexivity|exact H].
  - eapply ensures_weaken; [|apply fit_fits].
    intros [t|e] H; [|exact I].
    exists X, y, None. split; [reflexivity|exact H].
Qed.

Lemma iadd_at_length i d a a' : iadd_at i d a = Ok a' -> length a' = length a.
Proof. intro H. apply iadd_at_nth in H. tauto. Qed.

Lemma builds_importances_length self X y depth self' node :
  builds self X y depth self' node ->
  length (feature_importances_ self') = length (feature_importances_ self).
Proof.
  induction 1; try reflexivity.
  - apply _splitter_facts in H2.
    destruct H2 as [x fi _ _ _ _ _ _ _ _ _ Hadd ->].
    cbn. apply (iadd_at_length _ _ _ Hadd).
  - apply _splitter_facts in H2.
    destruct H2 as [x fi _ _ _ _ _ _ _ _ _ Hadd Hs2].
    rewrite IHbuilds2, IHbuilds1. subst self2.
    cbn. apply (iadd_at_length _ _ _ Hadd).
Qed.

Lemma fits_normalised self X y labels self' :
  fits self X y labels self' -> (0 <= min_samples_split self)%Z ->
  normalised (ncols X) (feature_importances_ self').
Proof.
  intros [m self2 node Hr Hb ->] Hm.
  assert (H0 : Forall (fun v => 0 <= v)
                      (feature_importances_ (fit_start self X y labels m))).
  { cbn. apply Forall_forall. intros v Hv. apply repeat_spec in Hv.
    subst v. apply Qle_refl. }
  destruct (builds_importances Hb Hm H0) as (Hnn & Hsum & Hpos).
  pose proof (builds_importances_length Hb) as Hlen.
  cbn [feature_importances_ fit_start set_feature_importances_] in Hlen.
  rewrite repeat_length in Hlen.
  destruct (fit_finish_importances self2 node Hnn (Qeq_refl _))
    as (H1 & H2 & H3).
  split; [|split; [exact H1|]].
  - unfold fit_finish. cbn [feature_importances_ set_root].
    destruct (Qlt_bool _ _);
      cbn [feature_importances_ set_feature_importances_ set_root];
      [rewrite length_map|]; exact Hlen.
  - destruct (Qlt_le_dec 0 (Qsum (feature_importances_ self2))) as [Hlt|Hle].
    + left. apply H2. exact Hlt.
    + right. apply H3. intro Hlt. apply (Qlt_not_le _ _ Hlt Hle).
Qed.

Lemma fit_tasks_normalised self X y min_p :
  forall trees i,
    Forall (fun t => (0 <= min_samples_split t)%Z) trees ->
    Forall (ensures any_reply
              (fun r => match r with
                        | Ok t => normalised (ncols X) (feature_importances_ t)
                        | Err _ => True
                        end))
           (fit_tasks self X y min_p i trees).
Proof.
  induction trees as [|t trees IH]; intros i Ht; cbn [fit_tasks];
    constructor.
  - inversion Ht; subst.
    eapply ensures_weaken; [|apply _parallel_fit_classifier_fits].
    intros [t'|e] H; [|exact I].
    destruct H as (X' & y' & labels & Hc & Hf). rewrite <- Hc.
    eapply fits_normalised; eauto.
  - apply IH. inversion Ht; assumption.
Qed.

Lemma Qsum_all_zero l : Forall (fun v => v == 0) l -> Qsum l == 0.
Proof.
  induction 1 as [|v l Hv _ IH]; cbn; [reflexivity|].
  fold (Qsum l). rewrite Hv, IH. reflexivity.
Qed.

Lemma add_rows_nonneg a : forall b,
  Forall (fun v => 0 <= v) a -> Forall (fun v => 0 <= v) b ->
  Forall (fun v => 0 <= v) (add_rows a b).
Proof.
  induction a as [|x a IH]; intros [|v b] Ha Hb; cbn; try constructor.
  - inversion Ha; inversion Hb; subst. lra.
  - inversion Ha; inversion Hb; subst. apply IH; assumption.
Qed.

Lemma sum_axis0_spec p (arrays : list (list Q)) :
  Forall (normalised p) arrays ->
  length (sum_axis0 p arrays) = p
  /\ Forall (fun v => 0 <= v) (sum_axis0 p arrays)
  /\ Qsum (sum_axis0 p arrays) == Qsum (map Qsum arrays).
Proof.
  induction 1 as [|a arrays (Hlen & Hnn & _) _ (IHl & IHn & IHs)];
    cbn [sum_axis0 fold_right map].
  - split; [apply repeat_length|]. split.
    + apply Forall_forall. intros v Hv. apply repeat_spec in Hv. subst.
      apply Qle_refl.
    + rewrite Qsum_repeat_0. reflexivity.
  - fold (sum_axis0 p arrays).
    split; [rewrite length_add_rows; congruence|]. split.
    + apply add_rows_nonneg; assumption.
    + rewrite Qsum_add_rows by congruence. rewrite IHs.
      change (Qsum (Qsum a :: map Qsum arrays))
        with (Qsum a + Qsum (map Qsum arrays)). reflexivity.
Qed.

Lemma Qsum_nonneg_pos_iff (arrays : list (list Q)) p :
  Forall (normalised p) arrays ->
  (0 < Qsum (map Qsum arrays) <-> Exists (fun a => Qsum a == 1) arrays)
  /\ 0 <= Qsum (map Qsum arrays).
Proof.
  induction 1 as [|a arrays (Hlen & Hnn & Hcase) _ [IHiff IHnn]];
    cbn [map].
  - split; [|apply Qle_refl]. split; [intro H; inversion H|].
    intro H; inversion H.
  - change (Qsum (Qsum a :: map Qsum arrays))
      with (Qsum a + Qsum (map Qsum arrays)).
    pose proof (Qsum_nonneg Hnn) as Ha.
    split; [|lra]. split.
    + intro Hpos. destruct Hcase as [H1|H0]; [left; exact H1|].
      right. apply IHiff. rewrite (Qsum_all_zero H0) in Hpos. lra.
    + intro Hex. inversion Hex as [? ? H1|? ? Hr]; subst.
      * rewrite H1. lra.
      * apply IHiff in Hr. lra.
Qed.

(** X19.  The feature importances of a fitted forest have an entry for each
    column of [X], none negative; they add up to one when some tree has
    importances that add up to one (a split of it decreased the impurity)
    and are all zero otherwise.  The Gini impurity is the one modelled from
    the spec. *)
Theorem forest_feature_importances_are_normalised
        (G : Generator) sched self X y g F g' :
  CIForestClassifier_fit G sched self X y g = (Ok F, g') ->
  length (forest_feature_importances_ F) = ncols X
  /\ Forall (fun v => 0 <= v) (forest_feature_importances_ F)
  /\ Forall (fun t => normalised (ncols X) (feature_importances_ t))
            (estimators_ F)
  /\ (Exists (fun t => Qsum (feature_importances_ t) == 1) (estimators_ F) ->
      Qsum (forest_feature_importances_ F) == 1)
  /\ (~ Exists (fun t => Qsum (feature_importances_ t) == 1) (estimators_ F) ->
      Forall (fun v => v == 0) (forest_feature_importances_ F)).
Proof.
  unfold CIForestClassifier_fit.
  pose proof (@ensures_run G _ any_reply _ _ (any_reply_holds G)
                (instantiate_spec (forest_params self)
                   (forest_random_state self) 0
                   (Z.to_nat (forest_n_estimators self))) g) as Hinst.
  destruct (run G (instantiate _ _ _ _) g) as [[[params trees]|e] g1];
    [|discriminate].
  cbn in Hinst. destruct Hinst as (_ & _ & Hnth).
  assert (Hmss : Forall (fun t => (0 <= min_samples_split t)%Z) trees).
  { apply Forall_forall. intros t Ht. apply In_nth_error in Ht.
    destruct Ht as [j Hj]. destruct (Hnth j t Hj) as (_ & _ & Hm & _).
    rewrite Hm. lia. }
  destruct (np_min _) as [min_p|e]; [|discriminate].
  destruct (Parallel G sched _ g1) as [[fitted|e] g2] eqn:Epar;
    [|discriminate].
  pose proof (@ensures_Parallel G _ any_reply _ sched _ g1 fitted g2
                (any_reply_holds G)
                (@fit_tasks_normalised self X y min_p trees 0%nat Hmss) Epar)
    as Hfit.
  intro E. inversion E; subst; clear E.
  cbn [forest_feature_importances_ estimators_ with_estimators].
  assert (Harr : Forall (normalised (ncols X))
                        (map feature_importances_ fitted)).
  { apply Forall_forall. intros a Ha. apply in_map_iff in Ha.
    destruct Ha as (t & <- & Ht). rewrite Forall_forall in Hfit.
    apply Hfit. exact Ht. }
  destruct (sum_axis0_spec Harr) as (Hlen & Hnn & Hsum).
  destruct (Qsum_nonneg_pos_iff Harr) as [Hiff _].
  set (fi := sum_axis0 (ncols X) (map feature_importances_ fitted)) in *.
  assert (Hex : Exists (fun a => Qsum a == 1)
                       (map feature_importances_ fitted)
                <-> Exists (fun t => Qsum (feature_importances_ t) == 1)
                           fitted).
  { rewrite !Exists_exists. split.
    - intros (a & Ha & H1). apply in_map_iff in Ha.
      destruct Ha as (t & <- & Ht). eauto.
    - intros (t & Ht & H1). exists (feature_importances_ t).
      split; [apply in_map; exact Ht|exact H1]. }
  destruct (Qlt_bool 0 (Qsum fi)) eqn:Epos.
  - apply Qlt_bool_iff in Epos.
    split; [rewrite length_map; exact Hlen|]. split.
    { apply Forall_forall. intros v Hv. apply in_map_iff in Hv.
      destruct Hv as (w & <- & Hw). rewrite Forall_forall in Hnn.
      apply Qle_shift_div_l; [exact Epos|]. rewrite Qmult_0_l. auto. }
    split; [exact Hfit|]. split.
    + intros _. apply Qsum_normalised. exact Epos.
    + intro Hno. exfalso. apply Hno. apply Hex, Hiff.
      rewrite <- Hsum. exact Epos.
  - assert (Hle : Qsum fi <= 0).
    { apply Qnot_lt_le. intro H. apply Qlt_bool_iff in H. congruence. }
    split; [exact Hlen|]. split; [exact Hnn|]. split; [exact Hfit|]. split.
    + intro Hyes. exfalso. apply Hex, Hiff in Hyes. rewrite <- Hsum in Hyes.
      apply (Qlt_not_le _ _ Hyes Hle).
    + intros _. apply nonneg_sum_zero; assumption.
Qed.

End ForestImportances.

Lemma forest_feature_importances_are_normalised_witness :
  exists F0 g1 F g2,
    run Double.generator (CIForestClassifier_init (Double.forest_args 2)) 0%Z
    = (Ok F0, g1)
    /\ CIForestClassifier_fit Double.generator [] F0 Double.X4 Double.y4 g1
       = (Ok F, g2)
    /\ length (forest_feature_importances_ F) = ncols Double.X4
    /\ Forall (fun v => 0 <= v) (forest_feature_importances_ F)
    /\ Forall (fun t => normalised (ncols Double.X4) (feature_importances_ t))
              (estimators_ F)
    /\ (Exists (fun t => Qsum (feature_importances_ t) == 1) (estimators_ F) ->
        Qsum (forest_feature_importances_ F) == 1)
    /\ (~ Exists (fun t => Qsum (feature_importances_ t) == 1)
                 (estimators_ F) ->
        Forall (fun v => v == 0) (forest_feature_importances_ F)).
Proof.
  do 4 eexists. split; [vm_compute; reflexivity|].
  match goal with
  | |- ?A /\ _ =>
      assert (H : A) by (vm_compute; reflexivity);
      split; [exact H|];
      exact (@forest_feature_importances_are_normalised
               Double.collaborators Double.generator _ _ _ _ _ _ _ H)
  end.
Defined.

(* ================================================================= *)
(** * Fits that succeed *)

Section FitReturns.
Context {collab : Collaborators}.










End FitReturns.


(* ================================================================= *)
(** * The estimators of a fitted forest *)

Section ForestEstimators.
Context {collab : Collaborators}.

Lemma Forall2_set_nth {A B} (R : A -> B -> Prop) i x (l : list A)
      (l' : list B) :
  Forall2 R l l' ->
  (forall a, nth_error l i = Some a -> R a x) ->
  Forall2 R l (set_nth i x l').
Proof.
  intro H. revert i. induction H as [|a b l l' Hab Hrest IH]; intros i Hx.
  - destruct i; constructor.
  - destruct i as [|i]; cbn.
    + constructor; [apply Hx; reflexivity|exact Hrest].
    + constructor; [exact Hab|]. apply IH. intros a' Ha. apply Hx. exact Ha.
Qed.

Lemma Forall2_nth_error {A B} (R : A -> B -> Prop) l l' i a b :
  Forall2 R l l' -> nth_error l i = Some a -> nth_error l' i = Some b ->
  R a b.
Proof.
  intro H. revert i. induction H as [|x y0 l l' Hxy _ IH]; intros [|i] Ha Hb;
    try discriminate.
  - inversion Ha; inversion Hb; subst. exact Hxy.
  - eapply IH; eauto.
Qed.

(** The thread pool keeps the tasks in their places: each result is the
    outcome of the task of its position. *)
Lemma each_step_thread (G : Generator) {A} V
      (Ps : list (Result A -> Prop)) i (ts : list (Task A)) g :
  (forall ev g, V ev (fst (gen_step G ev g))) ->
  Forall2 (fun P t => ensures V P t) Ps ts ->
  Forall2 (fun P t => ensures V P t) Ps (fst (step_thread G i ts g)).
Proof.
  intros HV H. unfold step_thread.
  destruct (nth_error ts i) as [[a|e|ev k]|] eqn:E; try exact H.
  pose proof (HV ev g) as Hr.
  destruct (gen_step G ev g) as [r g1]. cbn in *.
  apply Forall2_set_nth; [exact H|].
  intros P HP. pose proof (@Forall2_nth_error _ _ _ _ _ _ _ _ H HP E) as Hens.
  cbn in Hens. apply Hens. exact Hr.
Qed.

Lemma each_interleave (G : Generator) {A} V
      (Ps : list (Result A -> Prop)) sched :
  (forall ev g, V ev (fst (gen_step G ev g))) ->
  forall (ts : list (Task A)) g,
    Forall2 (fun P t => ensures V P t) Ps ts ->
    Forall2 (fun P t => ensures V P t) Ps (fst (interleave G sched ts g)).
Proof.
  intros HV. induction sched as [|i sched IH]; intros ts g H; [exact H|].
  cbn [interleave].
  pose proof (@each_step_thread G A V Ps i ts g HV H) as Hs.
  destruct (step_thread G i ts g) as [ts1 g1]. apply IH. exact Hs.
Qed.

Lemma each_run_all (G : Generator) {A} V (Ps : list (Result A -> Prop)) :
  (forall ev g, V ev (fst (gen_step G ev g))) ->
  forall (ts : list (Task A)) g,
    Forall2 (fun P t => ensures V P t) Ps ts ->
    Forall2 (fun P r => P r) Ps (fst (run_all G ts g)).
Proof.
  intros HV ts g H. revert g.
  induction H as [|P t Ps ts HP _ IH]; intro g; cbn [run_all].
  - constructor.
  - pose proof (@ensures_run G A V P t HV HP g) as Hr.
    destruct (run G t g) as [r g1]. specialize (IH g1).
    destruct (run_all G ts g1) as [rs g2]. cbn in *.
    constructor; assumption.
Qed.

Lemma each_collect {A} (Ps : list (Result A -> Prop)) rs l :
  Forall2 (fun P r => P r) Ps rs -> collect rs = Ok l ->
  Forall2 (fun P a => P (Ok a)) Ps l.
Proof.
  intro H. revert l. induction H as [|P r Ps rs HP _ IH]; intros l E;
    cbn in E.
  - inversion E. constructor.
  - destruct r as [a|e]; [|discriminate].
    destruct (collect rs) as [l'|e]; [|discriminate].
    inversion E; subst. constructor; [exact HP|apply IH; reflexivity].
Qed.

Lemma each_Parallel (G : Generator) {A} V (Ps : list (Result A -> Prop))
      sched (ts : list (Task A)) g l g' :
  (forall ev g, V ev (fst (gen_step G ev g))) ->
  Forall2 (fun P t => ensures V P t) Ps ts ->
  Parallel G sched ts g = (Ok l, g') ->
  Forall2 (fun P a => P (Ok a)) Ps l.
Proof.
  intros HV H. unfold Parallel.
  pose proof (@each_interleave G A V Ps sched HV ts g H) as Hi.
  destruct (interleave G sched ts g) as [ts1 g1]. cbn in Hi.
  pose proof (@each_run_all G A V Ps HV ts1 g1 Hi) as Hr.
  destruct (run_all G ts1 g1) as [rs g2]. cbn in Hr.
  intro E. inversion E. eapply each_collect; eauto.
Qed.

Lemma fits_carries self X y labels t :
  fits self X y labels t -> carries (ncols X) self t.
Proof.
  intro Hf.
  destruct (fits_hyperparameters Hf)
    as (m0 & Ha & Hmss & Hnp & Hsel & _ & Hes & _ & Hmd & Hrs & _).
  destruct (fits_max_feats Hf) as (m & Hm & Hmf).
  unfold carries. cbn in *.
  repeat split; try assumption. exists m. auto.
Qed.

Lemma fit_tasks_carry self X y min_p :
  forall trees i,
    Forall2 (fun P t => ensures any_reply P t)
            (map (fitted_from (ncols X)) trees)
            (fit_tasks self X y min_p i trees).
Proof.
  induction trees as [|tree trees IH]; intro i; cbn [fit_tasks map];
    constructor; [|apply IH].
  eapply ensures_weaken; [|apply _parallel_fit_classifier_fits].
  intros [t|e] H; [|exact I].
  destruct H as (X' & y' & labels & Hc & Hf). cbn. rewrite <- Hc.
  apply fits_carries with (y := y') (labels := labels). exact Hf.
Qed.

Lemma CIForestClassifier_init_params a :
  ensures any_reply
    (fun r => match r with
              | Ok F =>
                  param_alpha (forest_params F) = forest_alpha F
                  /\ param_min_samples_split (forest_params F)
                     = forest_min_samples_split F
                  /\ (1 <= forest_min_samples_split F)%Z
                  /\ param_n_permutations (forest_params F)
                     = forest_n_permutations F
                  /\ param_selector (forest_params F) = forest_selector F
                  /\ param_max_feats (forest_params F) = forest_max_feats F
                  /\ param_early_stopping (forest_params F)
                     = forest_early_stopping F
              | Err _ => True
              end)
    (CIForestClassifier_init a).
Proof.
  unfold CIForestClassifier_init.
  repeat match goal with
         | |- ensures _ _ (if ?c then _ else _) => destruct c; [exact I|]
         end.
  destruct (farg_random_state a); cbn; intros; repeat split; lia.
Qed.

Lemma Forall2_map_nth {A B} (f : A -> Result B -> Prop) (l : list A)
      (l' : list B) :
  Forall2 (fun P b => P (Ok b)) (map f l) l' ->
  length l' = length l
  /\ forall j b, nth_error l' j = Some b ->
                 exists a, nth_error l j = Some a /\ f a (Ok b).
Proof.
  revert l'. induction l as [|a l IH]; intros l' H; inversion H; subst.
  - split; [reflexivity|]. intros [|j] b Hb; discriminate.
  - destruct (IH _ H4) as [Hlen Hnth]. split; [simpl; congruence|].
    intros [|j] b Hb; cbn in Hb.
    + inversion Hb; subst. exists a. auto.
    + apply Hnth. exact Hb.
Qed.

(** X21.  The estimators of a fitted forest.  A forest that was constructed
    and fitted has [n_estimators] trees; the tree at position [j] has the
    seed [random_state * (j + 1)], the forest's [alpha],
    [min_samples_split], [n_permutations], [selector] and
    [early_stopping], the forest's [max_feats] resolved for the columns of
    [X], and no limit on its depth (the forest's [max_depth] is not passed
    on), whatever the schedule of the threads. *)
Theorem fitted_forest_estimators_carry_the_hyperparameters
        (G : Generator) a g0 F0 g1 sched X y F g2 :
  run G (CIForestClassifier_init a) g0 = (Ok F0, g1) ->
  CIForestClassifier_fit G sched F0 X y g1 = (Ok F, g2) ->
  length (estimators_ F) = Z.to_nat (forest_n_estimators F)
  /\ forall j t,
      nth_error (estimators_ F) j = Some t ->
      random_state t = (forest_random_state F * (Z.of_nat j + 1))%Z
      /\ alpha t = forest_alpha F
      /\ min_samples_split t = forest_min_samples_split F
      /\ n_permutations t = forest_n_permutations F
      /\ selector t = forest_selector F
      /\ early_stopping t = forest_early_stopping F
      /\ max_depth t = unbounded
      /\ exists m, resolve_max_feats (forest_max_feats F) (ncols X) = Ok m
                   /\ max_feats t = Int m.
Proof.
  intros Ei Ef.
  pose proof (@ensures_run G _ any_reply _ _ (any_reply_holds G)
                (CIForestClassifier_init_params a) g0) as Hp.
  rewrite Ei in Hp. cbn [fst] in Hp.
  destruct Hp as (Pa & Pm & Pm1 & Pn & Ps & Pf & Pe).
  revert Ef. unfold CIForestClassifier_fit.
  pose proof (@ensures_run G _ any_reply _ _ (any_reply_holds G)
                (instantiate_spec (forest_params F0)
                   (forest_random_state F0) 0
                   (Z.to_nat (forest_n_estimators F0))) g1) as Hinst.
  destruct (run G (instantiate _ _ _ _) g1) as [[[params trees]|e] g1'];
    [|discriminate].
  cbn in Hinst. destruct Hinst as (Hlen & Hdepth & Hnth).
  destruct (np_min _) as [min_p|e]; [|discriminate].
  destruct (Parallel G sched _ g1') as [[fitted|e] g2'] eqn:Epar;
    [|discriminate].
  pose proof (@each_Parallel G _ any_reply _ sched _ g1' fitted g2'
                (any_reply_holds G)
                (@fit_tasks_carry F0 X y min_p trees 0%nat) Epar) as Hfit.
  apply Forall2_map_nth in Hfit.
  destruct Hfit as [Hl Hcar].
  intro E. inversion E; subst; clear E.
  cbn [estimators_ with_estimators forest_n_estimators forest_random_state
         forest_alpha forest_min_samples_split forest_n_permutations
         forest_selector forest_early_stopping forest_max_feats].
  split; [congruence|].
  intros j t Ht. destruct (Hcar j t Ht) as (tree & Htree & Hc).
  cbn [fitted_from] in Hc.
  destruct (Hnth j tree Htree) as (Hrs & Ha & Hm & Hn & Hs & Hf & He).
  rewrite Forall_forall in Hdepth.
  pose proof (Hdepth tree (nth_error_In _ _ Htree)) as Hd.
  destruct Hc as (Crs & Ca & Cm & Cn & Cs & Ce & Cd & (m & Hres & Cf)).
  rewrite Crs, Ca, Cm, Cn, Cs, Ce, Cd, Hrs, Ha, Hm, Hn, Hs, He, Hd.
  rewrite Pa, Pm, Pn, Ps, Pe. cbn [Nat.add].
  repeat split; try reflexivity; [lia|].
  exists m. rewrite <- Pf, <- Hf. auto.
Qed.

End ForestEstimators.

Lemma fitted_forest_estimators_carry_the_hyperparameters_witness :
  exists F0 g1 F g2,
    run Double.generator (CIForestClassifier_init Double.forest_args_sqrt)
        0%Z
    = (Ok F0, g1)
    /\ CIForestClassifier_fit Double.generator [0; 1; 0]%nat F0 Double.X42
                              Double.y4 g1
       = (Ok F, g2)
    /\ length (estimators_ F) = Z.to_nat (forest_n_estimators F)
    /\ forall j t,
        nth_error (estimators_ F) j = Some t ->
        random_state t = (forest_random_state F * (Z.of_nat j + 1))%Z
        /\ alpha t = forest_alpha F
        /\ min_samples_split t = forest_min_samples_split F
        /\ n_permutations t = forest_n_permutations F
        /\ selector t = forest_selector F
        /\ early_stopping t = forest_early_stopping F
        /\ max_depth t = unbounded
        /\ exists m,
            resolve_max_feats (forest_max_feats F) (ncols Double.X42) = Ok m
            /\ max_feats t = Int m.
Proof.
  do 4 eexists.
  match goal with
  | |- ?A /\ _ =>
      assert (Hi : A) by (vm_compute; reflexivity); split; [exact Hi|]
  end.
  match goal with
  | |- ?B /\ _ =>
      assert (Hf : B) by (vm_compute; reflexivity); split; [exact Hf|]
  end.
  exact (@fitted_forest_estimators_carry_the_hyperparameters
           Double.collaborators Double.generator _ _ _ _ _ _ _ _ _ Hi Hf).
Defined.

(* ================================================================= *)
(** * Predicting with a fitted forest *)

Section ForestPredicts.
Context {collab : Collaborators}.






End ForestPredicts.

